(** * windows-window-util: a model of [index.mjs] and [index.cjs]

    The library enumerates top-level windows and resolves their title,
    owning process id, executable path and visibility through native calls.
    This development embeds the JavaScript of both module files and states
    the properties of the buffer reader, the field resolver, the process-path
    cache and the enumeration on that embedding.

    Layout:
    - [Js]           strings, buffers, errors, completions;
    - [Boundary]     the native calls ([user32], [kernel32], [psapi]) and the
                     monad of code that issues them;
    - [Reader]       [getW], the growable-buffer reader;
    - [Wwutil]       the operations of the [wwutil] object, shared by both files;
    - [Mjs], [Cjs]   the two module files;
    - [EventLoop]    overlapping [getPathByPid] requests on one cache. *)

From Stdlib Require Import ZArith List String Ascii Bool Lia.
From stdpp Require Import base option list gmap.

Local Open Scope Z_scope.

(* ===================================================================== *)
(** * JavaScript values the library manipulates *)
(* ===================================================================== *)

Module Js.

(** A JavaScript string is a sequence of UTF-16 code units. *)
Definition jsstring := list Z.

(** The code units of an ASCII literal. *)
Definition lit (s : string) : jsstring :=
  map (fun c => Z.of_nat (nat_of_ascii c)) (list_ascii_of_string s).

(** A node [Buffer] is a sequence of bytes. *)
Definition Buffer := list Z.

(** An [Error] object; [message] is what [getW] inspects. *)
Record Error := mkError { kind : string; message : string }.

(** How a settled promise ended. *)
Inductive outcome (A : Type) : Type :=
| Fulfilled (a : A)
| Rejected (e : Error).
Arguments Fulfilled {A} a.
Arguments Rejected {A} e.

(** Why a run of the model stops without a JavaScript completion: the
    retry loop was cut by the model's bound on its turns. *)
Inductive abort : Type :=
| OutOfFuel.

(** The completion of a piece of code. *)
Inductive Res (A : Type) : Type :=
| Val (a : A)
| Exn (e : Error)
| Stop (r : abort).
Arguments Val {A} a.
Arguments Exn {A} e.
Arguments Stop {A} r.

Definition dquote : string := String (ascii_of_nat 34) EmptyString.

(** The message of Node's out-of-bounds [RangeError],
    ["length" is outside of buffer bounds] with its double quotes: the
    message [getW] takes for "the buffer was too small". *)
Definition outsideBounds : string :=
  (dquote ++ "length" ++ dquote ++ " is outside of buffer bounds")%string.

Definition boundsError : Error := mkError "RangeError" outsideBounds.

(** [buffer.constants.MAX_LENGTH], the largest size [Buffer.alloc] accepts:
    2^32 on the 64-bit Node versions 15 to 21.  Other versions have another
    power of two, which moves the last length [getW] can try and nothing
    else. *)
Definition MAX_LENGTH : Z := 2 ^ 32.

(** The [RangeError] of [Buffer.alloc] for a size out of range.  Its message
    starts as below and goes on with the range and the value received; what
    matters to [getW] is that it is not [outsideBounds]. *)
Definition sizeOutOfRange : Error :=
  mkError "RangeError"
          ("The value of " ++ dquote ++ "size" ++ dquote ++ " is out of range")%string.

(** [len] zero bytes. *)
Definition zeros (len : Z) : Buffer := repeat 0 (Z.to_nat len).

(** A size [Buffer.alloc] accepts. *)
Definition allocatable (len : Z) : bool := (0 <=? len) && (len <=? MAX_LENGTH).

(** [Buffer.alloc(len)]: [len] zero bytes, or a throw when [len] is out of
    range. *)
Definition Buffer_alloc (len : Z) : Res Buffer :=
  if allocatable len then Val (zeros len) else Exn sizeOutOfRange.

(** What a native function leaves in a buffer it was handed: the bytes it
    wrote, from the start of the buffer, over the previous content.  Bytes
    are stored modulo 256 and the buffer keeps its length. *)
Definition fill (buf : Buffer) (written : list Z) : Buffer :=
  take (length buf)
       (map (fun b => b mod 256) written ++ drop (length written) buf).

(** [wcharT.size] on Windows. *)
Definition wcharT_size : nat := 2.

(** The scan of [ref.reinterpretUntilZeros(buf, wcharT.size, offset)]:
    aligned two-byte units are taken until a unit of two zero bytes.  The
    native scan does not look at the length of the buffer.  When the buffer
    holds no terminator the scan goes on behind it, and the length it
    arrives at is outside the buffer: wrapping the run then throws Node's
    [RangeError] with the message [outsideBounds].  That case is [None]
    here, and [boundsError] where the run is used.  (A null unit right
    behind the buffer would end the scan at the end of the buffer, with no
    error; the memory behind the buffer is taken not to begin with one.) *)
Fixpoint untilZeros (mem : list Z) : option (list Z) :=
  match mem with
  | lo :: hi :: rest =>
      if (lo =? 0) && (hi =? 0) then Some []
      else (fun run => lo :: hi :: run) <$> untilZeros rest
  | _ => None
  end.

Definition reinterpretUntilZeros (buf : Buffer) (offset : nat)
  : option (list Z) :=
  untilZeros (drop offset buf).

(** [wcharT.toString]: UTF-16LE bytes to code units. *)
Fixpoint toString (bytes : list Z) : jsstring :=
  match bytes with
  | lo :: hi :: rest => (lo + 256 * hi) :: toString rest
  | _ => []
  end.

(** [Buffer.from(string, 'ucs2')]: code units to UTF-16LE bytes. *)
Definition ucs2 (s : jsstring) : Buffer :=
  flat_map (fun u => [u mod 256; (u / 256) mod 256]) s.

Definition isHighSurrogate (u : Z) : bool := (0xD800 <=? u) && (u <=? 0xDBFF).
Definition isLowSurrogate (u : Z) : bool := (0xDC00 <=? u) && (u <=? 0xDFFF).

(** [Buffer.byteLength(string)]: the length of the UTF-8 encoding, the
    default encoding of [byteLength].  A surrogate pair takes four bytes,
    a lone surrogate the three bytes of U+FFFD. *)
Fixpoint byteLength (s : jsstring) : nat :=
  match s with
  | [] => 0%nat
  | u :: rest =>
      if u <? 0x80 then S (byteLength rest)
      else if u <? 0x800 then S (S (byteLength rest))
      else if isHighSurrogate u then
        match rest with
        | l :: rest' =>
            if isLowSurrogate l then (4 + byteLength rest')%nat
            else (3 + byteLength rest)%nat
        | [] => 3%nat
        end
      else (3 + byteLength rest)%nat
  end.

(** [buf.readInt32LE(0)]: four little-endian bytes as a signed 32-bit
    integer. *)
Definition readInt32LE (buf : Buffer) : Z :=
  let u := nth 0 buf 0 + 2 ^ 8 * nth 1 buf 0
           + 2 ^ 16 * nth 2 buf 0 + 2 ^ 24 * nth 3 buf 0 in
  if u <? 2 ^ 31 then u else u - 2 ^ 32.

(** A string is truthy when it is not empty. *)
Definition nonEmpty (s : jsstring) : bool :=
  match s with [] => false | _ => true end.

(** [haystack.indexOf(needle) === 0]. *)
Fixpoint startsWith (needle haystack : jsstring) : bool :=
  match needle, haystack with
  | [], _ => true
  | n :: needle', h :: haystack' => (n =? h) && startsWith needle' haystack'
  | _ :: _, [] => false
  end.

(** The replacement text of [String.prototype.replace] for a string
    pattern: in [replacement], [$$] stands for a dollar sign, [$&] for the
    matched text, [$`] for what precedes the match and [$'] for what
    follows it; a pattern that is a string has no captures, so any other
    [$] is kept as it is. *)
Fixpoint getSubstitution (matched before after replacement : jsstring)
  : jsstring :=
  match replacement with
  | [] => []
  | c :: rest =>
      if c =? 36 (* $ *) then
        match rest with
        | d :: rest' =>
            if d =? 36 (* $ *) then
              36 :: getSubstitution matched before after rest'
            else if d =? 38 (* & *) then
              matched ++ getSubstitution matched before after rest'
            else if d =? 96 (* ` *) then
              before ++ getSubstitution matched before after rest'
            else if d =? 39 (* ' *) then
              after ++ getSubstitution matched before after rest'
            else c :: getSubstitution matched before after rest
        | [] => [c]
        end
      else c :: getSubstitution matched before after rest
  end.

End Js.
Export Js.

(* ===================================================================== *)
(** * The native boundary *)
(* ===================================================================== *)

Module Boundary.

(** A native call as issued, with the arguments that vary.  The buffer
    argument of a filling call is always a fresh [Buffer.alloc(len)]. *)
Inductive Call : Type :=
| EnumWindows
| GetForegroundWindow
| IsWindowVisible (hwnd : Z)
| GetWindowTextW (hwnd : Z) (len : Z)
| GetWindowThreadProcessId (hwnd : Z)
| OpenProcess (access : Z) (inherit : bool) (pid : Z)
| CloseHandle (handle : Z)
| GetLogicalDriveStringsW (len : Z)
| QueryDosDeviceW (name : Buffer) (len : Z)
| GetProcessImageFileNameW (process : Z) (len : Z).

Definition Call_eqb (a b : Call) : bool :=
  match a, b with
  | EnumWindows, EnumWindows => true
  | GetForegroundWindow, GetForegroundWindow => true
  | IsWindowVisible h, IsWindowVisible h' => h =? h'
  | GetWindowTextW h l, GetWindowTextW h' l' => (h =? h') && (l =? l')
  | GetWindowThreadProcessId h, GetWindowThreadProcessId h' => h =? h'
  | OpenProcess a i p, OpenProcess a' i' p' =>
      (a =? a') && Bool.eqb i i' && (p =? p')
  | CloseHandle h, CloseHandle h' => h =? h'
  | GetLogicalDriveStringsW l, GetLogicalDriveStringsW l' => l =? l'
  | QueryDosDeviceW n l, QueryDosDeviceW n' l' =>
      bool_decide (n = n') && (l =? l')
  | GetProcessImageFileNameW p l, GetProcessImageFileNameW p' l' =>
      (p =? p') && (l =? l')
  | _, _ => false
  end.

(** The calls issued so far, oldest first. *)
Definition history := list Call.

(** The operating system: what each promisified native function settles
    to, given everything called before it.  A filling call answers with the
    bytes it wrote into the buffer; [EnumWindows] with the handles it
    passed to the callback. *)
Record Native : Type := mkNative {
  enumWindows : history -> outcome (list Z);
  getForegroundWindow : history -> outcome Z;
  isWindowVisible : history -> Z -> outcome bool;
  getWindowTextW : history -> Z -> Z -> outcome (list Z);
  getWindowThreadProcessId : history -> Z -> outcome (list Z);
  openProcess : history -> Z -> bool -> Z -> outcome Z;
  closeHandle : history -> Z -> outcome Z;
  getLogicalDriveStringsW : history -> Z -> outcome (list Z);
  queryDosDeviceW : history -> Buffer -> Z -> outcome (list Z);
  getProcessImageFileNameW : history -> Z -> Z -> outcome (list Z)
}.

(** Code that issues native calls and may throw: a state monad over the
    history with completions as results. *)
Definition M (A : Type) : Type := history -> Res A * history.

Definition ret {A} (a : A) : M A := fun h => (Val a, h).
Definition throw {A} (e : Error) : M A := fun h => (Exn e, h).
Definition stop {A} (r : abort) : M A := fun h => (Stop r, h).

Definition bind {A B} (m : M A) (k : A -> M B) : M B :=
  fun h =>
    match m h with
    | (Val a, h') => k a h'
    | (Exn e, h') => (Exn e, h')
    | (Stop r, h') => (Stop r, h')
    end.

(** [try { m } catch (e) { handler e }]. *)
Definition try_catch {A} (m : M A) (handler : Error -> M A) : M A :=
  fun h =>
    match m h with
    | (Exn e, h') => handler e h'
    | r => r
    end.

(** [try { m } finally { cleanup }]: the cleanup runs after a value and
    after a throw; when it completes normally the completion of [m]
    stands, otherwise its own completion replaces it. *)
Definition try_finally {A} (m : M A) (cleanup : M unit) : M A :=
  fun h =>
    match m h with
    | (Stop r, h') => (Stop r, h')
    | (c, h') =>
        match cleanup h' with
        | (Val _, h'') => (c, h'')
        | (Exn e, h'') => (Exn e, h'')
        | (Stop r, h'') => (Stop r, h'')
        end
    end.

(** Calling an async function without awaiting it: the promise it returns.
    The model runs the body to its completion at once. *)
Definition start {A} (m : M A) : M (outcome A) :=
  fun h =>
    match m h with
    | (Val a, h') => (Val (Fulfilled a), h')
    | (Exn e, h') => (Val (Rejected e), h')
    | (Stop r, h') => (Stop r, h')
    end.

(** [await promise]. *)
Definition await {A} (p : outcome A) : M A :=
  match p with
  | Fulfilled a => ret a
  | Rejected e => throw e
  end.

(** Issue a native call and await it. *)
Definition native {A} (c : Call) (reply : history -> outcome A) : M A :=
  fun h =>
    (match reply h with Fulfilled a => Val a | Rejected e => Exn e end,
     h ++ [c]).

End Boundary.
Export Boundary.

Declare Scope js_scope.
Delimit Scope js_scope with js.
Notation "x <- m ;; k" := (bind m (fun x => k))
  (at level 100, m at next level, right associativity) : js_scope.
Notation "m ;;; k" := (bind m (fun _ => k))
  (at level 100, right associativity) : js_scope.
Local Open Scope js_scope.

(* ===================================================================== *)
(** * The growable-buffer reader *)
(* ===================================================================== *)

Module Reader.

(** The inner [while (result)] loop of [getW]: one run per turn, pushed
    onto [results], the offset moved by [(Buffer.byteLength(result) + 1) * 2];
    the turn that reads an empty run is the last one, and a turn whose scan
    finds no terminator in the buffer throws.  Every turn but the last moves
    the offset by four bytes or more, so a buffer of [n] bytes allows fewer
    than [n] turns before the scan leaves it. *)
Fixpoint splitLoop (turns : nat) (buf : Buffer) (offset : nat)
         (results : list jsstring) : Res (list jsstring) :=
  match turns with
  | O => Stop OutOfFuel
  | S turns' =>
      match reinterpretUntilZeros buf offset with
      | None => Exn boundsError
      | Some run =>
          let result := toString run in
          let results := results ++ [result] in
          let offset := (offset + (byteLength result + 1) * 2)%nat in
          if nonEmpty result then splitLoop turns' buf offset results
          else Val results
      end
  end.

(** What [getW] returns: a string, or an array of strings when
    [splitZeros] is set. *)
Definition result_of (splitZeros : bool) : Type :=
  if splitZeros then list jsstring else jsstring.

(** The part of the [try] block after [await func(buf, len)]. *)
Definition decode (splitZeros : bool) (buf : Buffer)
  : Res (result_of splitZeros) :=
  match splitZeros return Res (result_of splitZeros) with
  | false =>
      match reinterpretUntilZeros buf 0 with
      | Some run => Val (toString run)
      | None => Exn boundsError
      end
  | true =>
      match splitLoop (S (length buf)) buf 0 [] with
      | Val results => Val (removelast results)   (* results.slice(0, -1) *)
      | Exn e => Exn e
      | Stop r => Stop r
      end
  end.

(** The [try] block of [getW] at a given [len]: the buffer is allocated,
    handed to [func] with [len], and decoded.  [func] is the supplied native
    call; it returns the buffer as the call left it. *)
Definition attempt (func : Buffer -> Z -> M Buffer) (splitZeros : bool)
           (len : Z) : M (result_of splitZeros) :=
  buf <- (fun h => (Buffer_alloc len, h)) ;;
  buf <- func buf len ;;
  fun h => (decode splitZeros buf, h).

(** The [while (true)] loop of [getW] from a given [len].  [attempts]
    bounds the turns the model follows, and a run that needs more ends in
    [Stop OutOfFuel].  The loop of the program needs no more than there are
    doublings of [len] up to [MAX_LENGTH]: see [getW_loop_ends]. *)
Fixpoint getW_loop (attempts : nat) (func : Buffer -> Z -> M Buffer)
         (splitZeros : bool) (len : Z) : M (result_of splitZeros) :=
  match attempts with
  | O => stop OutOfFuel
  | S attempts' =>
      try_catch
        (attempt func splitZeros len)
        (fun e =>
           if negb (String.eqb (message e) outsideBounds) then throw e
           else getW_loop attempts' func splitZeros (len * 2))
  end.

End Reader.
Export Reader.

(* ===================================================================== *)
(** * The operations of [wwutil] *)
(* ===================================================================== *)

Module Wwutil.

(** The names in [windowMembers]. *)
Inductive member : Type := Hwnd | Title | Pid | Path | Visible.

Definition member_eqb (a b : member) : bool :=
  match a, b with
  | Hwnd, Hwnd | Title, Title | Pid, Pid | Path, Path | Visible, Visible => true
  | _, _ => false
  end.

Definition windowMembers : list member := [Hwnd; Title; Pid; Path; Visible].

(** [fields.includes(member)]. *)
Definition includes (fields : list member) (m : member) : bool :=
  existsb (member_eqb m) fields.

(** [class Window]: the constructor stores its arguments under the names
    of [windowMembers]; a member that got no argument is [undefined],
    [None] here.  The handle is always given. *)
Record Window : Type := mkWindow {
  hwnd : Z;
  title : option jsstring;
  pid : option Z;
  path : option jsstring;
  visible : option bool
}.

(** [new Window(hwnd)]. *)
Definition Window_new (hwnd : Z) : Window := mkWindow hwnd None None None None.

(** The truthiness of [window[member]]: [undefined], the empty string,
    zero and [false] are falsy. *)
Definition truthy (window : Window) (m : member) : bool :=
  match m with
  | Hwnd => negb (hwnd window =? 0)
  | Title => match title window with Some s => nonEmpty s | None => false end
  | Pid => match pid window with Some n => negb (n =? 0) | None => false end
  | Path => match path window with Some s => nonEmpty s | None => false end
  | Visible => match visible window with Some b => b | None => false end
  end.

(** [window[member] !== undefined]. *)
Definition defined (window : Window) (m : member) : bool :=
  match m with
  | Hwnd => true
  | Title => bool_decide (is_Some (title window))
  | Pid => bool_decide (is_Some (pid window))
  | Path => bool_decide (is_Some (path window))
  | Visible => bool_decide (is_Some (visible window))
  end.

(** The drive map: the entries of the object in the order
    [Object.entries] lists them.  Keys are one-unit strings. *)
Definition DriveMap := list (jsstring * jsstring).

(** A key that is a canonical array index; among one-unit strings, a
    digit.  Such keys come first in property order, ascending. *)
Definition isIndexKey (k : jsstring) : bool :=
  match k with [d] => (48 <=? d) && (d <=? 57) | _ => false end.

Definition indexBefore (k k' : jsstring) : bool :=
  match k, k' with [d], [d'] => d <? d' | _, _ => false end.

(** [o[k] = v] on an object whose keys are ordered as above. *)
Fixpoint setProperty (k v : jsstring) (o : DriveMap) : DriveMap :=
  match o with
  | [] => [(k, v)]
  | (k', v') :: o' =>
      if bool_decide (k' = k) then (k, v) :: o'
      else if isIndexKey k && (negb (isIndexKey k') || indexBefore k k')
           then (k, v) :: (k', v') :: o'
      else (k', v') :: setProperty k v o'
  end.

Definition Object_fromEntries (entries : list (jsstring * jsstring)) : DriveMap :=
  fold_left (fun o kv => setProperty (fst kv) (snd kv) o) entries [].

(** The process map: a promise per process id.  In this sequential model
    a promise is stored settled. *)
Abbreviation ProcessMap := (gmap Z (outcome (option jsstring))).

(** [Promise.all] on settled promises: the values in order, or the first
    rejection. *)
Fixpoint Promise_all {A} (promises : list (outcome A)) : outcome (list A) :=
  match promises with
  | [] => Fulfilled []
  | Rejected e :: _ => Rejected e
  | Fulfilled a :: rest =>
      match Promise_all rest with
      | Fulfilled l => Fulfilled (a :: l)
      | Rejected e => Rejected e
      end
  end.

(** [array.map(f)] where [f] issues native calls. *)
Fixpoint mapM {A B} (f : A -> M B) (l : list A) : M (list B) :=
  match l with
  | [] => ret []
  | a :: l' => b <- f a ;; bs <- mapM f l' ;; ret (b :: bs)
  end.

(** [strArg]: [Buffer.from(string + '\0', 'ucs2')]. *)
Definition strArg (s : jsstring) : Buffer := ucs2 (s ++ [0]).

(** The loop of [getPathByPid] over [Object.entries(driveMap)]: for the
    first device name that [rawPath] starts with,
    [rawPath.replace(deviceName, driveLetter + ':')] replaces that
    occurrence, which is the first, by the expansion of the drive letter and
    a colon as a replacement text; [None] is the [undefined] of falling out
    of the loop. *)
Fixpoint rewritePath (rawPath : jsstring) (entries : DriveMap)
  : option jsstring :=
  match entries with
  | [] => None
  | (driveLetter, deviceName) :: rest =>
      if startsWith deviceName rawPath
      then
        let after := drop (length deviceName) rawPath in
        Some (getSubstitution deviceName [] after (driveLetter ++ lit ":") ++ after)
      else rewritePath rawPath rest
  end.

(** The promises [fillWindowFields] collects in [values], by member.
    [Object.entries(values)] lists them in insertion order, which is the
    order of [windowMembers]: the loop inserts in that order, and
    [defs.path] inserts [pid] before the loop inserts [path]. *)
Record Values : Type := mkValues {
  v_hwnd : option Z;
  v_title : option (outcome jsstring);
  v_pid : option (outcome Z);
  v_path : option (outcome (option jsstring));
  v_visible : option (outcome bool)
}.

Definition noValues : Values := mkValues None None None None None.

(** [window[member] = await value] for the entry of [member], if any. *)
Definition assign (values : Values) (m : member) (window : Window)
  : outcome unit * Window :=
  match m with
  | Hwnd =>
      match v_hwnd values with
      | Some h => (Fulfilled tt, mkWindow h (title window) (pid window)
                                          (path window) (visible window))
      | None => (Fulfilled tt, window)
      end
  | Title =>
      match v_title values with
      | Some (Fulfilled t) =>
          (Fulfilled tt, mkWindow (hwnd window) (Some t) (pid window)
                                  (path window) (visible window))
      | Some (Rejected e) => (Rejected e, window)
      | None => (Fulfilled tt, window)
      end
  | Pid =>
      match v_pid values with
      | Some (Fulfilled n) =>
          (Fulfilled tt, mkWindow (hwnd window) (title window) (Some n)
                                  (path window) (visible window))
      | Some (Rejected e) => (Rejected e, window)
      | None => (Fulfilled tt, window)
      end
  | Path =>
      match v_path values with
      | Some (Fulfilled p) =>
          (Fulfilled tt, mkWindow (hwnd window) (title window) (pid window)
                                  p (visible window))
      | Some (Rejected e) => (Rejected e, window)
      | None => (Fulfilled tt, window)
      end
  | Visible =>
      match v_visible values with
      | Some (Fulfilled b) =>
          (Fulfilled tt, mkWindow (hwnd window) (title window) (pid window)
                                  (path window) (Some b))
      | Some (Rejected e) => (Rejected e, window)
      | None => (Fulfilled tt, window)
      end
  end.

(** The second loop of [fillWindowFields]: it stops at the first rejected
    promise, with the members before it already written. *)
Fixpoint assignAll (values : Values) (members : list member) (window : Window)
  : outcome unit * Window :=
  match members with
  | [] => (Fulfilled tt, window)
  | m :: rest =>
      match assign values m window with
      | (Fulfilled _, window') => assignAll values rest window'
      | (Rejected e, window') => (Rejected e, window')
      end
  end.

End Wwutil.
Export Wwutil.

(** ** The functions

    An async function is a computation in [M]: a throw is the rejection of
    the promise it returns.  A function that also mutates an object it was
    handed (the window, the process map) returns the promise as an
    [outcome] together with the object as it left it, so that the mutation
    is there after a rejection too.

    Everything is run under the schedule in which an awaited native call
    settles before the next one is issued.  Overlapping lookups on one
    process map are treated in [EventLoop]. *)

(** [(buf, len) => call(...)]: the call writes into the buffer. *)
Definition filling (c : Z -> Call) (reply : history -> Z -> outcome (list Z))
  : Buffer -> Z -> M Buffer :=
  fun buf len =>
    written <- native (c len) (fun h => reply h len) ;;
    ret (fill buf written).

Section Operations.

(** The operating system. *)
Variable os : Native.

(** The bound on the turns of each [getW] loop. *)
Variable attempts : nat.

(** [getTitleByHwnd], the one operation on which the two files differ. *)
Variable getTitleByHwnd : Z -> M jsstring.

(** [getW(func, splitZeros)] with [len] at its initial 256, as every
    caller in this section has it in both files. *)
Definition getW (func : Buffer -> Z -> M Buffer) (splitZeros : bool)
  : M (result_of splitZeros) :=
  getW_loop attempts func splitZeros 256.

Definition getAllWindowHwnds : M (list Z) :=
  native EnumWindows (enumWindows os).

Definition getActiveWindowHwnd : M Z :=
  native GetForegroundWindow (getForegroundWindow os).

Definition getIsVisibleByHwnd (hwnd : Z) : M bool :=
  native (IsWindowVisible hwnd) (fun h => isWindowVisible os h hwnd).

(** [ref.alloc(lpdwordPtr)] is a zeroed buffer of pointer size. *)
Definition getPidByHwnd (hwnd : Z) : M Z :=
  let pid := zeros 8 in
  written <- native (GetWindowThreadProcessId hwnd)
                    (fun h => getWindowThreadProcessId os h hwnd) ;;
  ret (readInt32LE (fill pid written)).

Definition getDriveMap : M DriveMap :=
  driveLetters <-
    getW (filling GetLogicalDriveStringsW (getLogicalDriveStringsW os)) true ;;
  promises <-
    mapM (fun dl =>
            start (device <-
                     getW (filling (QueryDosDeviceW (strArg (dl ++ lit ":")))
                                   (fun h => queryDosDeviceW os h
                                               (strArg (dl ++ lit ":"))))
                          false ;;
                   ret (dl, device)))
         (map (take 1) driveLetters) ;;
  result <- await (Promise_all promises) ;;
  ret (Object_fromEntries result).

(** The async function [getPathByPid] stores in [processMap[pid]]. *)
Definition lookupPath (pid : Z) (driveMap : option DriveMap)
  : M (option jsstring) :=
  driveMap <- match driveMap with
              | Some d => ret d
              | None => getDriveMap
              end ;;
  process <- native (OpenProcess 0x1000 false pid)
                    (fun h => openProcess os h 0x1000 false pid) ;;
  try_finally
    (rawPath <-
       getW (filling (GetProcessImageFileNameW process)
                     (fun h => getProcessImageFileNameW os h process))
            false ;;
     ret (rewritePath rawPath driveMap))
    (native (CloseHandle process) (fun h => closeHandle os h process) ;;;
     ret tt).

(** [getPathByPid(pid, driveMap, processMap)]: the promise it returns and
    the process map it used, a fresh one when none was passed. *)
Definition getPathByPid (pid : Z) (driveMap : option DriveMap)
           (processMap : option ProcessMap)
  : M (outcome (option jsstring) * ProcessMap) :=
  let processMap := default ∅ processMap in
  match processMap !! pid with
  | Some promise => ret (promise, processMap)
  | None =>
      promise <- start (lookupPath pid driveMap) ;;
      ret (promise, <[pid := promise]> processMap)
  end.

(** [values[member] = defs[member](values)] for one member.  The process
    map comes back as [defs.path] left it. *)
Definition startMember (window : Window) (driveMap : option DriveMap)
           (m : member) (values : Values) (processMap : option ProcessMap)
  : M (Values * option ProcessMap) :=
  match m with
  | Hwnd =>
      ret (mkValues (Some (hwnd window)) (v_title values) (v_pid values)
                    (v_path values) (v_visible values), processMap)
  | Title =>
      p <- start (getTitleByHwnd (hwnd window)) ;;
      ret (mkValues (v_hwnd values) (Some p) (v_pid values)
                    (v_path values) (v_visible values), processMap)
  | Pid =>
      p <- start (getPidByHwnd (hwnd window)) ;;
      ret (mkValues (v_hwnd values) (v_title values) (Some p)
                    (v_path values) (v_visible values), processMap)
  | Path =>
      (* values.pid ??= defs.pid() *)
      pidPromise <- match v_pid values with
                    | Some p => ret p
                    | None => start (getPidByHwnd (hwnd window))
                    end ;;
      (* const pid = await values.pid; return getPathByPid(pid, ...) *)
      r <- match pidPromise with
           | Fulfilled pid =>
               r <- getPathByPid pid driveMap processMap ;;
               ret (fst r, match processMap with
                           | Some _ => Some (snd r)
                           | None => None
                           end)
           | Rejected e => ret (Rejected e, processMap)
           end ;;
      ret (mkValues (v_hwnd values) (v_title values) (Some pidPromise)
                    (Some (fst r)) (v_visible values), snd r)
  | Visible =>
      p <- start (getIsVisibleByHwnd (hwnd window)) ;;
      ret (mkValues (v_hwnd values) (v_title values) (v_pid values)
                    (v_path values) (Some p), processMap)
  end.

(** The first loop of [fillWindowFields]. *)
Fixpoint startAll (window : Window) (fields : list member)
         (driveMap : option DriveMap) (members : list member)
         (values : Values) (processMap : option ProcessMap)
  : M (Values * option ProcessMap) :=
  match members with
  | [] => ret (values, processMap)
  | m :: rest =>
      if negb (includes fields m) || truthy window m
      then startAll window fields driveMap rest values processMap
      else
        r <- startMember window driveMap m values processMap ;;
        startAll window fields driveMap rest (fst r) (snd r)
  end.

(** [fillWindowFields(window, fields, driveMap, processMap)]: its promise,
    the window and the process map as it left them. *)
Definition fillWindowFields (window : Window) (fields : option (list member))
           (driveMap : option DriveMap) (processMap : option ProcessMap)
  : M (outcome unit * Window * option ProcessMap) :=
  let fields := default windowMembers fields in
  r <- startAll window fields driveMap windowMembers noValues processMap ;;
  let done := assignAll (fst r) windowMembers window in
  ret (fst done, snd done, snd r).

Definition getWindowByHwnd (hwnd : Z) (requireFields : option (list member))
           (driveMap : option DriveMap) (processMap : option ProcessMap)
  : M (outcome Window * option ProcessMap) :=
  let window := Window_new hwnd in
  r <- fillWindowFields window requireFields driveMap processMap ;;
  ret (match fst (fst r) with
       | Fulfilled _ => Fulfilled (snd (fst r))
       | Rejected e => Rejected e
       end, snd r).

Definition getActiveWindow (requireFields : option (list member))
           (driveMap : option DriveMap) (processMap : option ProcessMap)
  : M (outcome Window * option ProcessMap) :=
  r <- start getActiveWindowHwnd ;;
  match r with
  | Fulfilled hwnd => getWindowByHwnd hwnd requireFields driveMap processMap
  | Rejected e => ret (Rejected e, processMap)
  end.

(** [array.map(f)] where [f] is handed the shared process map. *)
Fixpoint mapShared {A B} (f : A -> option ProcessMap -> M (B * option ProcessMap))
         (l : list A) (processMap : option ProcessMap)
  : M (list B * option ProcessMap) :=
  match l with
  | [] => ret ([], processMap)
  | a :: l' =>
      r <- f a processMap ;;
      rs <- mapShared f l' (snd r) ;;
      ret (fst r :: fst rs, snd rs)
  end.

Definition getAllWindows (all : bool) (requireFields : option (list member))
  : M (list Window) :=
  let firstFields := if all then requireFields else Some [Title; Visible] in
  driveMap <- getDriveMap ;;
  let processMap : ProcessMap := ∅ in
  hwnds <- getAllWindowHwnds ;;
  promises <-
    mapShared (fun hwnd processMap =>
                 getWindowByHwnd hwnd firstFields (Some driveMap) processMap)
              hwnds (Some processMap) ;;
  windows <- await (Promise_all (fst promises)) ;;
  let filteredWindows :=
    if all then windows
    else List.filter (fun window => truthy window Visible && truthy window Title)
                windows in
  filled <-
    mapShared (fun window processMap =>
                 r <- fillWindowFields window requireFields (Some driveMap)
                                       processMap ;;
                 ret (fst r, snd r))
              filteredWindows (snd promises) ;;
  await (Promise_all (map (fun r => match fst r with
                                     | Fulfilled _ => Fulfilled (snd r)
                                     | Rejected e => Rejected e
                                     end) (fst filled))).

End Operations.

(* ===================================================================== *)
(** * The two module files *)
(* ===================================================================== *)

(** [index.mjs]. *)
Module Mjs.

(** [const getW = async (func, splitZeros = false) => { let len = 256 ... }]. *)
Definition getW (attempts : nat) (func : Buffer -> Z -> M Buffer)
           (splitZeros : bool) : M (result_of splitZeros) :=
  getW_loop attempts func splitZeros 256.

Definition getTitleByHwnd (os : Native) (attempts : nat) (hwnd : Z)
  : M jsstring :=
  getW attempts
       (filling (GetWindowTextW hwnd) (fun h => getWindowTextW os h hwnd))
       false.

Definition fillWindowFields (os : Native) (attempts : nat) :=
  fillWindowFields os attempts (getTitleByHwnd os attempts).
Definition getWindowByHwnd (os : Native) (attempts : nat) :=
  getWindowByHwnd os attempts (getTitleByHwnd os attempts).
Definition getActiveWindow (os : Native) (attempts : nat) :=
  getActiveWindow os attempts (getTitleByHwnd os attempts).
Definition getAllWindows (os : Native) (attempts : nat) :=
  getAllWindows os attempts (getTitleByHwnd os attempts).

End Mjs.

(** [index.cjs]. *)
Module Cjs.

(** [const getW = async (func, splitZeros = false, len = 256) => ...]. *)
Definition getW (attempts : nat) (func : Buffer -> Z -> M Buffer)
           (splitZeros : bool) (len : option Z) : M (result_of splitZeros) :=
  getW_loop attempts func splitZeros (default 256 len).

Definition getTitleByHwnd (os : Native) (attempts : nat) (hwnd : Z)
  : M jsstring :=
  getW attempts
       (filling (GetWindowTextW hwnd) (fun h => getWindowTextW os h hwnd))
       false (Some 25565).

Definition fillWindowFields (os : Native) (attempts : nat) :=
  fillWindowFields os attempts (getTitleByHwnd os attempts).
Definition getWindowByHwnd (os : Native) (attempts : nat) :=
  getWindowByHwnd os attempts (getTitleByHwnd os attempts).
Definition getActiveWindow (os : Native) (attempts : nat) :=
  getActiveWindow os attempts (getTitleByHwnd os attempts).
Definition getAllWindows (os : Native) (attempts : nat) :=
  getAllWindows os attempts (getTitleByHwnd os attempts).

End Cjs.

(* ===================================================================== *)
(** * Overlapping requests on one process map *)
(* ===================================================================== *)

(** [getPathByPid] as the event loop runs it.  The async function stored in
    [processMap[pid]] is cut at its [await]s: a lookup is in one of the
    phases below, and it moves when the promise it awaits settles.  Requests
    and settlements of different lookups arrive in any order.

    [getDriveMap] is awaited as one promise here; the calls it issues are
    those of [getDriveMap] above and are not recorded. *)
Module EventLoop.

Inductive phase : Type :=
| AwaitDriveMap
    (* driveMap ??= await wwutil.getDriveMap() *)
| AwaitOpen (driveMap : DriveMap)
    (* await kernel32.OpenProcess(0x1000, false, pid) *)
| AwaitRead (driveMap : DriveMap) (process : Z) (len : Z)
    (* in getW: await func(buf, len) *)
| AwaitClose (process : Z) (completion : outcome (option jsstring))
    (* in finally: await kernel32.CloseHandle(process) *)
| Settled (result : outcome (option jsstring)).


Record state : Type := mkState {
  (** the shared [processMap] object *)
  processMap : gmap Z phase;
  (** the native calls issued so far, each with the pid of its lookup *)
  issued : list (Z * Call)
}.

Definition initial : state := mkState ∅ [].

Inductive event : Type :=
| Request (pid : Z) (driveMap : option DriveMap)
    (* a call getPathByPid(pid, driveMap, processMap) *)
| DriveMapSettled (pid : Z) (r : outcome DriveMap)
| OpenSettled (pid : Z) (r : outcome Z)
| ReadSettled (pid : Z) (r : outcome (list Z))
| CloseSettled (pid : Z) (r : outcome Z).

(** The lookup of [pid] enters [ph] and issues [calls]. *)
Definition enter (s : state) (pid : Z) (ph : phase) (calls : list Call)
  : state :=
  mkState (<[pid := ph]> (processMap s))
          (issued s ++ map (pair pid) calls).

(** The lookup of [pid] once a drive map is at hand: [OpenProcess] is
    called. *)
Definition open (s : state) (pid : Z) (driveMap : DriveMap) : state :=
  enter s pid (AwaitOpen driveMap) [OpenProcess 0x1000 false pid].

(** Leaving the [try] block with [completion]: the [finally] block calls
    [CloseHandle]. *)
Definition close (s : state) (pid process : Z)
           (completion : outcome (option jsstring)) : state :=
  enter s pid (AwaitClose process completion) [CloseHandle process].

(** The rest of the [try] block of [getW], in single-string mode, once the
    call on a buffer of [len] bytes has settled with [r]: the string read
    from the buffer, or what was thrown, by the call or by the read. *)
Definition afterRead (len : Z) (r : outcome (list Z)) : outcome jsstring :=
  match r with
  | Rejected e => Rejected e
  | Fulfilled written =>
      match reinterpretUntilZeros (fill (zeros len) written) 0 with
      | Some run => Fulfilled (toString run)
      | None => Rejected boundsError
      end
  end.

(** One turn of the event loop; [None] when the event cannot happen in
    this state.  The first buffer of a read has 256 bytes, which
    [Buffer.alloc] accepts. *)
Definition step (s : state) (ev : event) : option state :=
  match ev with
  | Request pid driveMap =>
      match processMap s !! pid with
      | Some _ => Some s      (* processMap[pid] ??= ... keeps the entry *)
      | None =>
          match driveMap with
          | Some d => Some (open s pid d)
          | None => Some (enter s pid AwaitDriveMap [])
          end
      end
  | DriveMapSettled pid r =>
      match processMap s !! pid with
      | Some AwaitDriveMap =>
          match r with
          | Fulfilled d => Some (open s pid d)
          | Rejected e => Some (enter s pid (Settled (Rejected e)) [])
          end
      | _ => None
      end
  | OpenSettled pid r =>
      match processMap s !! pid with
      | Some (AwaitOpen d) =>
          match r with
          | Fulfilled process =>
              Some (enter s pid (AwaitRead d process 256)
                          [GetProcessImageFileNameW process 256])
          | Rejected e => Some (enter s pid (Settled (Rejected e)) [])
          end
      | _ => None
      end
  | ReadSettled pid r =>
      match processMap s !! pid with
      | Some (AwaitRead d process len) =>
          match afterRead len r with
          | Fulfilled rawPath =>
              Some (close s pid process (Fulfilled (rewritePath rawPath d)))
          | Rejected e =>
              (* catch (e) *)
              if negb (String.eqb (message e) outsideBounds)
              then Some (close s pid process (Rejected e))
              else
                (* len *= 2; the next turn allocates, which may throw *)
                if allocatable (len * 2)
                then Some (enter s pid (AwaitRead d process (len * 2))
                                 [GetProcessImageFileNameW process (len * 2)])
                else Some (close s pid process (Rejected sizeOutOfRange))
          end
      | _ => None
      end
  | CloseSettled pid r =>
      match processMap s !! pid with
      | Some (AwaitClose process completion) =>
          match r with
          | Fulfilled _ => Some (enter s pid (Settled completion) [])
          | Rejected e => Some (enter s pid (Settled (Rejected e)) [])
          end
      | _ => None
      end
  end.

Fixpoint run (evs : list event) (s : state) : option state :=
  match evs with
  | [] => Some s
  | ev :: evs' =>
      match step s ev with
      | Some s' => run evs' s'
      | None => None
      end
  end.

(** The calls issued by the lookup of [pid]. *)
Definition callsOf (pid : Z) (s : state) : list Call :=
  map snd (List.filter (fun c => fst c =? pid) (issued s)).

(** The reads of one [getW]: lengths 256, 512, ..., [256 * 2 ^ k]. *)
Definition reads (process : Z) (k : nat) : list Call :=
  map (fun i => GetProcessImageFileNameW process (256 * 2 ^ Z.of_nat i))
      (seq 0 (S k)).



End EventLoop.

(* ===================================================================== *)
(** * Vocabulary of the statements *)
(* ===================================================================== *)

(** A multi-string as the claim describes it: each string followed by a
    null unit, then one more null unit (the empty run). *)
Definition multiString (strings : list jsstring) : Buffer :=
  ucs2 (concat (map (fun s => s ++ [0]) strings) ++ [0]).



(** [attempts] turns are enough for a loop started at [len]: the length of
    the last of them is one that [Buffer.alloc] refuses. *)
Definition suffice (attempts : nat) (len : Z) : Prop :=
  0 < len /\ MAX_LENGTH < len * 2 ^ (Z.of_nat attempts - 1).

(* ===================================================================== *)
(** * A desktop to run the model on *)
(* ===================================================================== *)

Module Desktop.

Definition denied : Error := mkError "Error" "access denied".

Definition volume1 : jsstring := lit "\Device\HarddiskVolume1".

(** A path of 167 units below the root of the volume. *)
Definition below : jsstring :=
  lit "\Program Files\" ++ repeat 97 140 ++ lit "\bin\app.exe".

Definition appRaw : jsstring := volume1 ++ below.
Definition appPath : jsstring := lit "C:" ++ below.

(** Three windows: 10 is visible and titled, 11 is visible with an empty
    title, 12 is hidden.  10 and 11 belong to process 7, 12 to process 8.
    One drive, [C:].  The image path of every process has 190 units: with
    its terminator it does not fit a buffer of 256 bytes and fits one of
    512. *)
Definition os : Native := {|
  enumWindows := fun _ => Fulfilled [10; 11; 12];
  getForegroundWindow := fun _ => Fulfilled 10;
  isWindowVisible := fun _ hwnd => Fulfilled (negb (hwnd =? 12));
  getWindowTextW := fun _ hwnd _ =>
    Fulfilled (if hwnd =? 11 then []
               else if hwnd =? 12 then ucs2 (lit "Tray" ++ [0])
               else ucs2 (lit "Editor" ++ [0]));
  getWindowThreadProcessId := fun _ hwnd =>
    Fulfilled (if hwnd =? 12 then [8; 0; 0; 0] else [7; 0; 0; 0]);
  openProcess := fun _ _ _ pid => Fulfilled (100 + pid);
  closeHandle := fun _ _ => Fulfilled 1;
  getLogicalDriveStringsW := fun _ _ => Fulfilled (multiString [lit "C:\"]);
  queryDosDeviceW := fun _ _ _ => Fulfilled (ucs2 (volume1 ++ [0]));
  getProcessImageFileNameW := fun _ _ _ => Fulfilled (ucs2 (appRaw ++ [0]))
|}.

(** The same desktop with no logical drive. *)
Definition noDrives : Native := {|
  enumWindows := enumWindows os;
  getForegroundWindow := getForegroundWindow os;
  isWindowVisible := isWindowVisible os;
  getWindowTextW := getWindowTextW os;
  getWindowThreadProcessId := getWindowThreadProcessId os;
  openProcess := openProcess os;
  closeHandle := closeHandle os;
  getLogicalDriveStringsW := fun _ _ => Fulfilled (multiString []);
  queryDosDeviceW := queryDosDeviceW os;
  getProcessImageFileNameW := getProcessImageFileNameW os
|}.

(** The same desktop where the image of every process is on a network
    share, under no drive letter. *)
Definition remote : Native := {|
  enumWindows := enumWindows os;
  getForegroundWindow := getForegroundWindow os;
  isWindowVisible := isWindowVisible os;
  getWindowTextW := getWindowTextW os;
  getWindowThreadProcessId := getWindowThreadProcessId os;
  openProcess := openProcess os;
  closeHandle := closeHandle os;
  getLogicalDriveStringsW := getLogicalDriveStringsW os;
  queryDosDeviceW := queryDosDeviceW os;
  getProcessImageFileNameW := fun _ _ _ =>
    Fulfilled (ucs2 (lit "\Device\Mup\server\share\app.exe" ++ [0]))
|}.

(** The same desktop where a window is hidden until it has been asked
    about once. *)
Definition appearing : Native := {|
  enumWindows := enumWindows os;
  getForegroundWindow := getForegroundWindow os;
  isWindowVisible := fun h hwnd =>
    Fulfilled (existsb (Call_eqb (IsWindowVisible hwnd)) h);
  getWindowTextW := getWindowTextW os;
  getWindowThreadProcessId := getWindowThreadProcessId os;
  openProcess := openProcess os;
  closeHandle := closeHandle os;
  getLogicalDriveStringsW := getLogicalDriveStringsW os;
  queryDosDeviceW := queryDosDeviceW os;
  getProcessImageFileNameW := getProcessImageFileNameW os
|}.

(** The same desktop where window 10 has a title of 200 units. *)
Definition longTitle : Native := {|
  enumWindows := enumWindows os;
  getForegroundWindow := getForegroundWindow os;
  isWindowVisible := isWindowVisible os;
  getWindowTextW := fun _ _ _ => Fulfilled (ucs2 (repeat 120 200 ++ [0]));
  getWindowThreadProcessId := getWindowThreadProcessId os;
  openProcess := openProcess os;
  closeHandle := closeHandle os;
  getLogicalDriveStringsW := getLogicalDriveStringsW os;
  queryDosDeviceW := queryDosDeviceW os;
  getProcessImageFileNameW := getProcessImageFileNameW os
|}.



End Desktop.

(** The call a computation issues first from history [h]. *)
Definition firstCall {A} (m : M A) (h : history) : option Call :=
  nth_error (snd (m h)) (length h).

(** [m] adds calls to the history, all of them in [Q]. *)
Definition emits {A} (Q : Call -> Prop) (m : M A) : Prop :=
  forall h, exists t, snd (m h) = h ++ t /\ Forall Q t.

(** The read of the image path in the [try] block of [getPathByPid]. *)
Definition readImagePath (os : Native) (attempts : nat) (process : Z)
  : M jsstring :=
  getW attempts
       (filling (GetProcessImageFileNameW process)
                (fun h => getProcessImageFileNameW os h process))
       false.

(** [driveMap ??= await wwutil.getDriveMap()]. *)
Definition resolveDriveMap (os : Native) (attempts : nat)
           (driveMap : option DriveMap) : M DriveMap :=
  match driveMap with
  | Some d => ret d
  | None => getDriveMap os attempts
  end.

Definition isRead (process : Z) (c : Call) : Prop :=
  exists len, c = GetProcessImageFileNameW process len.

(** How many times [CloseHandle(process)] occurs among [calls]. *)
Definition closes (process : Z) (calls : list Call) : nat :=
  length (List.filter (Call_eqb (CloseHandle process)) calls).

(** How many times [OpenProcess] is called on [pid] among [calls]. *)
Definition opens (pid : Z) (calls : list Call) : nat :=
  length (List.filter (fun c => match c with
                                | OpenProcess _ _ p => p =? pid
                                | _ => false
                                end) calls).

(** A call of the drive map resolver. *)
Definition isDriveCall (c : Call) : bool :=
  match c with
  | GetLogicalDriveStringsW _ | QueryDosDeviceW _ _ => true
  | _ => false
  end.

(** A JavaScript value of a window member. *)
Inductive value : Type :=
| Undefined
| Number (n : Z)
| Text (s : jsstring)
| Boolean (b : bool).

(** [window[member]]. *)
Definition get (window : Window) (m : member) : value :=
  match m with
  | Hwnd => Number (hwnd window)
  | Title => match title window with Some s => Text s | None => Undefined end
  | Pid => match pid window with Some n => Number n | None => Undefined end
  | Path => match path window with Some s => Text s | None => Undefined end
  | Visible => match visible window with Some b => Boolean b | None => Undefined end
  end.

(** The native calls by which a member is computed. *)
Definition computes (m : member) (c : Call) : bool :=
  match m, c with
  | Title, GetWindowTextW _ _ => true
  | Pid, GetWindowThreadProcessId _ => true
  | Visible, IsWindowVisible _ => true
  | Path, (OpenProcess _ _ _ | GetProcessImageFileNameW _ _ | CloseHandle _
          | GetLogicalDriveStringsW _ | QueryDosDeviceW _ _) => true
  | _, _ => false
  end.

(** [fillWindowFields] computes [m]: it is requested and falsy on the
    window. *)
Definition wanted (window : Window) (fields : list member) (m : member) : bool :=
  includes fields m && negb (truthy window m).

(** [values] has an entry for [m]. *)
Definition has (values : Values) (m : member) : bool :=
  match m with
  | Hwnd => bool_decide (is_Some (v_hwnd values))
  | Title => bool_decide (is_Some (v_title values))
  | Pid => bool_decide (is_Some (v_pid values))
  | Path => bool_decide (is_Some (v_path values))
  | Visible => bool_decide (is_Some (v_visible values))
  end.

(** The filter of [getAllWindows]: [window.visible && window.title]. *)
Definition shown (window : Window) : bool :=
  truthy window Visible && truthy window Title.

(** The entry for the handle, if any, is the handle of the window. *)
Definition hwndKept (window : Window) (values : Values) : Prop :=
  forall x, v_hwnd values = Some x -> x = hwnd window.

(** An entry for [path] comes with one for [pid]. *)
Definition pidWithPath (values : Values) : Prop :=
  has values Path = true -> has values Pid = true.


(** The calls [defs[m]] may issue: those that compute [m], and for [path]
    those that compute [pid] too. *)
Definition memberCalls (m : member) (c : Call) : bool :=
  computes m c || (member_eqb m Path && computes Pid c).

(** [window.path] set implies [window.pid] set. *)
Definition pathHasPid (window : Window) : Prop :=
  is_Some (path window) -> is_Some (pid window).

Definition isOpenProcess (c : Call) : bool :=
  match c with OpenProcess _ _ _ => true | _ => false end.

(** A call that is neither part of the drive map resolver nor an
    [OpenProcess]. *)
Definition calm (c : Call) : bool := negb (isDriveCall c) && negb (isOpenProcess c).

(** The calls [calls] issued since the process map was created are those of
    a map in state [processMap]: no drive lookup, a process opened at most
    once, and only if it has an entry. *)
Definition cacheInv (processMap : ProcessMap) (calls : list Call) : Prop :=
  Forall (fun c => isDriveCall c = false) calls
  /\ forall pid,
      (processMap !! pid = None -> opens pid calls = 0%nat)
      /\ (opens pid calls <= 1)%nat.

(** A computation handed the process map [processMap] returns a process
    map, and its calls keep [cacheInv]. *)
Definition threads {A} (m : M (A * option ProcessMap)) (processMap : ProcessMap)
  : Prop :=
  forall h a processMap' h',
    m h = (Val (a, processMap'), h') ->
    exists processMap1 t,
      processMap' = Some processMap1 /\ h' = h ++ t
      /\ forall calls, cacheInv processMap calls -> cacheInv processMap1 (calls ++ t).

(** A record of the second pass against the record it was before: same
    handle, and every member that was truthy, other than [pid], kept. *)
Definition keptFrom (before after : Window) : Prop :=
  hwnd after = hwnd before
  /\ forall m, truthy before m = true -> m <> Pid -> get after m = get before m.


(** A desktop of the event loop: the drive map of [Desktop.os]. *)
Definition driveC : DriveMap := [(lit "C", Desktop.volume1)].

(** The lookup of process 7 right after its first request, and after its
    handle came back and a first read was too small. *)
Definition requested7 : EventLoop.state := EventLoop.open EventLoop.initial 7 driveC.


(** The members requested in [fields], other than [path], are set on the
    record.  ([path] stays undefined when no drive matches.) *)
Definition resolved (fields : option (list member)) (window : Window) : Prop :=
  forall m, includes (default windowMembers fields) m = true -> m <> Path ->
            get window m <> Undefined.

(** The settlements the reads of a lookup receive when each call settles
    before the next is issued: [h] is the history before the read at
    [len]. *)
Fixpoint readSettlements (os : Native) (attempts : nat) (pid process len : Z)
         (h : history) : list EventLoop.event :=
  match attempts with
  | O => []
  | S attempts' =>
      let r := getProcessImageFileNameW os h process len in
      EventLoop.ReadSettled pid r ::
        match EventLoop.afterRead len r with
        | Rejected e =>
            if String.eqb (message e) outsideBounds && allocatable (len * 2)
            then readSettlements os attempts' pid process (len * 2)
                                 (h ++ [GetProcessImageFileNameW process len])
            else []
        | Fulfilled _ => []
        end
  end.

(** The settlements of a whole lookup under that schedule, from history
    [h]. *)
Definition settlements (os : Native) (attempts : nat) (pid : Z) (h : history)
  : list EventLoop.event :=
  let r := openProcess os h 0x1000 false pid in
  EventLoop.OpenSettled pid r ::
    match r with
    | Rejected _ => []
    | Fulfilled process =>
        let h1 := h ++ [OpenProcess 0x1000 false pid] in
        readSettlements os attempts pid process 256 h1
        ++ [EventLoop.CloseSettled pid
              (closeHandle os (snd (readImagePath os attempts process h1)) process)]
    end.

(** A JavaScript completion as the settlement of a promise. *)
Definition settled {A} (r : Res A) : option (outcome A) :=
  match r with
  | Val a => Some (Fulfilled a)
  | Exn e => Some (Rejected e)
  | Stop _ => None
  end.

(** A string of non-null 16-bit units. *)
Definition wideString (s : jsstring) : Prop := Forall (fun u => 0 < u < 65536) s.

(** The calls [c len], [c (len * 2)], ..., [n] of them. *)
Definition doublings (c : Z -> Call) (len : Z) (n : nat) : list Call :=
  map (fun i => c (len * 2 ^ Z.of_nat i)) (seq 0 n).

(** The four little-endian bytes of a DWORD. *)
Definition le32 (d : Z) : list Z :=
  [d mod 256; (d / 256) mod 256; (d / 65536) mod 256; (d / 16777216) mod 256].

(** The desktop [Desktop.os] where the owner of every window is process
    4294967295. *)
Definition highPid : Native :=
  mkNative (enumWindows Desktop.os) (getForegroundWindow Desktop.os)
           (isWindowVisible Desktop.os) (getWindowTextW Desktop.os)
           (fun _ _ => Fulfilled (le32 4294967295))
           (openProcess Desktop.os) (closeHandle Desktop.os)
           (getLogicalDriveStringsW Desktop.os) (queryDosDeviceW Desktop.os)
           (getProcessImageFileNameW Desktop.os).

(** The read of the drive strings at the start of [getDriveMap]. *)
Definition readDriveStrings (os : Native) (attempts : nat) : M (list jsstring) :=
  getW attempts (filling GetLogicalDriveStringsW (getLogicalDriveStringsW os)) true.

(** The query [getDriveMap] starts for one drive letter. *)
Definition queryDevice (os : Native) (attempts : nat) (dl : jsstring)
  : M (jsstring * jsstring) :=
  (device <- getW attempts
               (filling (QueryDosDeviceW (strArg (dl ++ lit ":")))
                        (fun h => queryDosDeviceW os h (strArg (dl ++ lit ":"))))
               false ;;
   ret (dl, device))%js.

(** An [OpenProcess] call asks for query-limited access to [pid], without
    handle inheritance. *)
Definition queryOnly (pid : Z) (c : Call) : Prop :=
  forall access inherit p,
    c = OpenProcess access inherit p -> access = 0x1000 /\ inherit = false /\ p = pid.

(** The process an event of the event loop is about. *)
Definition eventPid (ev : EventLoop.event) : Z :=
  match ev with
  | EventLoop.Request pid _ | EventLoop.DriveMapSettled pid _
  | EventLoop.OpenSettled pid _ | EventLoop.ReadSettled pid _
  | EventLoop.CloseSettled pid _ => pid
  end.

(** The desktop [Desktop.os] where reading a window's text is refused. *)
Definition noTitles : Native :=
  mkNative (enumWindows Desktop.os) (getForegroundWindow Desktop.os)
           (isWindowVisible Desktop.os) (fun _ _ _ => Rejected Desktop.denied)
           (getWindowThreadProcessId Desktop.os)
           (openProcess Desktop.os) (closeHandle Desktop.os)
           (getLogicalDriveStringsW Desktop.os) (queryDosDeviceW Desktop.os)
           (getProcessImageFileNameW Desktop.os).

(** [fields] asks for [m], as far as a new record is concerned: [pid] is
    computed for [path] too. *)
Definition asked (fields : option (list member)) (m : member) : bool :=
  includes (default windowMembers fields) m
  || (member_eqb m Pid && includes (default windowMembers fields) Path).

(** [rawPath] is what a read of the image path of some process gave. *)
Definition readAs (os : Native) (attempts : nat) (rawPath : jsstring) : Prop :=
  exists process h h', readImagePath os attempts process h = (Val rawPath, h').

(** [dm] is the drive map a lookup called with [driveMap] works with: the
    one passed, or one that [getDriveMap] returned. *)
Definition driveMapOf (os : Native) (attempts : nat) (driveMap : option DriveMap)
           (dm : DriveMap) : Prop :=
  driveMap = Some dm
  \/ (driveMap = None /\ exists h h', getDriveMap os attempts h = (Val dm, h')).

(** [w] is a record that [getWindowByHwnd(x, fields, dm, processMap)] of
    [index.mjs] was fulfilled with, on some process map and at some time. *)
Definition recordOf (os : Native) (attempts : nat) (fields : option (list member))
           (dm : DriveMap) (x : Z) (w : Window) : Prop :=
  exists pm h pm' h',
    Mjs.getWindowByHwnd os attempts x fields (Some dm) pm h
    = (Val (Fulfilled w, pm'), h').

(* ===================================================================== *)
(** * Properties of the reader *)
(* ===================================================================== *)

Section ReaderFacts.

Lemma ucs2_app s t : ucs2 (s ++ t) = ucs2 s ++ ucs2 t.
Proof. unfold ucs2. now rewrite flat_map_app. Qed.

Lemma ucs2_cons u s : ucs2 (u :: s) = u mod 256 :: (u / 256) mod 256 :: ucs2 s.
Proof. reflexivity. Qed.

Lemma length_ucs2 s : length (ucs2 s) = (2 * length s)%nat.
Proof. induction s as [|u s IH]; [reflexivity|]. rewrite ucs2_cons. simpl. lia. Qed.

Lemma toString_ucs2 s :
  Forall (fun u => 0 <= u < 65536) s -> toString (ucs2 s) = s.
Proof.
  induction 1 as [|u s Hu _ IH]; [reflexivity|].
  rewrite ucs2_cons. cbn [toString]. rewrite IH. f_equal.
  rewrite (Z.mod_small (u / 256)) by (split; [apply Z.div_pos | apply Z.div_lt_upper_bound]; lia).
  rewrite Z.add_comm, Z.mul_comm. symmetry. rewrite Z.mul_comm. apply Z.div_mod. lia.
Qed.

(** A run of non-null units is read back up to the null unit after it. *)
Lemma untilZeros_ucs2 s rest :
  Forall (fun u => 0 < u < 65536) s ->
  untilZeros (ucs2 s ++ 0 :: 0 :: rest) = Some (ucs2 s).
Proof.
  induction 1 as [|u s Hu _ IH]; [reflexivity|].
  rewrite ucs2_cons. cbn [app untilZeros]. rewrite IH.
  destruct ((u mod 256 =? 0) && ((u / 256) mod 256 =? 0)) eqn:E; [|reflexivity].
  exfalso. apply andb_true_iff in E as [E1 E2].
  apply Z.eqb_eq in E1, E2.
  rewrite (Z.mod_small (u / 256)) in E2
    by (split; [apply Z.div_pos | apply Z.div_lt_upper_bound]; lia).
  pose proof (Z.div_mod u 256 ltac:(lia)). lia.
Qed.






(** A turn at a length that [Buffer.alloc] accepts hands [func] a fresh
    buffer of that many zero bytes, and decodes what comes back. *)
Lemma attempt_allocated func splitZeros len h :
  allocatable len = true ->
  attempt func splitZeros len h
  = match func (zeros len) len h with
    | (Val buf, h') => (decode splitZeros buf, h')
    | (Exn e, h') => (Exn e, h')
    | (Stop r, h') => (Stop r, h')
    end.
Proof.
  intros Ha. unfold attempt, bind, Buffer_alloc. rewrite Ha.
  now destruct (func (zeros len) len h) as [[buf|e|r] h'].
Qed.

(** At any other length the allocation throws and nothing is called. *)
Lemma attempt_refused func splitZeros len h :
  allocatable len = false ->
  attempt func splitZeros len h = (Exn sizeOutOfRange, h).
Proof. intros Ha. unfold attempt, bind, Buffer_alloc. now rewrite Ha. Qed.

Lemma attempt_filling c reply splitZeros len h :
  allocatable len = true ->
  attempt (filling c reply) splitZeros len h
  = (match reply h len with
     | Fulfilled written => decode splitZeros (fill (zeros len) written)
     | Rejected e => Exn e
     end, h ++ [c len]).
Proof.
  intros Ha. rewrite attempt_allocated by exact Ha.
  unfold filling, bind, native, ret. now destruct (reply h len).
Qed.

(** One turn of the loop. *)
Lemma getW_loop_turn func splitZeros attempts len h :
  getW_loop (S attempts) func splitZeros len h
  = match attempt func splitZeros len h with
    | (Exn e, h') =>
        if String.eqb (message e) outsideBounds
        then getW_loop attempts func splitZeros (len * 2) h'
        else (Exn e, h')
    | r => r
    end.
Proof.
  cbn [getW_loop]. unfold try_catch.
  destruct (attempt func splitZeros len h) as [[v|e|r] h']; try reflexivity.
  now destruct (String.eqb (message e) outsideBounds).
Qed.




Lemma untilZeros_length mem run : untilZeros mem = Some run -> (2 <= length mem)%nat.
Proof. destruct mem as [|lo [|hi rest]]; [discriminate .. | simpl; lia]. Qed.

(** The turns granted to the inner loop are enough: it ends by reading the
    empty run or by a throw, never by running out of turns. *)
Lemma splitLoop_turns_suffice turns buf :
  forall offset results r,
    (length buf - offset < turns)%nat ->
    splitLoop turns buf offset results <> Stop r.
Proof.
  induction turns as [|turns IH]; intros offset results r Hturns; [lia|].
  cbn [splitLoop]. unfold reinterpretUntilZeros.
  destruct (untilZeros (drop offset buf)) as [run|] eqn:Hrun; [|discriminate].
  apply untilZeros_length in Hrun. rewrite length_drop in Hrun.
  destruct (nonEmpty (toString run)); [|discriminate].
  apply IH. lia.
Qed.


Lemma decode_ends splitZeros buf r : decode splitZeros buf <> Stop r.
Proof.
  destruct splitZeros; unfold decode.
  - pose proof (splitLoop_turns_suffice (S (length buf)) buf 0 [] r ltac:(lia)).
    destruct (splitLoop _ _ _ _) as [?|?|[]]; destruct r; congruence.
  - destruct (reinterpretUntilZeros buf 0); discriminate.
Qed.

(** In single-string mode the decoding throws exactly when the buffer holds
    no terminator. *)
Lemma decode_single buf :
  decode false buf
  = match reinterpretUntilZeros buf 0 with
    | Some run => Val (toString run)
    | None => Exn boundsError
    end.
Proof. reflexivity. Qed.

(** A loop with turns enough ends in JavaScript, by a value or a throw,
    when the supplied call does. *)
Lemma getW_loop_ends func splitZeros :
  (forall buf len h r, fst (func buf len h) <> Stop r) ->
  forall attempts len h r,
    suffice attempts len ->
    fst (getW_loop attempts func splitZeros len h) <> Stop r.
Proof.
  intros Hfunc. induction attempts as [|attempts IH]; intros len h r [Hpos Hmax].
  - exfalso. change (Z.of_nat 0 - 1) with (-1) in Hmax.
    rewrite Z.pow_neg_r, Z.mul_0_r in Hmax by lia. unfold MAX_LENGTH in Hmax. lia.
  - rewrite getW_loop_turn.
    destruct (allocatable len) eqn:Ha.
    + rewrite attempt_allocated by exact Ha.
      pose proof (Hfunc (zeros len) len h) as Hf.
      destruct (func (zeros len) len h) as [[buf|e|r0] h']; cbn [fst] in Hf.
      * pose proof (decode_ends splitZeros buf) as Hd.
        assert (Hnext : suffice attempts (len * 2)).
        { unfold allocatable in Ha. apply andb_true_iff in Ha as [_ Ha].
          apply Z.leb_le in Ha. split; [lia|].
          destruct attempts as [|attempts].
          - change (Z.of_nat 1 - 1) with 0 in Hmax. rewrite Z.mul_1_r in Hmax. lia.
          - replace (Z.of_nat (S (S attempts)) - 1) with (Z.succ (Z.of_nat (S attempts) - 1))
              in Hmax by lia.
            rewrite Z.pow_succ_r in Hmax by lia. lia. }
        destruct (decode splitZeros buf) as [v|e|r0]; cbn [fst]; try discriminate;
          [|now destruct (Hd r0)].
        destruct (String.eqb (message e) outsideBounds); [|discriminate].
        apply IH. exact Hnext.
      * destruct (String.eqb (message e) outsideBounds); [|discriminate].
        apply IH. unfold allocatable in Ha. apply andb_true_iff in Ha as [_ Ha].
        apply Z.leb_le in Ha. split; [lia|].
        destruct attempts as [|attempts].
        -- change (Z.of_nat 1 - 1) with 0 in Hmax. rewrite Z.mul_1_r in Hmax. lia.
        -- replace (Z.of_nat (S (S attempts)) - 1) with (Z.succ (Z.of_nat (S attempts) - 1))
             in Hmax by lia.
           rewrite Z.pow_succ_r in Hmax by lia. lia.
      * now destruct (Hf r0).
    + rewrite attempt_refused by exact Ha. discriminate.
Qed.

Lemma filling_ends c reply buf len h r : fst (filling c reply buf len h) <> Stop r.
Proof. unfold filling, bind, native, ret. now destruct (reply h len). Qed.

End ReaderFacts.

(** ** Which calls a computation issues *)

Section Emits.

Context {Q : Call -> Prop}.

Lemma emits_ret {A} (a : A) : emits Q (ret a).
Proof. intros h. exists []. now rewrite app_nil_r. Qed.

Lemma emits_throw {A} e : emits Q (@throw A e).
Proof. intros h. exists []. now rewrite app_nil_r. Qed.

Lemma emits_stop {A} r : emits Q (@stop A r).
Proof. intros h. exists []. now rewrite app_nil_r. Qed.

Lemma emits_pure {A} (r : Res A) : emits Q (fun h => (r, h)).
Proof. intros h. exists []. now rewrite app_nil_r. Qed.

Lemma emits_native {A} c (reply : history -> outcome A) :
  Q c -> emits Q (native c reply).
Proof. intros Hc h. exists [c]. split; [reflexivity | now constructor]. Qed.

Lemma emits_bind {A B} (m : M A) (k : A -> M B) :
  emits Q m -> (forall a, emits Q (k a)) -> emits Q (bind m k).
Proof.
  intros Hm Hk h. unfold bind.
  destruct (Hm h) as (t & Ht & HQ). destruct (m h) as [[a|e|r] h']; simpl in Ht; subst h'.
  - destruct (Hk a (h ++ t)) as (t' & Ht' & HQ').
    exists (t ++ t'). rewrite Ht', app_assoc. split; [reflexivity | now apply Forall_app].
  - now exists t.
  - now exists t.
Qed.

Lemma emits_try_catch {A} (m : M A) handler :
  emits Q m -> (forall e, emits Q (handler e)) -> emits Q (try_catch m handler).
Proof.
  intros Hm Hk h. unfold try_catch.
  destruct (Hm h) as (t & Ht & HQ). destruct (m h) as [[a|e|r] h']; simpl in Ht; subst h'.
  - now exists t.
  - destruct (Hk e (h ++ t)) as (t' & Ht' & HQ').
    exists (t ++ t'). rewrite Ht', app_assoc. split; [reflexivity | now apply Forall_app].
  - now exists t.
Qed.

Lemma emits_try_finally {A} (m : M A) cleanup :
  emits Q m -> emits Q cleanup -> emits Q (try_finally m cleanup).
Proof.
  intros Hm Hc h. unfold try_finally.
  destruct (Hm h) as (t & Ht & HQ). destruct (m h) as [[a|e|r] h']; simpl in Ht; subst h'.
  1,2: destruct (Hc (h ++ t)) as (t' & Ht' & HQ');
       destruct (cleanup (h ++ t)) as [[?|?|?] h'']; simpl in Ht'; subst h'';
       exists (t ++ t'); rewrite app_assoc; (split; [reflexivity | now apply Forall_app]).
  now exists t.
Qed.

Lemma emits_start {A} (m : M A) : emits Q m -> emits Q (start m).
Proof.
  intros Hm h. unfold start. destruct (Hm h) as (t & Ht & HQ).
  destruct (m h) as [[a|e|r] h']; now exists t.
Qed.

Lemma emits_await {A} (p : outcome A) : emits Q (await p).
Proof. destruct p; [apply emits_ret | apply emits_throw]. Qed.

Lemma emits_filling c reply buf len :
  (forall len, Q (c len)) -> emits Q (filling c reply buf len).
Proof.
  intros Hc. apply emits_bind; [now apply emits_native | intros; apply emits_ret].
Qed.

Lemma emits_getW_loop func splitZeros :
  (forall buf len, emits Q (func buf len)) ->
  forall attempts len, emits Q (getW_loop attempts func splitZeros len).
Proof.
  intros Hf. induction attempts as [|attempts IH]; intros len; cbn [getW_loop].
  - apply emits_stop.
  - apply emits_try_catch.
    + apply emits_bind; [apply emits_pure | intros buf].
      apply emits_bind; [apply Hf | intros; apply emits_pure].
    + intros e. destruct (negb _); [apply emits_throw | apply IH].
Qed.

Lemma emits_mapM {A B} (f : A -> M B) l :
  (forall a, emits Q (f a)) -> emits Q (mapM f l).
Proof.
  intros Hf. induction l as [|a l IH]; cbn [mapM]; [apply emits_ret|].
  apply emits_bind; [apply Hf | intros b].
  apply emits_bind; [apply IH | intros; apply emits_ret].
Qed.

End Emits.

Lemma emits_weaken {A} (Q Q' : Call -> Prop) (m : M A) :
  (forall c, Q c -> Q' c) -> emits Q m -> emits Q' m.
Proof.
  intros HQ Hm h. destruct (Hm h) as (t & Ht & Hall).
  exists t. split; [exact Ht | eapply Forall_impl; eauto].
Qed.

(** A reader on a filling call issues that call first, with the length the
    loop was started at. *)
Lemma firstCall_getW_loop c reply splitZeros attempts len h :
  allocatable len = true ->
  firstCall (getW_loop (S attempts) (filling c reply) splitZeros len) h
  = Some (c len).
Proof.
  intros Ha. unfold firstCall. rewrite getW_loop_turn, attempt_filling by exact Ha.
  assert (Hnext : forall e,
             nth_error (snd (if String.eqb (message e) outsideBounds
                             then getW_loop attempts (filling c reply) splitZeros
                                            (len * 2) (h ++ [c len])
                             else (Exn e, h ++ [c len]))) (length h)
             = Some (c len)).
  { intros e. destruct (String.eqb (message e) outsideBounds).
    - destruct (emits_getW_loop (Q := fun _ => True) (filling c reply) splitZeros
                  (fun buf len => emits_filling c reply buf len (fun _ => I))
                  attempts (len * 2) (h ++ [c len])) as (t & -> & _).
      now rewrite <- app_assoc, nth_error_app2, Nat.sub_diag by lia.
    - cbn [snd]. now rewrite nth_error_app2, Nat.sub_diag by lia. }
  destruct (reply h len) as [written|e]; [|apply Hnext].
  destruct (decode splitZeros (fill (zeros len) written)) as [v|e|r]; [| apply Hnext |];
    cbn [snd]; now rewrite nth_error_app2, Nat.sub_diag by lia.
Qed.

(** ** The claims on the reader *)







(** ** The claims on [getTitleByHwnd] *)

(** C8 (the code departs from it).  The title is to be read from an initial
    buffer larger than the default of 256.  [index.cjs] starts the read at
    25565; [index.mjs] starts it at the default 256, for every window. *)
Theorem getTitleByHwnd_initial_length os attempts hwnd h :
  firstCall (Cjs.getTitleByHwnd os (S attempts) hwnd) h
  = Some (GetWindowTextW hwnd 25565)
  /\ firstCall (Mjs.getTitleByHwnd os (S attempts) hwnd) h
     = Some (GetWindowTextW hwnd 256).
Proof.
  split; [unfold Cjs.getTitleByHwnd, Cjs.getW | unfold Mjs.getTitleByHwnd, Mjs.getW].
  - exact (firstCall_getW_loop (GetWindowTextW hwnd)
             (fun h => getWindowTextW os h hwnd) false attempts 25565 h eq_refl).
  - exact (firstCall_getW_loop (GetWindowTextW hwnd)
             (fun h => getWindowTextW os h hwnd) false attempts 256 h eq_refl).
Qed.

(** C9 (the code departs from it).  The two files are to behave alike.  On
    every system and for every window their [getTitleByHwnd] issue
    different calls; on a desktop with a title of 200 units [index.cjs]
    returns the title from its first buffer and [index.mjs] only from its
    second, after a first read that did not fit. *)
Theorem files_differ_on_getTitleByHwnd :
  (forall os attempts hwnd h,
      snd (Mjs.getTitleByHwnd os (S attempts) hwnd h)
      <> snd (Cjs.getTitleByHwnd os (S attempts) hwnd h))
  /\ Cjs.getTitleByHwnd Desktop.longTitle 1 10 []
     = (Val (repeat 120 200), [GetWindowTextW 10 25565])
  /\ Mjs.getTitleByHwnd Desktop.longTitle 2 10 []
     = (Val (repeat 120 200), [GetWindowTextW 10 256; GetWindowTextW 10 512]).
Proof.
  split; [|split; vm_compute; reflexivity].
  intros os attempts hwnd h Heq.
  pose proof (firstCall_getW_loop (GetWindowTextW hwnd)
                (fun h => getWindowTextW os h hwnd) false attempts 256 h eq_refl) as Hm.
  pose proof (firstCall_getW_loop (GetWindowTextW hwnd)
                (fun h => getWindowTextW os h hwnd) false attempts 25565 h eq_refl) as Hc.
  unfold firstCall in Hm, Hc.
  change (snd (getW_loop (S attempts) (filling (GetWindowTextW hwnd)
                 (fun h => getWindowTextW os h hwnd)) false 256 h)
          = snd (getW_loop (S attempts) (filling (GetWindowTextW hwnd)
                   (fun h => getWindowTextW os h hwnd)) false 25565 h)) in Heq.
  rewrite Heq in Hm. congruence.
Qed.

(** ** The lookup of a process path *)

Lemma emits_readImagePath os attempts process :
  emits (isRead process) (readImagePath os attempts process).
Proof.
  unfold readImagePath, getW.
  apply (emits_getW_loop (Q := isRead process) _ false).
  intros buf len. apply emits_filling.
  intros l. now exists l.
Qed.

Lemma closes_reads process reads :
  Forall (isRead process) reads -> closes process reads = 0%nat.
Proof.
  unfold closes. induction 1 as [|c reads [len ->] _ IH]; [reflexivity|].
  cbn [List.filter Call_eqb]. exact IH.
Qed.

Lemma closes_app process l l' :
  closes process (l ++ l') = (closes process l + closes process l')%nat.
Proof. unfold closes. now rewrite List.filter_app, length_app. Qed.

(** The read of the image path ends in JavaScript when it has turns
    enough. *)
Lemma readImagePath_ends os attempts process h r :
  suffice attempts 256 ->
  fst (readImagePath os attempts process h) <> Stop r.
Proof.
  intros Hs. unfold readImagePath, getW.
  apply (getW_loop_ends _ false (filling_ends _ _) attempts 256 h r Hs).
Qed.

(** C6.  Once [getPathByPid] has a drive map and [OpenProcess] has given a
    handle, the read of the image path ends, after as many retries as the
    answers of the system call for, with a raw path or with a failure; and
    whichever it is (a raw path that is rewritten, one that matches no
    drive, or a failure), the lookup calls [CloseHandle] on that handle
    exactly once, after the reads and as its last call; and when that call
    returns, a failure of the read is the failure of the lookup. *)
Theorem lookup_releases_handle_once os attempts pid driveMap h dm hd process :
  suffice attempts 256 ->
  resolveDriveMap os attempts driveMap h = (Val dm, hd) ->
  openProcess os hd 0x1000 false pid = Fulfilled process ->
  exists r hr reads,
    readImagePath os attempts process (hd ++ [OpenProcess 0x1000 false pid]) = (r, hr)
    /\ (forall a, r <> Stop a)
    /\ Forall (isRead process) reads
    /\ snd (lookupPath os attempts pid driveMap h)
       = hd ++ OpenProcess 0x1000 false pid :: reads ++ [CloseHandle process]
    /\ closes process (OpenProcess 0x1000 false pid :: reads ++ [CloseHandle process])
       = 1%nat
    /\ forall c, closeHandle os hr process = Fulfilled c ->
         fst (lookupPath os attempts pid driveMap h)
         = match r with
           | Val rawPath => Val (rewritePath rawPath dm)
           | Exn e => Exn e
           | Stop a => Stop a
           end.
Proof.
  intros Hfuel Hdm Hopen.
  destruct (readImagePath os attempts process (hd ++ [OpenProcess 0x1000 false pid]))
    as [r hr] eqn:Hread.
  assert (Hjs : forall a, r <> Stop a).
  { intros a. pose proof (readImagePath_ends os attempts process
                            (hd ++ [OpenProcess 0x1000 false pid]) a Hfuel) as H.
    now rewrite Hread in H. }
  destruct (emits_readImagePath os attempts process
              (hd ++ [OpenProcess 0x1000 false pid])) as (reads & Hhr & Hreads).
  rewrite Hread in Hhr. cbn [snd] in Hhr.
  exists r, hr, reads. split; [reflexivity | split; [exact Hjs | split; [exact Hreads|]]].
  assert (Hrun : lookupPath os attempts pid driveMap h
                 = match closeHandle os hr process with
                   | Fulfilled _ =>
                       (match r with
                        | Val rawPath => Val (rewritePath rawPath dm)
                        | Exn e => Exn e
                        | Stop a => Stop a
                        end, hr ++ [CloseHandle process])
                   | Rejected e => (Exn e, hr ++ [CloseHandle process])
                   end).
  { unfold lookupPath. fold (resolveDriveMap os attempts driveMap).
    unfold bind at 1. rewrite Hdm.
    unfold bind at 1, native at 1. rewrite Hopen.
    unfold try_finally, bind at 1.
    fold (readImagePath os attempts process). rewrite Hread.
    destruct r as [rawPath|e|a]; [| |now destruct (Hjs a)];
      unfold ret, bind, native; now destruct (closeHandle os hr process). }
  rewrite Hrun. split; [|split].
  - subst hr. destruct (closeHandle os _ process); cbn [snd];
      now rewrite <- !app_assoc.
  - change (OpenProcess 0x1000 false pid :: reads ++ [CloseHandle process])
      with ([OpenProcess 0x1000 false pid] ++ reads ++ [CloseHandle process]).
    rewrite !closes_app, (closes_reads process reads Hreads).
    unfold closes. cbn [List.filter Call_eqb]. now rewrite Z.eqb_refl.
  - intros c Hc. now rewrite Hc.
Qed.

Lemma lookup_releases_handle_once_witness :
  suffice 26 256
  /\ resolveDriveMap Desktop.os 26 (Some [(lit "C", Desktop.volume1)]) []
     = (Val [(lit "C", Desktop.volume1)], [])
  /\ openProcess Desktop.os [] 0x1000 false 7 = Fulfilled 107
  /\ lookupPath Desktop.os 26 7 (Some [(lit "C", Desktop.volume1)]) []
     = (Val (Some Desktop.appPath),
        [OpenProcess 0x1000 false 7; GetProcessImageFileNameW 107 256;
         GetProcessImageFileNameW 107 512; CloseHandle 107])
  /\ closes 107 (snd (lookupPath Desktop.os 26 7
                        (Some [(lit "C", Desktop.volume1)]) [])) = 1%nat.
Proof.
  assert (Hfuel : suffice 26 256) by (split; vm_compute; reflexivity).
  destruct (lookup_releases_handle_once Desktop.os 26 7
              (Some [(lit "C", Desktop.volume1)]) []
              [(lit "C", Desktop.volume1)] [] 107
              Hfuel ltac:(reflexivity) ltac:(reflexivity))
    as (r & hr & reads & _ & _ & _ & Htrace & Hcount & _).
  split; [exact Hfuel | split; [reflexivity | split; [reflexivity | split]]].
  - vm_compute. reflexivity.
  - rewrite Htrace. exact Hcount.
Defined.

(* ===================================================================== *)
(** * Properties of the field resolver *)
(* ===================================================================== *)

Lemma bind_Val {A B} (m : M A) (k : A -> M B) h b h' :
  bind m k h = (Val b, h') ->
  exists a h1, m h = (Val a, h1) /\ k a h1 = (Val b, h').
Proof.
  unfold bind. destruct (m h) as [[a|e|r] h1]; intros H; try discriminate.
  now exists a, h1.
Qed.

Lemma start_Val {A} (m : M A) h p h' :
  start m h = (Val p, h') ->
  m h = (match p with Fulfilled a => Val a | Rejected e => Exn e end, h').
Proof.
  unfold start. destruct (m h) as [[a|e|r] h1]; intros H; inversion H; reflexivity.
Qed.

Lemma ret_Val {A} (a b : A) h h' : ret a h = (Val b, h') -> a = b /\ h = h'.
Proof. unfold ret. intros H. now inversion H. Qed.

(** What an [M] hypothesis says, step by step. *)
Ltac invert_M :=
  repeat match goal with
  | H : bind _ _ _ = (Val _, _) |- _ =>
      let a := fresh "a" in let h := fresh "h" in
      let H1 := fresh "Hrun" in let H2 := fresh "Hrun" in
      apply bind_Val in H as (a & h & H1 & H2)
  | H : ret _ _ = (Val _, _) |- _ =>
      let E := fresh "E" in
      apply ret_Val in H as [E ?]; try (inversion E; clear E); subst
  | H : (_, _) = (_, _) |- _ => inversion H; clear H; subst
  end.

Section FieldFacts.

Variable os : Native.
Variable attempts : nat.
Variable getTitleByHwnd : Z -> M jsstring.

(** The supplied title reader only reads window text. *)
Hypothesis title_calls :
  forall hwnd, emits (fun c => computes Title c = true) (getTitleByHwnd hwnd).

Abbreviation startMember' := (startMember os attempts getTitleByHwnd).
Abbreviation startAll' := (startAll os attempts getTitleByHwnd).
Abbreviation fillWindowFields' := (fillWindowFields os attempts getTitleByHwnd).

Lemma startMember_has window driveMap m values processMap h values' processMap' h' :
  startMember' window driveMap m values processMap h = (Val (values', processMap'), h') ->
  (forall m', has values' m'
              = has values m' || member_eqb m' m
                || (member_eqb m Path && member_eqb m' Pid))
  /\ (hwndKept window values -> hwndKept window values')
  /\ (pidWithPath values -> pidWithPath values').
Proof.
  intros H. destruct m; cbn [startMember] in H; invert_M;
    (split; [intros m'; destruct m'; cbn [has v_hwnd v_title v_pid v_path v_visible member_eqb];
              rewrite ?orb_false_r, ?orb_true_r, ?andb_false_l, ?andb_true_l;
              try reflexivity;
              try (symmetry; apply bool_decide_eq_true; eauto)
            | split; unfold hwndKept, pidWithPath;
              cbn [has v_hwnd v_title v_pid v_path v_visible];
              try (intros Hk x Hx; inversion Hx; subst; auto; fail);
              try (intros; apply bool_decide_eq_true; eauto; fail);
              auto]).
Qed.

Lemma startAll_has window fields driveMap members :
  forall values processMap h values' processMap' h',
  startAll' window fields driveMap members values processMap h
  = (Val (values', processMap'), h') ->
  (forall m', has values' m'
              = has values m'
                || existsb (fun m => wanted window fields m
                                     && (member_eqb m' m
                                         || (member_eqb m Path && member_eqb m' Pid)))
                           members)
  /\ (hwndKept window values -> hwndKept window values')
  /\ (pidWithPath values -> pidWithPath values').
Proof.
  induction members as [|m members IH]; intros values processMap h values' processMap' h' H;
    cbn [startAll] in H.
  - invert_M. split; [intros; cbn [existsb]; now rewrite orb_false_r | auto].
  - assert (Hw : wanted window fields m
                 = negb (negb (includes fields m) || truthy window m))
      by (unfold wanted; destruct (includes fields m), (truthy window m); reflexivity).
    destruct (negb (includes fields m) || truthy window m) eqn:Eskip.
    + apply IH in H as (Hhas & Hk & Hp). split; [|auto].
      intros m'. rewrite Hhas. cbn [existsb]. now rewrite Hw.
    + invert_M. destruct a as [values1 processMap1]. cbn [fst snd] in *.
      apply startMember_has in Hrun as (Hhas1 & Hk1 & Hp1).
      apply IH in Hrun0 as (Hhas & Hk & Hp). split; [|auto].
      intros m'. rewrite Hhas, Hhas1. cbn [existsb]. rewrite Hw.
      cbn [negb andb]. now rewrite <- !orb_assoc.
Qed.

(** Nothing is started when every requested member is truthy. *)
Lemma startAll_nothing window fields driveMap members values processMap :
  (forall m, In m members -> wanted window fields m = false) ->
  startAll' window fields driveMap members values processMap = ret (values, processMap).
Proof.
  induction members as [|m members IH]; intros H; cbn [startAll]; [reflexivity|].
  pose proof (H m (or_introl eq_refl)) as Hm. unfold wanted in Hm.
  replace (negb (includes fields m) || truthy window m) with true
    by (destruct (includes fields m), (truthy window m); simpl in *; congruence).
  apply IH. intros m' Hm'. apply H. now right.
Qed.

Lemma assign_get values m window m' :
  has values m' = false \/ m <> m' ->
  m' <> Hwnd ->
  get (snd (assign values m window)) m' = get window m'.
Proof.
  intros H Hm'. destruct m, m'; try congruence;
    destruct values as [vh [[t|e]|] [[n|e']|] [[p|e'']|] [[b|e''']|]];
    try (destruct vh); cbn in *;
    try reflexivity;
    destruct H as [H|H]; try congruence;
    apply bool_decide_eq_false in H; exfalso; apply H; eauto.
Qed.

Lemma assign_hwnd values m window :
  hwndKept window values -> hwnd (snd (assign values m window)) = hwnd window.
Proof.
  intros Hk. destruct m;
    destruct values as [vh [[t|e]|] [[n|e']|] [[p|e'']|] [[b|e''']|]];
    try reflexivity; destruct vh as [x|]; try reflexivity; cbn;
    now apply (Hk x).
Qed.

Lemma assignAll_hwnd values members :
  forall window, hwndKept window values ->
  hwnd (snd (assignAll values members window)) = hwnd window.
Proof.
  induction members as [|m members IH]; intros window Hk; cbn [assignAll]; [reflexivity|].
  pose proof (assign_hwnd values m window Hk) as Hm.
  destruct (assign values m window) as [[[]|e] window1]; cbn [snd] in *; [|exact Hm].
  rewrite IH; [exact Hm|]. intros x Hx. rewrite Hm. now apply Hk.
Qed.

(** A member with no entry keeps its value. *)
Lemma assignAll_get values members m' :
  has values m' = false ->
  forall window, hwndKept window values ->
  get (snd (assignAll values members window)) m' = get window m'.
Proof.
  intros Hno window Hk. destruct (member_eqb m' Hwnd) eqn:Eh.
  - destruct m'; try discriminate. cbn [get]. now rewrite assignAll_hwnd.
  - assert (Hne : m' <> Hwnd) by (intros ->; discriminate). clear Eh.
    revert window Hk. induction members as [|m members IH]; intros window Hk;
      cbn [assignAll]; [reflexivity|].
    pose proof (assign_get values m window m' (or_introl Hno) Hne) as Hm.
    pose proof (assign_hwnd values m window Hk) as Hh.
    destruct (assign values m window) as [[[]|e] window1]; cbn [snd] in *; [|exact Hm].
    rewrite IH; [exact Hm|]. intros x Hx. rewrite Hh. now apply Hk.
Qed.

End FieldFacts.

Lemma truthy_defined window m : truthy window m = true -> get window m <> Undefined.
Proof.
  destruct window as [wh wt wp wpa wv].
  destruct m; cbn [truthy get hwnd title pid path visible]; try discriminate;
    repeat match goal with
           | |- context [match ?x with Some _ => _ | None => _ end] => destruct x
           end; discriminate.
Qed.

(** After a fulfilled second loop an entry other than [path]'s has been
    written as a value. *)
Lemma assignAll_assigned values window window' m :
  assignAll values windowMembers window = (Fulfilled tt, window') ->
  has values m = true -> m <> Path ->
  get window' m <> Undefined.
Proof.
  intros H Hhas Hm. destruct m; try congruence; [discriminate | | |];
    destruct values as [vh [[t|e]|] [[n|e1]|] [[p|e2]|] [[b|e3]|]];
    destruct vh; cbn in H, Hhas; try discriminate;
    inversion H; subst; discriminate.
Qed.

Lemma In_windowMembers m : In m windowMembers.
Proof. destruct m; cbn; tauto. Qed.

Section FieldCalls.

Variable os : Native.
Variable attempts : nat.
Variable getTitleByHwnd : Z -> M jsstring.

Hypothesis title_calls :
  forall hwnd, emits (fun c => computes Title c = true) (getTitleByHwnd hwnd).

Lemma emits_getPidByHwnd hwnd :
  emits (fun c => computes Pid c = true) (getPidByHwnd os hwnd).
Proof.
  apply emits_bind; [now apply emits_native | intros; apply emits_ret].
Qed.

Lemma emits_getIsVisibleByHwnd hwnd :
  emits (fun c => computes Visible c = true) (getIsVisibleByHwnd os hwnd).
Proof. now apply emits_native. Qed.

Lemma emits_getDriveMap :
  emits (fun c => isDriveCall c = true) (getDriveMap os attempts).
Proof.
  apply emits_bind.
  - apply (emits_getW_loop _ true). intros. now apply emits_filling.
  - intros driveLetters. apply emits_bind.
    + apply emits_mapM. intros dl. apply emits_start, emits_bind.
      * apply (emits_getW_loop _ false). intros. now apply emits_filling.
      * intros. apply emits_ret.
    + intros promises. apply emits_bind; [apply emits_await | intros; apply emits_ret].
Qed.

Lemma emits_lookupPath pid driveMap :
  emits (fun c => computes Path c = true) (lookupPath os attempts pid driveMap).
Proof.
  apply emits_bind.
  - destruct driveMap; [apply emits_ret|].
    eapply emits_weaken; [|apply emits_getDriveMap].
    intros c. now destruct c.
  - intros dm. apply emits_bind; [now apply emits_native|].
    intros process. apply emits_try_finally.
    + apply emits_bind; [|intros; apply emits_ret].
      apply (emits_getW_loop _ false). intros. now apply emits_filling.
    + apply emits_bind; [now apply emits_native | intros; apply emits_ret].
Qed.

Lemma emits_getPathByPid pid driveMap processMap :
  emits (fun c => computes Path c = true)
        (getPathByPid os attempts pid driveMap processMap).
Proof.
  unfold getPathByPid. destruct (default ∅ processMap !! pid); [apply emits_ret|].
  apply emits_bind; [apply emits_start, emits_lookupPath | intros; apply emits_ret].
Qed.

Lemma emits_startMember window driveMap m values processMap :
  emits (fun c => memberCalls m c = true)
        (startMember os attempts getTitleByHwnd window driveMap m values processMap).
Proof.
  destruct m; cbn [startMember].
  - apply emits_ret.
  - apply emits_bind; [|intros; apply emits_ret].
    apply emits_start. eapply emits_weaken; [|apply title_calls].
    intros c Hc. unfold memberCalls. now rewrite Hc.
  - apply emits_bind; [|intros; apply emits_ret].
    apply emits_start. eapply emits_weaken; [|apply emits_getPidByHwnd].
    intros c Hc. unfold memberCalls. now rewrite Hc.
  - apply emits_bind.
    + destruct (v_pid values); [apply emits_ret|].
      apply emits_start. eapply emits_weaken; [|apply emits_getPidByHwnd].
      intros c Hc. unfold memberCalls. cbn [member_eqb andb]. rewrite Hc.
      apply orb_true_r.
    + intros pidPromise. apply emits_bind; [|intros; apply emits_ret].
      destruct pidPromise as [n|e]; [|apply emits_ret].
      apply emits_bind; [|intros; apply emits_ret].
      eapply emits_weaken; [|apply emits_getPathByPid].
      intros c Hc. unfold memberCalls. now rewrite Hc.
  - apply emits_bind; [|intros; apply emits_ret].
    apply emits_start. eapply emits_weaken; [|apply emits_getIsVisibleByHwnd].
    intros c Hc. unfold memberCalls. now rewrite Hc.
Qed.

Lemma emits_startAll (Q : Call -> Prop) window fields driveMap members :
  (forall m, In m members -> wanted window fields m = true ->
             forall c, memberCalls m c = true -> Q c) ->
  forall values processMap,
  emits Q (startAll os attempts getTitleByHwnd window fields driveMap members
                    values processMap).
Proof.
  induction members as [|m members IH]; intros HQ values processMap; cbn [startAll].
  - apply emits_ret.
  - destruct (negb (includes fields m) || truthy window m) eqn:Eskip.
    + apply IH. intros m' Hm'. apply HQ. now right.
    + apply emits_bind.
      * eapply emits_weaken; [|apply emits_startMember].
        apply HQ; [now left|]. unfold wanted.
        apply orb_false_iff in Eskip as [E1 E2]. apply negb_false_iff in E1.
        now rewrite E1, E2.
      * intros r. apply IH. intros m' Hm'. apply HQ. now right.
Qed.

Lemma emits_fillWindowFields (Q : Call -> Prop) window fields driveMap processMap :
  (forall m, wanted window (default windowMembers fields) m = true ->
             forall c, memberCalls m c = true -> Q c) ->
  emits Q (fillWindowFields os attempts getTitleByHwnd window fields driveMap processMap).
Proof.
  intros HQ. apply emits_bind; [|intros; apply emits_ret].
  apply emits_startAll. intros m _. apply HQ.
Qed.

(** The calls of one member do not compute another, but for [path], whose
    calls compute [pid] too. *)
Lemma memberCalls_other m m' c :
  memberCalls m c = true -> m <> m' -> (m = Path -> m' <> Pid) ->
  computes m' c = false.
Proof.
  intros Hc Hne Hpath. destruct m, m'; try congruence;
    destruct c; try reflexivity; try discriminate; now destruct Hpath.
Qed.

(** What [fillWindowFields] leaves in [values] for a member that is truthy
    on the window. *)
Lemma truthy_not_started window fields driveMap processMap h values processMap' h' m :
  truthy window m = true ->
  (m = Pid -> wanted window fields Path = false) ->
  startAll os attempts getTitleByHwnd window fields driveMap windowMembers
           noValues processMap h = (Val (values, processMap'), h') ->
  has values m = false.
Proof.
  intros Ht Hp H. apply startAll_has in H as (Hhas & _ & _). rewrite Hhas.
  assert (Hw : wanted window fields m = false) by (unfold wanted; now rewrite Ht, andb_false_r).
  destruct m; cbn [windowMembers existsb member_eqb has noValues v_hwnd v_title
                     v_pid v_path v_visible];
    rewrite ?Hw, ?(Hp eq_refl);
    repeat match goal with
           | |- context [wanted ?a ?b ?c] => destruct (wanted a b c)
           end; reflexivity.
Qed.

Lemma startAll_hwndKept window fields driveMap processMap h values processMap' h' :
  startAll os attempts getTitleByHwnd window fields driveMap windowMembers
           noValues processMap h = (Val (values, processMap'), h') ->
  hwndKept window values /\ pidWithPath values.
Proof.
  intros H. apply startAll_has in H as (_ & Hk & Hp).
  split; [apply Hk | apply Hp]; [intros x Hx | intros Hx]; discriminate.
Qed.

(** A member that is truthy on the window is neither computed nor
    overwritten; for [pid], when [path] is not computed in the same call. *)
Lemma fillWindowFields_keeps window fields driveMap processMap m :
  truthy window m = true ->
  (m = Pid -> wanted window (default windowMembers fields) Path = false) ->
  emits (fun c => computes m c = false)
        (fillWindowFields os attempts getTitleByHwnd window fields driveMap processMap)
  /\ forall h r window' processMap' h',
      fillWindowFields os attempts getTitleByHwnd window fields driveMap processMap h
      = (Val (r, window', processMap'), h') ->
      get window' m = get window m.
Proof.
  intros Ht Hp. split.
  - apply emits_fillWindowFields. intros m0 Hm0 c Hc.
    apply (memberCalls_other m0 m c Hc).
    + intros ->. unfold wanted in Hm0. rewrite Ht, andb_false_r in Hm0. discriminate.
    + intros -> ->. rewrite (Hp eq_refl) in Hm0. discriminate.
  - intros h r window' processMap' h' H. unfold fillWindowFields in H. invert_M.
    destruct a as [values pm]. cbn [fst snd] in *.
    pose proof (startAll_hwndKept _ _ _ _ _ _ _ _ Hrun) as [Hk _].
    apply (truthy_not_started _ _ _ _ _ _ _ _ m Ht Hp) in Hrun.
    exact (assignAll_get values windowMembers m Hrun window Hk).
Qed.

(** With every requested member truthy the call does nothing. *)
Lemma fillWindowFields_nothing window fields driveMap processMap h :
  (forall m, includes (default windowMembers fields) m = true -> truthy window m = true) ->
  fillWindowFields os attempts getTitleByHwnd window fields driveMap processMap h
  = (Val (Fulfilled tt, window, processMap), h).
Proof.
  intros H. unfold fillWindowFields.
  rewrite startAll_nothing.
  - unfold bind, ret. cbn [fst snd]. now destruct window.
  - intros m _. unfold wanted.
    destruct (includes (default windowMembers fields) m) eqn:E; [|reflexivity].
    now rewrite (H m E).
Qed.

(** [path] set implies [pid] set, after the call as before it. *)
Lemma fillWindowFields_pathHasPid window fields driveMap processMap h r window' processMap' h' :
  includes (default windowMembers fields) Path = true ->
  pathHasPid window ->
  fillWindowFields os attempts getTitleByHwnd window fields driveMap processMap h
  = (Val (r, window', processMap'), h') ->
  pathHasPid window'
  /\ (truthy window Path = false -> r = Fulfilled tt -> is_Some (pid window')).
Proof.
  intros Hin Hinv H. unfold fillWindowFields in H. invert_M.
  destruct a as [values pm]. cbn [fst snd] in *.
  pose proof (startAll_hwndKept _ _ _ _ _ _ _ _ Hrun) as [_ Hpp].
  apply startAll_has in Hrun as (Hhas & _ & _).
  assert (Hpath : has values Path = wanted window (default windowMembers fields) Path).
  { rewrite Hhas. cbn [windowMembers existsb member_eqb has noValues v_path].
    repeat match goal with
           | |- context [wanted ?a ?b ?c] => destruct (wanted a b c)
           end; reflexivity. }
  unfold wanted in Hpath. rewrite Hin in Hpath. cbn [andb] in Hpath.
  unfold pidWithPath in Hpp. unfold pathHasPid in *.
  clear Hhas. revert Hinv Hpath Hpp. unfold truthy.
  destruct window as [wh wt wp wpa wv],
           values as [vh [[t|e]|] [[n|e']|] [[p|e'']|] [[b|e''']|]];
    destruct vh; cbn; intros Hinv Hpath Hpp;
    try (apply bool_decide_eq_true in Hpath);
    try (apply bool_decide_eq_false in Hpath);
    try (exfalso; apply Hpath; eauto; fail);
    try (specialize (Hpp ltac:(apply bool_decide_eq_true; eauto));
         apply bool_decide_eq_true in Hpp; destruct Hpp; discriminate);
    try (exfalso; discriminate (Hpp eq_refl));
    destruct wpa as [[|u s]|], wp; cbn in *; try discriminate;
    try (split; [intros; eauto | intros ? ?; try discriminate; eauto]);
    try (destruct (Hinv ltac:(eauto)); discriminate).
Qed.

End FieldCalls.

(** Both files read a title with [GetWindowTextW] only. *)
Lemma Mjs_title_calls os attempts hwnd :
  emits (fun c => computes Title c = true) (Mjs.getTitleByHwnd os attempts hwnd).
Proof.
  apply (emits_getW_loop _ false). intros. now apply emits_filling.
Qed.

Lemma Cjs_title_calls os attempts hwnd :
  emits (fun c => computes Title c = true) (Cjs.getTitleByHwnd os attempts hwnd).
Proof.
  apply (emits_getW_loop _ false). intros. now apply emits_filling.
Qed.

(** ** The claims on [fillWindowFields] *)

Lemma startsWith_spec needle haystack :
  startsWith needle haystack = true <-> exists rest, haystack = needle ++ rest.
Proof.
  revert haystack. induction needle as [|n needle IH]; intros haystack.
  - cbn. split; [intros _; now exists haystack | reflexivity].
  - destruct haystack as [|x haystack]; cbn [startsWith].
    + split; [discriminate | intros [rest H]; discriminate].
    + rewrite andb_true_iff, Z.eqb_eq, IH. split.
      * intros [-> [rest ->]]. now exists rest.
      * intros [rest H]. inversion H; subst. split; [reflexivity | now exists rest].
Qed.

Lemma startsWith_drop needle haystack :
  startsWith needle haystack = true ->
  haystack = needle ++ drop (length needle) haystack.
Proof.
  intros H. apply startsWith_spec in H as [rest ->]. now rewrite drop_app_length.
Qed.

(** A path the loop over the drive map gives comes from an entry whose
    device name starts the raw path. *)
Lemma rewritePath_found rawPath driveMap p :
  rewritePath rawPath driveMap = Some p ->
  exists driveLetter deviceName rest,
    In (driveLetter, deviceName) driveMap
    /\ rawPath = deviceName ++ rest
    /\ p = getSubstitution deviceName [] rest (driveLetter ++ lit ":") ++ rest.
Proof.
  induction driveMap as [|[driveLetter deviceName] driveMap IH]; cbn [rewritePath];
    [discriminate|].
  destruct (startsWith deviceName rawPath) eqn:Hstarts.
  - intros H. inversion H.
    exists driveLetter, deviceName, (drop (length deviceName) rawPath).
    split; [now left | split; [now apply startsWith_drop | reflexivity]].
  - intros H. destruct (IH H) as (dl & dn & rest & Hin & Hraw & Hp).
    exists dl, dn, rest. split; [now right | now split].
Qed.

Section PathFacts.

Variable os : Native.
Variable attempts : nat.
Variable getTitleByHwnd : Z -> M jsstring.

Lemma startAll_app window fields driveMap l1 l2 :
  forall values processMap h,
  startAll os attempts getTitleByHwnd window fields driveMap (l1 ++ l2) values processMap h
  = bind (startAll os attempts getTitleByHwnd window fields driveMap l1 values processMap)
         (fun r => startAll os attempts getTitleByHwnd window fields driveMap l2
                            (fst r) (snd r)) h.
Proof.
  induction l1 as [|m l1 IH]; intros values processMap h; [reflexivity|].
  cbn [app startAll]. destruct (negb (includes fields m) || truthy window m); [apply IH|].
  unfold bind at 1 2 3.
  destruct (startMember os attempts getTitleByHwnd window driveMap m values processMap h)
    as [[r|e|a] h1]; [|reflexivity ..].
  apply IH.
Qed.

Lemma startMember_not_path window driveMap m values processMap h values' processMap' h' :
  m <> Path ->
  startMember os attempts getTitleByHwnd window driveMap m values processMap h
  = (Val (values', processMap'), h') ->
  processMap' = processMap
  /\ v_path values' = v_path values
  /\ (m <> Pid -> v_pid values' = v_pid values).
Proof.
  intros Hm H. destruct m; try congruence; cbn [startMember] in H; invert_M;
    (split; [reflexivity | split; [reflexivity |]]);
    intros Hne; try reflexivity; now destruct Hne.
Qed.

Lemma startAll_not_path window fields driveMap members :
  ~ In Path members ->
  forall values processMap h values' processMap' h',
  startAll os attempts getTitleByHwnd window fields driveMap members values processMap h
  = (Val (values', processMap'), h') ->
  processMap' = processMap
  /\ v_path values' = v_path values
  /\ (~ In Pid members -> v_pid values' = v_pid values).
Proof.
  induction members as [|m members IH];
    intros Hno values processMap h values' processMap' h' H; cbn [startAll] in H.
  - apply ret_Val in H as [E _]. inversion E; subst. now repeat split.
  - assert (Hm : m <> Path) by (intros ->; apply Hno; now left).
    assert (Hno' : ~ In Path members) by (intros Hin; apply Hno; now right).
    destruct (negb (includes fields m) || truthy window m).
    + destruct (IH Hno' _ _ _ _ _ _ H) as (E1 & E2 & E3).
      split; [exact E1 | split; [exact E2 |]]. intros Hpid. apply E3.
      intros Hin. apply Hpid. now right.
    + apply bind_Val in H as ([values1 pm1] & h1 & Hstart & H). cbn [fst snd] in H.
      destruct (startMember_not_path _ _ _ _ _ _ _ _ _ Hm Hstart) as (E1 & E2 & E3).
      destruct (IH Hno' _ _ _ _ _ _ H) as (E4 & E5 & E6).
      split; [congruence | split; [congruence |]]. intros Hpid.
      rewrite E6, E3; [reflexivity | |]; intros Hin; apply Hpid; [now left | now right].
Qed.

(** What the first loop leaves for [path] when it computes it: the promise
    of the pid, and for a pid the promise [getPathByPid] returns for it on
    the process map the call was given. *)
Lemma startAll_path_lookup window fields driveMap processMap h values processMap' h' :
  wanted window fields Path = true ->
  startAll os attempts getTitleByHwnd window fields driveMap windowMembers
           noValues processMap h = (Val (values, processMap'), h') ->
  exists pidPromise h0 h1,
    v_pid values = Some pidPromise
    /\ match pidPromise with
       | Fulfilled n =>
           exists r, getPathByPid os attempts n driveMap processMap h0 = (Val r, h1)
                     /\ v_path values = Some (fst r)
       | Rejected e => v_path values = Some (Rejected e)
       end.
Proof.
  intros Hw H.
  assert (Hskip : negb (includes fields Path) || truthy window Path = false)
    by (unfold wanted in Hw; destruct (includes fields Path), (truthy window Path);
        simpl in *; congruence).
  change windowMembers with ([Hwnd; Title; Pid] ++ [Path] ++ [Visible]) in H.
  rewrite startAll_app in H.
  apply bind_Val in H as ([values1 pm1] & h1 & H1 & H). cbn [fst snd] in H.
  rewrite startAll_app in H.
  apply bind_Val in H as ([values2 pm2] & h2 & H2 & H3). cbn [fst snd] in H3.
  apply startAll_not_path in H1 as (-> & _ & _); [|cbn [In]; intuition discriminate].
  apply startAll_not_path in H3 as (_ & Hpath3 & Hpid3); [|cbn [In]; intuition discriminate].
  rewrite Hpath3, Hpid3 by (cbn [In]; intuition discriminate).
  cbn [startAll] in H2. rewrite Hskip in H2.
  apply bind_Val in H2 as ([values3 pm3] & h3 & Hstart & Hret).
  apply ret_Val in Hret as [E _]. cbn [fst snd] in E. inversion E; subst. clear E.
  cbn [startMember] in Hstart.
  apply bind_Val in Hstart as (pidPromise & h0 & _ & Hstart).
  apply bind_Val in Hstart as ([pr pmr] & h4 & Hr & Hstart).
  apply ret_Val in Hstart as [E _]. cbn [fst snd] in E. inversion E; subst. clear E.
  exists pidPromise, h0, h4. cbn [v_pid v_path]. split; [reflexivity|].
  destruct pidPromise as [n|e].
  - apply bind_Val in Hr as (r & h5 & Hg & Hr).
    apply ret_Val in Hr as [E <-]. inversion E; subst. now exists r.
  - apply ret_Val in Hr as [E _]. now inversion E.
Qed.

Lemma assignAll_fulfilled values window window' :
  assignAll values windowMembers window = (Fulfilled tt, window') ->
  (forall pp, v_pid values = Some pp -> exists n, pp = Fulfilled n /\ pid window' = Some n)
  /\ (forall pr, v_path values = Some pr -> exists p, pr = Fulfilled p /\ path window' = p).
Proof.
  destruct window as [wh wt wp wpa wv],
           values as [vh [[t|e]|] [[n|e1]|] [[p|e2]|] [[b|e3]|]];
    destruct vh; cbn; intros H; try discriminate; inversion H; subst;
    (split; intros x Hx; inversion Hx; subst; eauto).
Qed.

(** A lookup on a process map without an entry for the pid is a run of
    the stored function. *)
Lemma getPathByPid_fresh n driveMap processMap h r h' :
  default ∅ processMap !! n = None ->
  getPathByPid os attempts n driveMap processMap h = (Val r, h') ->
  lookupPath os attempts n driveMap h
  = (match fst r with Fulfilled a => Val a | Rejected e => Exn e end, h').
Proof.
  intros Hnone H. unfold getPathByPid in H. rewrite Hnone in H.
  apply bind_Val in H as (promise & h1 & Hstart & H).
  apply ret_Val in H as [E <-]. inversion E; subst. cbn [fst].
  exact (start_Val _ _ _ _ Hstart).
Qed.

(** A path that a lookup resolves to was rewritten from a raw path that
    the read gave, by the drive map at hand. *)
Lemma lookupPath_resolved n driveMap h p h' :
  lookupPath os attempts n driveMap h = (Val (Some p), h') ->
  exists dm rawPath,
    driveMapOf os attempts driveMap dm
    /\ readAs os attempts rawPath
    /\ rewritePath rawPath dm = Some p.
Proof.
  intros H. unfold lookupPath in H.
  apply bind_Val in H as (dm & h1 & Hdm & H).
  apply bind_Val in H as (process & h2 & _ & H).
  unfold try_finally in H.
  destruct (bind _ _ h2) as [[v|e|a] h3] eqn:Hbody; [| |discriminate].
  - apply bind_Val in Hbody as (rawPath & h4 & Hread & Hret).
    apply ret_Val in Hret as [<- _].
    destruct (bind _ _ h3) as [[[]|e|a] h5]; inversion H; subst.
    exists dm, rawPath.
    split; [|split; [exists process, h2, h4; exact Hread | first [assumption | reflexivity]]].
    destruct driveMap as [d|].
    + apply ret_Val in Hdm as [-> _]. now left.
    + right. split; [reflexivity | now exists h, h1].
  - destruct (bind _ _ h3) as [[[]|e0|a] h5]; inversion H.
Qed.

End PathFacts.

(** C4 as stated fails twice.  On a desktop where the image of the process
    lies on a network share, requesting ['path'] alone on a new record
    completes with [pid] set and [path] still undefined; and a record built
    with a path and no pid keeps that path, and no pid, through the call. *)
Lemma path_alone_counterexample :
  Mjs.fillWindowFields Desktop.remote 5 (Window_new 10) (Some [Path]) None None []
  = (Val (Fulfilled tt, mkWindow 10 None (Some 7) None None, None),
     [GetWindowThreadProcessId 10; GetLogicalDriveStringsW 256;
      QueryDosDeviceW (strArg (lit "C:")) 256;
      OpenProcess 0x1000 false 7; GetProcessImageFileNameW 107 256;
      CloseHandle 107])
  /\ Mjs.fillWindowFields Desktop.os 5
       (mkWindow 10 None None (Some Desktop.appPath) None) (Some [Path]) None None []
     = (Val (Fulfilled tt, mkWindow 10 None None (Some Desktop.appPath) None, None), []).
Proof. split; vm_compute; reflexivity. Qed.

(** C4, amended.  For every window record on which [path] set implies
    [pid] set (every new record is one), after any call of
    [fillWindowFields] whose fields contain ['path'], fulfilled or rejected,
    [path] set still implies [pid] set.  When the record had no truthy path
    and the call is fulfilled, [pid] is set; and [path], when the process
    map had no entry for that pid, is set only if the device name of some
    drive of the drive map starts the raw image path that was read, and is
    then what [replace] makes of that raw path: never [path] alone. *)
Theorem fillWindowFields_path_has_pid
        os attempts window fields driveMap processMap h r window' processMap' h' :
  includes (default windowMembers fields) Path = true ->
  pathHasPid window ->
  Mjs.fillWindowFields os attempts window fields driveMap processMap h
  = (Val (r, window', processMap'), h') ->
  pathHasPid window'
  /\ (truthy window Path = false -> r = Fulfilled tt -> is_Some (pid window'))
  /\ (truthy window Path = false -> r = Fulfilled tt ->
      (forall pm n, processMap = Some pm -> pid window' = Some n -> pm !! n = None) ->
      forall p, path window' = Some p ->
        exists dm rawPath driveLetter deviceName rest,
          driveMapOf os attempts driveMap dm
          /\ readAs os attempts rawPath
          /\ In (driveLetter, deviceName) dm
          /\ rawPath = deviceName ++ rest
          /\ p = getSubstitution deviceName [] rest (driveLetter ++ lit ":") ++ rest).
Proof.
  intros Hin Hinv H.
  destruct (fillWindowFields_pathHasPid os attempts _ _ _ _ _ _ _ _ _ _ Hin Hinv H)
    as [Hkeeps Hpid].
  split; [exact Hkeeps | split; [exact Hpid |]].
  intros Hfalsy -> Hcache p Hp.
  unfold Mjs.fillWindowFields, fillWindowFields in H.
  apply bind_Val in H as ([values pm1] & h1 & Hrun & H).
  apply ret_Val in H as [E _]. cbn [fst snd] in E.
  destruct (assignAll values windowMembers window) as [r0 w0] eqn:Hassign.
  cbn [fst snd] in E. inversion E; subst. clear E.
  destruct (assignAll_fulfilled _ _ _ Hassign) as [Hvpid Hvpath].
  destruct (startAll_path_lookup os attempts _ _ _ _ _ _ _ _ _
              ltac:(unfold wanted; now rewrite Hin, Hfalsy) Hrun)
    as (pidPromise & h0 & h2 & Hpp & Hlookup).
  destruct (Hvpid _ Hpp) as (n & -> & Hn).
  destruct Hlookup as (res & Hget & Hres).
  destruct (Hvpath _ Hres) as (p0 & Hfst & Hp0).
  assert (Hnone : default ∅ processMap !! n = None).
  { destruct processMap as [pm|]; [exact (Hcache pm n eq_refl Hn) | apply lookup_empty]. }
  pose proof (getPathByPid_fresh os attempts _ _ _ _ _ _ Hnone Hget) as Hrun'.
  rewrite Hfst in Hrun'. subst p0. rewrite Hp in Hrun'.
  destruct (lookupPath_resolved os attempts _ _ _ _ _ Hrun')
    as (dm & rawPath & Hdm & Hread & Hrewrite).
  destruct (rewritePath_found _ _ _ Hrewrite) as (dl & dn & rest & Hentry & Hraw & Hpath).
  now exists dm, rawPath, dl, dn, rest.
Qed.

Lemma fillWindowFields_path_has_pid_witness :
  includes (default windowMembers (Some [Path])) Path = true
  /\ pathHasPid (Window_new 10)
  /\ Mjs.fillWindowFields Desktop.os 5 (Window_new 10) (Some [Path]) None None []
     = (Val (Fulfilled tt, mkWindow 10 None (Some 7) (Some Desktop.appPath) None, None),
        [GetWindowThreadProcessId 10; GetLogicalDriveStringsW 256;
         QueryDosDeviceW (strArg (lit "C:")) 256;
         OpenProcess 0x1000 false 7; GetProcessImageFileNameW 107 256;
         GetProcessImageFileNameW 107 512; CloseHandle 107])
  /\ pathHasPid (mkWindow 10 None (Some 7) (Some Desktop.appPath) None)
  /\ is_Some (pid (mkWindow 10 None (Some 7) (Some Desktop.appPath) None))
  /\ exists dm rawPath driveLetter deviceName rest,
      driveMapOf Desktop.os 5 None dm
      /\ readAs Desktop.os 5 rawPath
      /\ In (driveLetter, deviceName) dm
      /\ rawPath = deviceName ++ rest
      /\ Desktop.appPath
         = getSubstitution deviceName [] rest (driveLetter ++ lit ":") ++ rest.
Proof.
  assert (Hnew : pathHasPid (Window_new 10)) by (intros [x Hx]; discriminate).
  assert (Hrun : Mjs.fillWindowFields Desktop.os 5 (Window_new 10) (Some [Path])
                                      None None []
                 = (Val (Fulfilled tt,
                         mkWindow 10 None (Some 7) (Some Desktop.appPath) None, None),
                    [GetWindowThreadProcessId 10; GetLogicalDriveStringsW 256;
                     QueryDosDeviceW (strArg (lit "C:")) 256;
                     OpenProcess 0x1000 false 7; GetProcessImageFileNameW 107 256;
                     GetProcessImageFileNameW 107 512; CloseHandle 107]))
    by (vm_compute; reflexivity).
  split; [reflexivity | split; [exact Hnew | split; [exact Hrun |]]].
  destruct (fillWindowFields_path_has_pid Desktop.os 5 (Window_new 10) (Some [Path])
              None None [] _ _ _ _ eq_refl Hnew Hrun) as (Hinv & Hpid & Hpath).
  split; [exact Hinv | split; [now apply Hpid |]].
  apply (Hpath eq_refl eq_refl); [discriminate | reflexivity].
Defined.

(** C5 as stated fails.  On a desktop where window 10 is hidden when first
    asked about and visible afterwards, a first call with ['visible'] sets
    [visible] to [false]; a second call with the same fields asks again and
    overwrites it with [true]. *)
Lemma fillWindowFields_twice_counterexample :
  Mjs.fillWindowFields Desktop.appearing 1 (Window_new 10) (Some [Visible]) None None []
  = (Val (Fulfilled tt, mkWindow 10 None None None (Some false), None),
     [IsWindowVisible 10])
  /\ Mjs.fillWindowFields Desktop.appearing 1
       (mkWindow 10 None None None (Some false)) (Some [Visible]) None None
       [IsWindowVisible 10]
     = (Val (Fulfilled tt, mkWindow 10 None None None (Some true), None),
        [IsWindowVisible 10; IsWindowVisible 10])
  /\ mkWindow 10 None None None (Some true) <> mkWindow 10 None None None (Some false).
Proof. split; [|split]; [vm_compute; reflexivity .. | discriminate]. Qed.

(** C5, amended.  A member whose value on the record is truthy at entry (a
    non-zero handle or pid, a non-empty title or path, [visible] true) is not
    computed again and keeps its value; for [pid] this holds when [path] is
    not computed in the same call.  When every requested member is truthy,
    the call issues no native call and leaves the record and the process map
    as they were. *)
Theorem fillWindowFields_keeps_truthy
        os attempts window fields driveMap processMap m :
  truthy window m = true ->
  (m = Pid -> wanted window (default windowMembers fields) Path = false) ->
  emits (fun c => computes m c = false)
        (Mjs.fillWindowFields os attempts window fields driveMap processMap)
  /\ (forall h r window' processMap' h',
         Mjs.fillWindowFields os attempts window fields driveMap processMap h
         = (Val (r, window', processMap'), h') ->
         get window' m = get window m)
  /\ (forall h,
         (forall m', includes (default windowMembers fields) m' = true ->
                     truthy window m' = true) ->
         Mjs.fillWindowFields os attempts window fields driveMap processMap h
         = (Val (Fulfilled tt, window, processMap), h)).
Proof.
  intros Ht Hp.
  destruct (fillWindowFields_keeps os attempts (Mjs.getTitleByHwnd os attempts)
              (Mjs_title_calls os attempts) window fields driveMap processMap m Ht Hp)
    as [Hcalls Hget].
  split; [exact Hcalls | split; [exact Hget |]].
  intros h Hall. now apply fillWindowFields_nothing.
Qed.

Lemma fillWindowFields_keeps_truthy_witness :
  truthy (mkWindow 10 None None None (Some true)) Visible = true
  /\ get (mkWindow 10 (Some (lit "Editor")) None None (Some true)) Visible
     = Boolean true.
Proof.
  split; [reflexivity|].
  destruct (fillWindowFields_keeps_truthy Desktop.appearing 1
              (mkWindow 10 None None None (Some true)) (Some [Title; Visible])
              None None Visible eq_refl ltac:(discriminate)) as (_ & Hget & _).
  exact (Hget [] (Fulfilled tt)
              (mkWindow 10 (Some (lit "Editor")) None None (Some true)) None
              [GetWindowTextW 10 256] ltac:(vm_compute; reflexivity)).
Defined.

(* ===================================================================== *)
(** * Properties of the enumeration *)
(* ===================================================================== *)

Lemma native_Val {A} c (reply : history -> outcome A) h a h' :
  native c reply h = (Val a, h') -> reply h = Fulfilled a /\ h' = h ++ [c].
Proof.
  unfold native. destruct (reply h); intros H; inversion H; now subst.
Qed.

Lemma await_Val {A} (p : outcome A) h a h' :
  await p h = (Val a, h') -> p = Fulfilled a /\ h' = h.
Proof. destruct p; intros H; inversion H; now subst. Qed.

Lemma opens_app pid l l' : opens pid (l ++ l') = (opens pid l + opens pid l')%nat.
Proof. unfold opens. now rewrite List.filter_app, length_app. Qed.

Lemma opens_calm pid t : Forall (fun c => calm c = true) t -> opens pid t = 0%nat.
Proof.
  unfold opens. induction 1 as [|c t Hc _ IH]; [reflexivity|].
  cbn [List.filter]. destruct c; try exact IH. discriminate.
Qed.

Lemma cacheInv_calm processMap calls t :
  Forall (fun c => calm c = true) t ->
  cacheInv processMap calls -> cacheInv processMap (calls ++ t).
Proof.
  intros Ht [Hd Ho]. split.
  - apply Forall_app. split; [exact Hd|].
    eapply Forall_impl; [exact Ht|]. intros c Hc. unfold calm in Hc.
    now destruct (isDriveCall c).
  - intros pid. rewrite opens_app, (opens_calm pid t Ht), Nat.add_0_r. apply Ho.
Qed.

Lemma threads_ret {A} (a : A) processMap : threads (ret (a, Some processMap)) processMap.
Proof.
  intros h a' pm' h' H. apply ret_Val in H as [E ->]. inversion E; subst.
  exists processMap, []. rewrite app_nil_r.
  split; [reflexivity | split; [reflexivity |]].
  intros calls. now rewrite app_nil_r.
Qed.

Lemma threads_bind_calm {A B} (m : M A) (k : A -> M (B * option ProcessMap)) processMap :
  emits (fun c => calm c = true) m ->
  (forall a, threads (k a) processMap) ->
  threads (bind m k) processMap.
Proof.
  intros Hm Hk h b pm' h' H. apply bind_Val in H as (a & h1 & Hrun & Hrest).
  destruct (Hm h) as (t & Ht & Hcalm). rewrite Hrun in Ht. cbn [snd] in Ht. subst h1.
  destruct (Hk a _ _ _ _ Hrest) as (pm1 & t' & -> & -> & Hinv).
  exists pm1, (t ++ t'). rewrite app_assoc.
  split; [reflexivity | split; [reflexivity |]].
  intros calls Hc. rewrite app_assoc. now apply Hinv, cacheInv_calm.
Qed.

Lemma threads_bind {A B} (m : M (A * option ProcessMap))
      (k : A * option ProcessMap -> M (B * option ProcessMap)) processMap :
  threads m processMap ->
  (forall a processMap1, threads (k (a, Some processMap1)) processMap1) ->
  threads (bind m k) processMap.
Proof.
  intros Hm Hk h b pm' h' H. apply bind_Val in H as ([a pmo] & h1 & Hrun & Hrest).
  destruct (Hm _ _ _ _ Hrun) as (pm1 & t & -> & -> & Hinv).
  destruct (Hk a pm1 _ _ _ _ Hrest) as (pm2 & t' & -> & -> & Hinv').
  exists pm2, (t ++ t'). rewrite app_assoc.
  split; [reflexivity | split; [reflexivity |]].
  intros calls Hc. rewrite app_assoc. now apply Hinv', Hinv.
Qed.

Section EnumerationFacts.

Variable os : Native.
Variable attempts : nat.
Variable getTitleByHwnd : Z -> M jsstring.

Hypothesis title_calls :
  forall hwnd, emits (fun c => computes Title c = true) (getTitleByHwnd hwnd).

(** With a drive map at hand a lookup calls [OpenProcess] on its pid, then
    reads and closes. *)
Lemma lookupPath_calls pid dm h :
  exists t, snd (lookupPath os attempts pid (Some dm) h)
            = h ++ OpenProcess 0x1000 false pid :: t
            /\ Forall (fun c => calm c = true) t.
Proof.
  unfold lookupPath. unfold bind at 1, ret at 1. unfold bind at 1, native at 1.
  destruct (openProcess os h 0x1000 false pid) as [process|e].
  - assert (Hbody : emits (fun c => calm c = true)
              (try_finally
                 (rawPath <- getW attempts
                               (filling (GetProcessImageFileNameW process)
                                        (fun h => getProcessImageFileNameW os h process))
                               false ;;
                  ret (rewritePath rawPath dm))
                 (native (CloseHandle process) (fun h => closeHandle os h process) ;;;
                  ret tt))).
    { apply emits_try_finally.
      - apply emits_bind; [|intros; apply emits_ret].
        apply (emits_getW_loop _ false). intros. now apply emits_filling.
      - apply emits_bind; [now apply emits_native | intros; apply emits_ret]. }
    destruct (Hbody (h ++ [OpenProcess 0x1000 false pid])) as (t & Ht & Hcalm).
    exists t. rewrite Ht, <- app_assoc. now split.
  - exists []. now split.
Qed.

Lemma getPathByPid_threads pid dm processMap :
  threads (r <- getPathByPid os attempts pid (Some dm) (Some processMap) ;;
           ret (fst r, Some (snd r))) processMap.
Proof.
  intros h p pm' h' H. apply bind_Val in H as ([p0 pm0] & h0 & H & Hret).
  apply ret_Val in Hret as [E ->]. inversion E; subst. clear E.
  unfold getPathByPid in H.
  change (default ∅ (Some processMap)) with processMap in H.
  destruct (processMap !! pid) as [promise|] eqn:Hentry.
  - apply ret_Val in H as [E ->]. inversion E; subst. clear E.
    exists pm0, []. rewrite app_nil_r.
    split; [reflexivity | split; [reflexivity |]].
    intros calls. now rewrite app_nil_r.
  - apply bind_Val in H as (promise & h1 & Hrun & Hret).
    apply ret_Val in Hret as [E ->]. inversion E; subst. clear E.
    destruct (lookupPath_calls pid dm h) as (t & Ht & Hcalm).
    apply start_Val in Hrun. rewrite Hrun in Ht. cbn [snd] in Ht. subst h'.
    exists (<[pid := p]> processMap), (OpenProcess 0x1000 false pid :: t).
    split; [reflexivity | split; [reflexivity |]].
    intros calls [Hd Ho].
    change (OpenProcess 0x1000 false pid :: t)
      with ([OpenProcess 0x1000 false pid] ++ t).
    assert (Hopen : forall pid0, opens pid0 [OpenProcess 0x1000 false pid]
                                 = if pid =? pid0 then 1%nat else 0%nat).
    { intros pid0. unfold opens. cbn [List.filter]. now destruct (pid =? pid0). }
    split.
    + apply Forall_app. split; [exact Hd|].
      constructor; [reflexivity|].
      eapply Forall_impl; [exact Hcalm|]. intros c Hc. unfold calm in Hc.
      now destruct (isDriveCall c).
    + intros pid0. destruct (Ho pid0) as [Hz Hle].
      rewrite !opens_app, (opens_calm pid0 t Hcalm), Nat.add_0_r, Hopen.
      destruct (Z.eqb_spec pid pid0) as [->|Hne].
      * rewrite lookup_insert_eq, (Hz Hentry). split; [discriminate | lia].
      * rewrite lookup_insert_ne by exact Hne. split; [|lia].
        intros Hnone. rewrite (Hz Hnone). lia.
Qed.

Lemma calm_computes m c : m <> Path -> computes m c = true -> calm c = true.
Proof. intros Hm. destruct m, c; try discriminate; try reflexivity; congruence. Qed.

Lemma startMember_threads window dm m values processMap :
  threads (startMember os attempts getTitleByHwnd window (Some dm) m values
                       (Some processMap)) processMap.
Proof.
  destruct m; cbn [startMember].
  - apply threads_ret.
  - apply threads_bind_calm; [|intros; apply threads_ret].
    apply emits_start. eapply emits_weaken; [|apply title_calls].
    intros c. now apply calm_computes.
  - apply threads_bind_calm; [|intros; apply threads_ret].
    apply emits_start. eapply emits_weaken; [|apply emits_getPidByHwnd].
    intros c. now apply calm_computes.
  - apply threads_bind_calm.
    + destruct (v_pid values); [apply emits_ret|].
      apply emits_start. eapply emits_weaken; [|apply emits_getPidByHwnd].
      intros c. now apply calm_computes.
    + intros pidPromise. apply threads_bind.
      * destruct pidPromise as [n|e]; [|apply threads_ret].
        apply getPathByPid_threads.
      * intros a pm1. apply threads_ret.
  - apply threads_bind_calm; [|intros; apply threads_ret].
    apply emits_start. eapply emits_weaken; [|apply emits_getIsVisibleByHwnd].
    intros c. now apply calm_computes.
Qed.

Lemma startAll_threads window fields dm members :
  forall values processMap,
  threads (startAll os attempts getTitleByHwnd window fields (Some dm) members values
                    (Some processMap)) processMap.
Proof.
  induction members as [|m members IH]; intros values processMap; cbn [startAll].
  - apply threads_ret.
  - destruct (negb (includes fields m) || truthy window m); [apply IH|].
    apply threads_bind; [apply startMember_threads|].
    intros a pm1. apply IH.
Qed.

Lemma fillWindowFields_threads window fields dm processMap :
  threads (fillWindowFields os attempts getTitleByHwnd window fields (Some dm)
                            (Some processMap)) processMap.
Proof.
  intros h [r window'] pm' h' H. unfold fillWindowFields in H.
  apply bind_Val in H as ([values pmo] & h1 & Hrun & Hret).
  apply ret_Val in Hret as [E ->]. inversion E; subst. clear E.
  destruct (startAll_threads _ _ _ _ _ _ _ _ _ _ Hrun) as (pm1 & t & -> & -> & Hinv).
  now exists pm1, t.
Qed.

Lemma getWindowByHwnd_threads hwnd fields dm processMap :
  threads (getWindowByHwnd os attempts getTitleByHwnd hwnd fields (Some dm)
                           (Some processMap)) processMap.
Proof.
  intros h p pm' h' H. unfold getWindowByHwnd in H.
  apply bind_Val in H as ([[r window'] pmo] & h1 & Hrun & Hret).
  apply ret_Val in Hret as [E ->]. inversion E; subst. clear E.
  destruct (fillWindowFields_threads _ _ _ _ _ _ _ _ Hrun) as (pm1 & t & -> & -> & Hinv).
  now exists pm1, t.
Qed.

Lemma mapShared_threads {A B} (f : A -> option ProcessMap -> M (B * option ProcessMap)) l :
  (forall a processMap, threads (f a (Some processMap)) processMap) ->
  forall processMap, threads (mapShared f l (Some processMap)) processMap.
Proof.
  intros Hf. induction l as [|a l IH]; intros processMap; cbn [mapShared].
  - apply threads_ret.
  - apply threads_bind; [apply Hf|]. intros b pm1. cbn [snd].
    apply threads_bind; [apply IH|]. intros bs pm2. apply threads_ret.
Qed.

End EnumerationFacts.

Lemma truthy_get window window' m :
  get window' m = get window m -> truthy window' m = truthy window m.
Proof.
  destruct window as [wh wt wp wpa wv], window' as [wh' wt' wp' wpa' wv'].
  destruct m; cbn [get truthy hwnd title pid path visible];
    repeat match goal with
           | |- context [match ?x with Some _ => _ | None => _ end] => destruct x
           end; intros H; inversion H; subst; reflexivity.
Qed.

Lemma sublist_List_filter {A} (f : A -> bool) (l : list A) :
  sublist (List.filter f l) l.
Proof.
  induction l as [|a l IH]; cbn [List.filter]; [constructor|].
  destruct (f a); now constructor.
Qed.

Lemma sublist_map {A B} (f : A -> B) (l l' : list A) :
  sublist l l' -> sublist (map f l) (map f l').
Proof. induction 1; cbn [map]; now constructor. Qed.

Lemma Promise_all_cons {A} (p : outcome A) ps l :
  Promise_all (p :: ps) = Fulfilled l ->
  exists a l', p = Fulfilled a /\ Promise_all ps = Fulfilled l' /\ l = a :: l'.
Proof.
  cbn [Promise_all]. destruct p as [a|e]; [|discriminate].
  destruct (Promise_all ps) as [l'|e]; [|discriminate].
  intros H. inversion H. now exists a, l'.
Qed.

Section Enumeration.

Variable os : Native.
Variable attempts : nat.
Variable getTitleByHwnd : Z -> M jsstring.

Hypothesis title_calls :
  forall hwnd, emits (fun c => computes Title c = true) (getTitleByHwnd hwnd).

Lemma fillWindowFields_keptFrom window fields driveMap processMap h r window' processMap' h' :
  fillWindowFields os attempts getTitleByHwnd window fields driveMap processMap h
  = (Val (r, window', processMap'), h') ->
  keptFrom window window'.
Proof.
  intros H. split.
  - pose proof H as H0. unfold fillWindowFields in H0.
    apply bind_Val in H0 as ([values pm] & h1 & Hrun & H0).
    apply ret_Val in H0 as [E _]. cbn [fst snd] in E. inversion E; subst.
    pose proof (startAll_hwndKept _ _ _ _ _ _ _ _ _ _ _ Hrun) as [Hk _].
    exact (assignAll_hwnd values windowMembers window Hk).
  - intros m Ht Hm.
    destruct (fillWindowFields_keeps os attempts getTitleByHwnd title_calls
                window fields driveMap processMap m Ht ltac:(congruence)) as [_ Hget].
    exact (Hget _ _ _ _ _ H).
Qed.

Lemma fillWindowFields_resolved window fields driveMap processMap h window' processMap' h' :
  fillWindowFields os attempts getTitleByHwnd window fields driveMap processMap h
  = (Val (Fulfilled tt, window', processMap'), h') ->
  resolved fields window'.
Proof.
  intros H m Hin Hm. unfold fillWindowFields in H.
  apply bind_Val in H as ([values pm] & h1 & Hrun & H).
  apply ret_Val in H as [E _]. cbn [fst snd] in E.
  destruct (assignAll values windowMembers window) as [r w1] eqn:Hassign.
  cbn [fst snd] in E. inversion E; subst. clear E.
  pose proof (startAll_hwndKept _ _ _ _ _ _ _ _ _ _ _ Hrun) as [Hk _].
  apply startAll_has in Hrun as (Hhas & _ & _).
  destruct (has values m) eqn:Hm'.
  - exact (assignAll_assigned _ _ _ _ Hassign Hm' Hm).
  - pose proof (assignAll_get values windowMembers m Hm' window Hk) as Hget.
    rewrite Hassign in Hget. cbn [snd] in Hget. rewrite Hget.
    apply truthy_defined.
    rewrite Hhas in Hm'. apply orb_false_iff in Hm' as [_ Hex].
    assert (Hw : wanted window (default windowMembers fields) m = false).
    { destruct (wanted window (default windowMembers fields) m) eqn:Hw; [|reflexivity].
      rewrite <- Hex. symmetry. apply existsb_exists. exists m.
      split; [apply In_windowMembers|]. rewrite Hw. now destruct m. }
    unfold wanted in Hw. rewrite Hin in Hw. cbn [andb] in Hw.
    now apply negb_false_iff in Hw.
Qed.

(** The first pass gives one record per handle, in order. *)
Lemma firstPass_handles fields dm hwnds :
  forall processMap h promises processMap' h' windows,
  mapShared (fun hwnd processMap =>
               getWindowByHwnd os attempts getTitleByHwnd hwnd fields (Some dm) processMap)
            hwnds processMap h = (Val (promises, processMap'), h') ->
  Promise_all promises = Fulfilled windows ->
  map hwnd windows = hwnds.
Proof.
  induction hwnds as [|x hwnds IH]; intros processMap h promises processMap' h' windows H Hall;
    cbn [mapShared] in H.
  - apply ret_Val in H as [E _]. inversion E; subst.
    cbn [Promise_all] in Hall. now inversion Hall.
  - apply bind_Val in H as ([p pm1] & h1 & Hx & H).
    apply bind_Val in H as ([ps pm2] & h2 & Hrest & H).
    apply ret_Val in H as [E _]. inversion E; subst. clear E. cbn [fst snd] in *.
    apply Promise_all_cons in Hall as (w & ws & -> & Hps & ->).
    cbn [map]. f_equal; [|exact (IH _ _ _ _ _ _ Hrest Hps)].
    unfold getWindowByHwnd in Hx.
    apply bind_Val in Hx as ([[r w'] pm] & h3 & Hfill & Hx).
    apply ret_Val in Hx as [E _]. cbn [fst snd] in E.
    destruct r as [[]|e]; inversion E; subst.
    now destruct (fillWindowFields_keptFrom _ _ _ _ _ _ _ _ _ Hfill).
Qed.

(** The records of the first pass are those [getWindowByHwnd] is fulfilled
    with, one per handle. *)
Lemma firstPass_records fields dm hwnds :
  forall processMap h promises processMap' h' windows,
  mapShared (fun hwnd processMap =>
               getWindowByHwnd os attempts getTitleByHwnd hwnd fields (Some dm) processMap)
            hwnds processMap h = (Val (promises, processMap'), h') ->
  Promise_all promises = Fulfilled windows ->
  Forall2 (fun x w =>
             exists pm h0 pm' h1,
               getWindowByHwnd os attempts getTitleByHwnd x fields (Some dm) pm h0
               = (Val (Fulfilled w, pm'), h1))
          hwnds windows.
Proof.
  induction hwnds as [|x hwnds IH]; intros processMap h promises processMap' h' windows H Hall;
    cbn [mapShared] in H.
  - apply ret_Val in H as [E _]. inversion E; subst.
    cbn [Promise_all] in Hall. inversion Hall. constructor.
  - apply bind_Val in H as ([p pm1] & h1 & Hx & H).
    apply bind_Val in H as ([ps pm2] & h2 & Hrest & H).
    apply ret_Val in H as [E _]. inversion E; subst. clear E. cbn [fst snd] in *.
    apply Promise_all_cons in Hall as (w & ws & -> & Hps & ->).
    constructor; [now exists processMap, h, pm1, h1 | exact (IH _ _ _ _ _ _ Hrest Hps)].
Qed.

(** The second pass keeps the handle and the truthy members of each
    record. *)
Lemma secondPass_kept fields dm windows :
  forall processMap h filled processMap' h' windows',
  mapShared (fun window processMap =>
               r <- fillWindowFields os attempts getTitleByHwnd window fields
                                     (Some dm) processMap ;;
               ret (fst r, snd r))
            windows processMap h = (Val (filled, processMap'), h') ->
  Promise_all (map (fun r => match fst r with
                             | Fulfilled _ => Fulfilled (snd r)
                             | Rejected e => Rejected e
                             end) filled) = Fulfilled windows' ->
  Forall2 keptFrom windows windows' /\ Forall (resolved fields) windows'.
Proof.
  induction windows as [|w windows IH];
    intros processMap h filled processMap' h' windows' H Hall;
    cbn [mapShared] in H.
  - apply ret_Val in H as [E _]. inversion E; subst.
    cbn [map Promise_all] in Hall. inversion Hall. split; constructor.
  - apply bind_Val in H as ([[r w1] pm1] & h1 & Hw & H).
    apply bind_Val in H as ([fs pm2] & h2 & Hrest & H).
    apply ret_Val in H as [E _]. inversion E; subst. clear E. cbn [fst snd] in *.
    apply bind_Val in Hw as ([[r0 w0] pm0] & h3 & Hfill & Hw).
    apply ret_Val in Hw as [E _]. cbn [fst snd] in E. inversion E; subst. clear E.
    cbn [map fst snd] in Hall.
    apply Promise_all_cons in Hall as (w' & ws' & Hw' & Hps & ->).
    destruct r as [[]|e]; inversion Hw'; subst.
    destruct (IH _ _ _ _ _ _ Hrest Hps) as [Hkept Hres].
    split; (constructor; [|assumption]).
    + exact (fillWindowFields_keptFrom _ _ _ _ _ _ _ _ _ Hfill).
    + exact (fillWindowFields_resolved _ _ _ _ _ _ _ _ Hfill).
Qed.

(** What a completed enumeration did. *)
Lemma getAllWindows_inv all fields h result h' :
  getAllWindows os attempts getTitleByHwnd all fields h = (Val result, h') ->
  exists dm hd hwnds windows rest,
    getDriveMap os attempts h = (Val dm, hd)
    /\ enumWindows os hd = Fulfilled hwnds
    /\ map hwnd windows = hwnds
    /\ Forall2 keptFrom (if all then windows else List.filter shown windows) result
    /\ Forall (resolved fields) result
    /\ h' = hd ++ rest
    /\ Forall (fun c => isDriveCall c = false) rest
    /\ (forall pid, (opens pid rest <= 1)%nat)
    /\ Forall2 (fun x w =>
                  exists pm h0 pm' h1,
                    getWindowByHwnd os attempts getTitleByHwnd x
                                    (if all then fields else Some [Title; Visible])
                                    (Some dm) pm h0
                    = (Val (Fulfilled w, pm'), h1))
               hwnds windows.
Proof.
  intros H. unfold getAllWindows in H.
  apply bind_Val in H as (dm & hd & Hdm & H).
  apply bind_Val in H as (hwnds & h1 & Henum & H).
  apply native_Val in Henum as [Henum ->].
  apply bind_Val in H as ([promises pmo1] & h2 & Hfirst & H).
  apply bind_Val in H as (windows & h3 & Hall1 & H).
  apply await_Val in Hall1 as [Hall1 ->]. cbn [fst snd] in *.
  apply bind_Val in H as ([filled pmo2] & h4 & Hsecond & H).
  apply await_Val in H as [Hall2 ->]. cbn [fst snd] in *.
  destruct (mapShared_threads _ hwnds
              (fun hwnd pm => getWindowByHwnd_threads os attempts getTitleByHwnd
                                title_calls hwnd _ dm pm)
              ∅ _ _ _ _ Hfirst) as (pm1 & t1 & -> & -> & Hinv1).
  assert (Hfill : forall window pm,
             threads (r <- fillWindowFields os attempts getTitleByHwnd window fields
                                            (Some dm) (Some pm) ;;
                      ret (fst r, snd r)) pm).
  { intros window pm. apply threads_bind.
    - apply fillWindowFields_threads, title_calls.
    - intros a pm'. apply threads_ret. }
  destruct (mapShared_threads _ _ Hfill pm1 _ _ _ _ Hsecond)
    as (pm2 & t2 & -> & -> & Hinv2).
  exists dm, hd, hwnds, windows, ([EnumWindows] ++ t1 ++ t2).
  split; [exact Hdm | split; [exact Henum |]].
  split; [exact (firstPass_handles _ _ _ _ _ _ _ _ _ Hfirst Hall1) |].
  destruct (secondPass_kept _ _ _ _ _ _ _ _ _ Hsecond Hall2) as [Hkept Hres].
  split; [exact Hkept | split; [exact Hres |]].
  split; [now rewrite <- !app_assoc |].
  assert (H0 : cacheInv ∅ [EnumWindows]).
  { split; [now repeat constructor |]. intros pid. unfold opens. cbn. split; [reflexivity | lia]. }
  apply Hinv1, Hinv2 in H0. rewrite <- app_assoc in H0.
  destruct H0 as [Hd Ho]. split; [exact Hd | split; [intros pid; apply Ho |]].
  exact (firstPass_records _ _ _ _ _ _ _ _ _ Hfirst Hall1).
Qed.

End Enumeration.

Lemma keptFrom_handles before after :
  Forall2 keptFrom before after -> map hwnd after = map hwnd before.
Proof.
  induction 1 as [|w w' l l' [Hh _] _ IH]; [reflexivity|].
  cbn [map]. now rewrite Hh, IH.
Qed.

Lemma keptFrom_shown before after :
  Forall (fun w => shown w = true) before ->
  Forall2 keptFrom before after ->
  Forall (fun w => truthy w Title = true /\ visible w = Some true) after.
Proof.
  intros Hshown H. induction H as [|w w' l l' [_ Hget] _ IH]; [constructor|].
  inversion Hshown as [|? ? Hw Hl]; subst. constructor; [|now apply IH].
  unfold shown in Hw. apply andb_true_iff in Hw as [Hv Ht].
  assert (Hv' : truthy w' Visible = true)
    by (rewrite (truthy_get w w' Visible); [exact Hv | apply Hget; [exact Hv | discriminate]]).
  split.
  - rewrite (truthy_get w w' Title); [exact Ht | apply Hget; [exact Ht | discriminate]].
  - unfold truthy in Hv'. destruct (visible w') as [[]|]; congruence.
Qed.

Lemma Forall_List_filter {A} (f : A -> bool) (l : list A) :
  Forall (fun a => f a = true) (List.filter f l).
Proof.
  induction l as [|a l IH]; cbn [List.filter]; [constructor|].
  destruct (f a) eqn:E; [now constructor | exact IH].
Qed.

(** ** The claim on [getAllWindows] *)

(** C7.  Two enumerations from the same history, hence of the same snapshot
    of handles, which is the list [EnumWindows] gives after the one
    [getDriveMap]: [getAllWindows(true, fields)] returns one record per
    handle of the snapshot, in order.  [getAllWindows(false, fields)] checks,
    for each handle of the snapshot, the record [getWindowByHwnd] gives for
    ['title', 'visible'], and returns, in order, one record for each checked
    record that is visible and has a non-empty title, with the same handle,
    title and visibility, and none for the others; so the handles it returns
    are among those of the full enumeration, and every record it returns has
    a non-empty title and [visible] true.  The records returned have the
    requested members set ([path] when a drive matches); and after the
    [getDriveMap] at its start the enumeration issues no call of the drive
    resolver and opens no process twice. *)
Theorem getAllWindows_shown_only os attempts fields h shownOnly hF everything hT :
  Mjs.getAllWindows os attempts false fields h = (Val shownOnly, hF) ->
  Mjs.getAllWindows os attempts true fields h = (Val everything, hT) ->
  sublist (map hwnd shownOnly) (map hwnd everything)
  /\ Forall (fun w => truthy w Title = true /\ visible w = Some true) shownOnly
  /\ Forall (resolved fields) shownOnly
  /\ exists dm hd hwnds checked rest,
      getDriveMap os attempts h = (Val dm, hd)
      /\ enumWindows os hd = Fulfilled hwnds
      /\ map hwnd everything = hwnds
      /\ Forall2 (recordOf os attempts (Some [Title; Visible]) dm) hwnds checked
      /\ Forall2 keptFrom (List.filter shown checked) shownOnly
      /\ hF = hd ++ rest
      /\ Forall (fun c => isDriveCall c = false) rest
      /\ forall pid, (opens pid rest <= 1)%nat.
Proof.
  intros HF HT.
  apply (getAllWindows_inv os attempts _ (Mjs_title_calls os attempts)) in HF
    as (dm & hd & hwnds & windows & rest & Hdm & Henum & Hh & Hkept & Hres & -> & Hd
        & Ho & Hrec).
  apply (getAllWindows_inv os attempts _ (Mjs_title_calls os attempts)) in HT
    as (dm' & hd' & hwnds' & windows' & rest' & Hdm' & Henum' & Hh' & Hkept' & _).
  rewrite Hdm in Hdm'. inversion Hdm'; subst dm' hd'. clear Hdm'.
  rewrite Henum in Henum'. inversion Henum' as [Hsame]. clear Henum'.
  assert (Hall : map hwnd everything = hwnds)
    by (rewrite (keptFrom_handles _ _ Hkept'), Hh'; now symmetry).
  split; [|split; [|split]].
  - rewrite (keptFrom_handles _ _ Hkept), Hall, <- Hh.
    apply sublist_map, sublist_List_filter.
  - apply (keptFrom_shown _ _ (Forall_List_filter shown windows) Hkept).
  - exact Hres.
  - exists dm, hd, hwnds, windows, rest.
    split; [exact Hdm | split; [exact Henum | split; [exact Hall |]]].
    split; [exact Hrec | split; [exact Hkept |]]. now split.
Qed.

Lemma getAllWindows_shown_only_witness :
  Mjs.getAllWindows Desktop.os 5 false (Some [Path]) []
  = (Val [mkWindow 10 (Some (lit "Editor")) (Some 7) (Some Desktop.appPath) (Some true)],
     [GetLogicalDriveStringsW 256; QueryDosDeviceW (strArg (lit "C:")) 256; EnumWindows;
      GetWindowTextW 10 256; IsWindowVisible 10; GetWindowTextW 11 256;
      IsWindowVisible 11; GetWindowTextW 12 256; IsWindowVisible 12;
      GetWindowThreadProcessId 10; OpenProcess 0x1000 false 7;
      GetProcessImageFileNameW 107 256; GetProcessImageFileNameW 107 512;
      CloseHandle 107])
  /\ sublist [10] [10; 11; 12]
  /\ truthy (mkWindow 10 (Some (lit "Editor")) (Some 7) (Some Desktop.appPath) (Some true))
            Title = true
  /\ exists checked,
      Forall2 (recordOf Desktop.os 5 (Some [Title; Visible]) driveC) [10; 11; 12] checked
      /\ Forall2 keptFrom (List.filter shown checked)
                 [mkWindow 10 (Some (lit "Editor")) (Some 7) (Some Desktop.appPath)
                           (Some true)].
Proof.
  assert (HF : Mjs.getAllWindows Desktop.os 5 false (Some [Path]) []
               = (Val [mkWindow 10 (Some (lit "Editor")) (Some 7) (Some Desktop.appPath)
                                (Some true)],
                  [GetLogicalDriveStringsW 256; QueryDosDeviceW (strArg (lit "C:")) 256;
                   EnumWindows;
                   GetWindowTextW 10 256; IsWindowVisible 10; GetWindowTextW 11 256;
                   IsWindowVisible 11; GetWindowTextW 12 256; IsWindowVisible 12;
                   GetWindowThreadProcessId 10; OpenProcess 0x1000 false 7;
                   GetProcessImageFileNameW 107 256; GetProcessImageFileNameW 107 512;
                   CloseHandle 107])) by (vm_compute; reflexivity).
  destruct (getAllWindows_shown_only Desktop.os 5 (Some [Path]) [] _ _
    [mkWindow 10 None (Some 7) (Some Desktop.appPath) None;
     mkWindow 11 None (Some 7) (Some Desktop.appPath) None;
     mkWindow 12 None (Some 8) (Some Desktop.appPath) None]
    [GetLogicalDriveStringsW 256; QueryDosDeviceW (strArg (lit "C:")) 256; EnumWindows;
     GetWindowThreadProcessId 10; OpenProcess 0x1000 false 7;
     GetProcessImageFileNameW 107 256; GetProcessImageFileNameW 107 512;
     CloseHandle 107;
     GetWindowThreadProcessId 11; GetWindowThreadProcessId 12;
     OpenProcess 0x1000 false 8; GetProcessImageFileNameW 108 256;
     GetProcessImageFileNameW 108 512; CloseHandle 108]
    HF ltac:(vm_compute; reflexivity))
    as (Hsub & Hshown & _ & dm & hd & hwnds & checked & rest & Hdm & Henum & Hall & Hrec
        & Hkept & _).
  split; [exact HF | split; [exact Hsub | split; [now inversion Hshown |]]].
  assert (Edm : getDriveMap Desktop.os 5 []
                = (Val driveC, [GetLogicalDriveStringsW 256;
                                QueryDosDeviceW (strArg (lit "C:")) 256]))
    by (vm_compute; reflexivity).
  rewrite Edm in Hdm. inversion Hdm; subst dm hd. cbn [map hwnd] in Hall. subst hwnds.
  exists checked. split; [exact Hrec | exact Hkept].
Defined.

(* ===================================================================== *)
(** * Properties of the process map under overlapping requests *)
(* ===================================================================== *)

Import EventLoop.

Lemma callsOf_enter s pid ph calls pid' :
  callsOf pid' (enter s pid ph calls)
  = callsOf pid' s ++ (if pid =? pid' then calls else []).
Proof.
  unfold callsOf, enter. cbn [issued].
  rewrite List.filter_app, map_app. f_equal.
  induction calls as [|c calls IH]; cbn [map List.filter fst].
  - now destruct (pid =? pid').
  - destruct (pid =? pid') eqn:E; cbn [map snd]; [now rewrite IH | exact IH].
Qed.

Lemma lookup_enter s pid ph calls pid' :
  processMap (enter s pid ph calls) !! pid'
  = if decide (pid = pid') then Some ph else processMap s !! pid'.
Proof. unfold enter. cbn [processMap]. apply lookup_insert. Qed.

Lemma lookup_same s pid ph calls :
  processMap (enter s pid ph calls) !! pid = Some ph.
Proof. rewrite lookup_enter. now destruct (decide (pid = pid)). Qed.






(** A settled entry is never touched again, and its lookup issues nothing
    more. *)
Lemma step_settled s ev s' pid r :
  step s ev = Some s' ->
  processMap s !! pid = Some (Settled r) ->
  processMap s' !! pid = Some (Settled r) /\ callsOf pid s' = callsOf pid s.
Proof.
  intros H Hentry. unfold step in H.
  assert (Hother : forall pid0 ph calls,
             pid0 <> pid ->
             processMap (enter s pid0 ph calls) !! pid = Some (Settled r)
             /\ callsOf pid (enter s pid0 ph calls) = callsOf pid s).
  { intros pid0 ph calls Hne. rewrite lookup_enter, callsOf_enter.
    destruct (decide (pid0 = pid)); [congruence|].
    destruct (Z.eqb_spec pid0 pid); [congruence|]. now rewrite app_nil_r. }
  destruct ev as [pid0 dm|pid0 x|pid0 x|pid0 x|pid0 x];
    (destruct (decide (pid0 = pid)) as [->|Hne];
     [rewrite Hentry in H; try discriminate; inversion H; subst; now split |]);
    destruct (processMap s !! pid0) as [ph|]; try discriminate.
  - inversion H; subst. now split.
  - destruct dm; inversion H; subst; now apply Hother.
  - destruct ph; try discriminate. destruct x; inversion H; subst; now apply Hother.
  - destruct ph; try discriminate. destruct x; inversion H; subst; now apply Hother.
  - destruct ph; try discriminate. destruct (afterRead _ x) as [rawPath|e].
    + inversion H; subst. now apply Hother.
    + destruct (negb _); [inversion H; subst; now apply Hother|].
      destruct (allocatable _); inversion H; subst; now apply Hother.
  - destruct ph; try discriminate. destruct x; inversion H; subst; now apply Hother.
Qed.

Lemma run_settled evs : forall s s' pid r,
  run evs s = Some s' ->
  processMap s !! pid = Some (Settled r) ->
  processMap s' !! pid = Some (Settled r) /\ callsOf pid s' = callsOf pid s.
Proof.
  induction evs as [|ev evs IH]; intros s s' pid r H Hentry; cbn [run] in H.
  - inversion H; subst. now split.
  - destruct (step s ev) as [s1|] eqn:Hstep; [|discriminate].
    destruct (step_settled _ _ _ _ _ Hstep Hentry) as [Hentry1 Hcalls1].
    destruct (IH _ _ _ _ H Hentry1) as [Hentry' Hcalls'].
    split; [exact Hentry' | congruence].
Qed.





(** ** The claims on the process map *)



(** C10.  In a running event loop: when [OpenProcess] rejects, the entry
    settles rejected with that error; when the read rejects with an error
    other than the insufficient-buffer one, the entry goes on to close the
    handle holding that error, and settles rejected with it when
    [CloseHandle] returns; and a rejected entry stays as it is through every
    later turn, requests for the same pid included: the lookup issues no
    further call and a request changes nothing. *)
Theorem failed_lookup_stays_in_the_map s pid e :
  (forall dm,
      processMap s !! pid = Some (AwaitOpen dm) ->
      exists s1, step s (OpenSettled pid (Rejected e)) = Some s1
                 /\ processMap s1 !! pid = Some (Settled (Rejected e))
                 /\ callsOf pid s1 = callsOf pid s)
  /\ (forall dm process len,
      processMap s !! pid = Some (AwaitRead dm process len) ->
      message e <> outsideBounds ->
      exists s1, step s (ReadSettled pid (Rejected e)) = Some s1
                 /\ processMap s1 !! pid = Some (AwaitClose process (Rejected e)))
  /\ (forall process c,
      processMap s !! pid = Some (AwaitClose process (Rejected e)) ->
      exists s1, step s (CloseSettled pid (Fulfilled c)) = Some s1
                 /\ processMap s1 !! pid = Some (Settled (Rejected e))
                 /\ callsOf pid s1 = callsOf pid s)
  /\ (forall after s',
      processMap s !! pid = Some (Settled (Rejected e)) ->
      run after s = Some s' ->
      processMap s' !! pid = Some (Settled (Rejected e))
      /\ callsOf pid s' = callsOf pid s
      /\ forall dm s'', step s' (Request pid dm) = Some s'' -> s'' = s').
Proof.
  assert (Hsame : forall ph calls,
             processMap (enter s pid ph calls) !! pid = Some ph).
  { intros ph calls. rewrite lookup_enter. now destruct (decide (pid = pid)). }
  assert (Hquiet : forall ph, callsOf pid (enter s pid ph []) = callsOf pid s).
  { intros ph. rewrite callsOf_enter. destruct (pid =? pid); apply app_nil_r. }
  split; [|split; [|split]].
  - intros dm Hentry. unfold step. rewrite Hentry. eauto.
  - intros dm process len Hentry Hmsg. unfold step. rewrite Hentry.
    cbn [afterRead]. apply String.eqb_neq in Hmsg. rewrite Hmsg. cbn [negb].
    eexists. split; [reflexivity|]. unfold close. apply Hsame.
  - intros process c Hentry. unfold step. rewrite Hentry. eauto.
  - intros after s' Hentry Hafter.
    destruct (run_settled _ _ _ _ _ Hafter Hentry) as [Hentry' Hcalls].
    split; [exact Hentry' | split; [exact Hcalls |]].
    intros dm s'' Hreq. unfold step in Hreq.
    rewrite Hentry' in Hreq. now inversion Hreq.
Qed.

Lemma failed_lookup_stays_in_the_map_witness :
  exists s1, step requested7 (OpenSettled 7 (Rejected Desktop.denied)) = Some s1
             /\ processMap s1 !! 7 = Some (Settled (Rejected Desktop.denied))
             /\ callsOf 7 s1 = callsOf 7 requested7.
Proof.
  destruct (failed_lookup_stays_in_the_map requested7 7 Desktop.denied)
    as (Hopen & _).
  exact (Hopen driveC eq_refl).
Defined.

(** ** The event loop against the sequential run *)

Lemma run_app evs evs' s :
  run (evs ++ evs') s = match run evs s with Some s1 => run evs' s1 | None => None end.
Proof.
  revert s. induction evs as [|ev evs IH]; intros s; cbn [app run]; [reflexivity|].
  destruct (step s ev); [apply IH | reflexivity].
Qed.

(** The [try] block of a single-string read on a filling call, by what the
    event loop makes of its settlement. *)
Lemma attempt_afterRead c reply len h :
  allocatable len = true ->
  attempt (filling c reply) false len h
  = (match afterRead len (reply h len) with
     | Fulfilled s => Val s
     | Rejected e => Exn e
     end, h ++ [c len]).
Proof.
  intros Ha. rewrite attempt_filling by exact Ha. unfold afterRead.
  destruct (reply h len) as [written|e]; [|reflexivity].
  rewrite decode_single. now destruct (reinterpretUntilZeros _ 0).
Qed.

(** The reads of a lookup in the event loop, fed the settlements of the
    sequential run, end where that run ends. *)
Lemma run_readSettlements os attempts pid dm process :
  forall len h s r hr,
    allocatable len = true ->
    processMap s !! pid = Some (AwaitRead dm process len) ->
    getW_loop attempts
              (filling (GetProcessImageFileNameW process)
                       (fun h => getProcessImageFileNameW os h process))
              false len h = (r, hr) ->
    (forall a, r <> Stop a) ->
    exists s' t,
      run (readSettlements os attempts pid process len h) s = Some s'
      /\ hr = h ++ GetProcessImageFileNameW process len :: t
      /\ callsOf pid s' = callsOf pid s ++ t ++ [CloseHandle process]
      /\ processMap s' !! pid
         = Some (AwaitClose process
                   match r with
                   | Val rawPath => Fulfilled (rewritePath rawPath dm)
                   | Exn e => Rejected e
                   | Stop _ => Fulfilled None
                   end).
Proof.
  induction attempts as [|attempts IH]; intros len h s r hr Ha Hentry Hrun Hjs.
  - cbn [getW_loop] in Hrun. inversion Hrun; subst. now destruct (Hjs OutOfFuel).
  - rewrite getW_loop_turn, attempt_afterRead in Hrun by exact Ha.
    cbn [readSettlements run]. unfold step. rewrite Hentry.
    assert (Hclose : forall c,
               callsOf pid (close s pid process c)
               = callsOf pid s ++ [] ++ [CloseHandle process]
               /\ processMap (close s pid process c) !! pid
                  = Some (AwaitClose process c)).
    { intros c. unfold close. now rewrite callsOf_enter, lookup_same, Z.eqb_refl. }
    destruct (afterRead len (getProcessImageFileNameW os h process len)) as [rawPath|e].
    + inversion Hrun; subst. clear Hrun.
      eexists _, []. destruct (Hclose (Fulfilled (rewritePath rawPath dm))).
      now repeat split.
    + destruct (String.eqb (message e) outsideBounds) eqn:Hmsg; cbn [negb andb].
      * destruct (allocatable (len * 2)) eqn:Ha2.
        -- set (s1 := enter s pid (AwaitRead dm process (len * 2))
                            [GetProcessImageFileNameW process (len * 2)]).
           assert (Hentry1 : processMap s1 !! pid = Some (AwaitRead dm process (len * 2)))
             by (unfold s1; apply lookup_same).
           destruct (IH _ _ s1 _ _ Ha2 Hentry1 Hrun Hjs)
             as (s' & t & Hs' & -> & Hcalls & Hentry').
           exists s', (GetProcessImageFileNameW process (len * 2) :: t).
           split; [exact Hs' | split].
           ++ now rewrite <- app_assoc.
           ++ split; [|exact Hentry'].
              rewrite Hcalls. unfold s1. rewrite callsOf_enter, Z.eqb_refl.
              now rewrite <- app_assoc.
        -- destruct attempts as [|attempts].
           ++ cbn [getW_loop] in Hrun. inversion Hrun; subst.
              now destruct (Hjs OutOfFuel).
           ++ rewrite getW_loop_turn, attempt_refused in Hrun by exact Ha2.
              change (String.eqb (message sizeOutOfRange) outsideBounds) with false in Hrun.
              inversion Hrun; subst. clear Hrun.
              eexists _, []. destruct (Hclose (Rejected sizeOutOfRange)).
              now repeat split.
      * inversion Hrun; subst. clear Hrun.
        eexists _, []. destruct (Hclose (Rejected e)). now repeat split.
Qed.

(** A lookup whose [OpenProcess] rejects ends there. *)
Lemma lookupPath_open_rejected os attempts pid dm h e :
  openProcess os h 0x1000 false pid = Rejected e ->
  lookupPath os attempts pid (Some dm) h
  = (Exn e, h ++ [OpenProcess 0x1000 false pid]).
Proof.
  intros Hopen. unfold lookupPath. unfold bind at 1, ret at 1.
  unfold bind at 1, native at 1. now rewrite Hopen.
Qed.

(** A lookup that got a handle ends as its read and its [CloseHandle] end. *)
Lemma lookupPath_with_handle os attempts pid dm h process r hr :
  openProcess os h 0x1000 false pid = Fulfilled process ->
  readImagePath os attempts process (h ++ [OpenProcess 0x1000 false pid]) = (r, hr) ->
  lookupPath os attempts pid (Some dm) h
  = match r with
    | Stop a => (Stop a, hr)
    | Val rawPath =>
        (match closeHandle os hr process with
         | Fulfilled _ => Val (rewritePath rawPath dm)
         | Rejected e => Exn e
         end, hr ++ [CloseHandle process])
    | Exn e0 =>
        (match closeHandle os hr process with
         | Fulfilled _ => Exn e0
         | Rejected e => Exn e
         end, hr ++ [CloseHandle process])
    end.
Proof.
  intros Hopen Hread. unfold lookupPath. unfold bind at 1, ret at 1.
  unfold bind at 1, native at 1. rewrite Hopen.
  unfold try_finally, bind at 1.
  fold (readImagePath os attempts process). rewrite Hread.
  destruct r as [rawPath|e0|a]; [| |reflexivity];
    unfold ret, bind, native; now destruct (closeHandle os hr process).
Qed.

(** X1: the event loop agrees with the sequential run of a lookup.  With
    turns enough for the reads, the lookup run with each call settling
    before the next is issued ends with a value or a throw; and the event
    loop, fed a request for [pid] and then the settlements of that run,
    settles the entry of [pid] to that completion, having issued the very
    calls of the sequential run, in the same order. *)
Theorem eventLoop_follows_lookupPath os attempts pid dm h s :
  suffice attempts 256 ->
  processMap s !! pid = None ->
  exists res h' s' t result,
    lookupPath os attempts pid (Some dm) h = (res, h')
    /\ run (Request pid (Some dm) :: settlements os attempts pid h) s = Some s'
    /\ h' = h ++ t
    /\ callsOf pid s' = callsOf pid s ++ t
    /\ settled res = Some result
    /\ processMap s' !! pid = Some (Settled result).
Proof.
  intros Hfuel Hnone.
  set (s1 := open s pid dm).
  assert (Hstep1 : step s (Request pid (Some dm)) = Some s1)
    by (unfold step; now rewrite Hnone).
  assert (Hentry1 : processMap s1 !! pid = Some (AwaitOpen dm))
    by (unfold s1, open; apply lookup_same).
  assert (Hcalls1 : callsOf pid s1 = callsOf pid s ++ [OpenProcess 0x1000 false pid])
    by (unfold s1, open; now rewrite callsOf_enter, Z.eqb_refl).
  cbn [run]. rewrite Hstep1. unfold settlements. cbv zeta.
  destruct (openProcess os h 0x1000 false pid) as [process|e] eqn:Hopen.
  - set (s2 := enter s1 pid (AwaitRead dm process 256)
                     [GetProcessImageFileNameW process 256]).
    assert (Hstep2 : step s1 (OpenSettled pid (Fulfilled process)) = Some s2)
      by (unfold step; now rewrite Hentry1).
    assert (Hentry2 : processMap s2 !! pid = Some (AwaitRead dm process 256))
      by (unfold s2; apply lookup_same).
    assert (Hcalls2 : callsOf pid s2
                      = callsOf pid s ++ [OpenProcess 0x1000 false pid;
                                          GetProcessImageFileNameW process 256])
      by (unfold s2; rewrite callsOf_enter, Z.eqb_refl, Hcalls1; now rewrite <- app_assoc).
    destruct (readImagePath os attempts process (h ++ [OpenProcess 0x1000 false pid]))
      as [r hr] eqn:Hread.
    assert (Hr : forall a, r <> Stop a).
    { intros a. pose proof (readImagePath_ends os attempts process
                              (h ++ [OpenProcess 0x1000 false pid]) a Hfuel) as H.
      now rewrite Hread in H. }
    rewrite (lookupPath_with_handle _ _ _ _ _ _ _ _ Hopen Hread).
    destruct (run_readSettlements os attempts pid dm process 256 _ s2 r hr
                eq_refl Hentry2 Hread Hr)
      as (s3 & t & Hs3 & -> & Hcalls3 & Hentry3).
    cbn [run]. rewrite Hstep2, run_app, Hs3. cbn [run snd].
    unfold step. rewrite Hentry3.
    assert (Hdone : forall c,
               callsOf pid (enter s3 pid (Settled c) [])
               = callsOf pid s
                 ++ OpenProcess 0x1000 false pid
                    :: GetProcessImageFileNameW process 256 :: t ++ [CloseHandle process]
               /\ processMap (enter s3 pid (Settled c) []) !! pid = Some (Settled c)).
    { intros c. rewrite callsOf_enter, lookup_same, Z.eqb_refl, app_nil_r, Hcalls3, Hcalls2.
      now rewrite <- !app_assoc. }
    assert (Htrace : ((h ++ [OpenProcess 0x1000 false pid])
                      ++ GetProcessImageFileNameW process 256 :: t) ++ [CloseHandle process]
                     = h ++ OpenProcess 0x1000 false pid
                          :: GetProcessImageFileNameW process 256
                          :: t ++ [CloseHandle process])
      by (now rewrite <- !app_assoc).
    rewrite Htrace.
    destruct r as [rawPath|e0|a]; [| |now destruct (Hr a)];
      destruct (closeHandle os _ process) as [c|e];
      eexists _, _, _, _, _;
      (split; [reflexivity | split; [reflexivity | split; [reflexivity |]]]);
      match goal with
      | |- callsOf _ (enter _ _ (Settled ?c) _) = _ /\ _ =>
          destruct (Hdone c) as [Hc He]; rewrite Hc, He; now repeat split
      end.
  - rewrite (lookupPath_open_rejected _ _ _ _ _ _ Hopen).
    cbn [run]. unfold step. rewrite Hentry1.
    exists (Exn e), (h ++ [OpenProcess 0x1000 false pid]),
           (enter s1 pid (Settled (Rejected e)) []), [OpenProcess 0x1000 false pid],
           (Rejected e).
    split; [reflexivity | split; [reflexivity | split; [reflexivity |]]].
    now rewrite callsOf_enter, lookup_same, Z.eqb_refl, app_nil_r, Hcalls1.
Qed.

(* ===================================================================== *)
(** * Further properties of the reader *)
(* ===================================================================== *)

Lemma ucs2_bytes s : Forall (fun b => 0 <= b < 256) (ucs2 s).
Proof.
  induction s as [|u s IH]; [constructor|]. rewrite ucs2_cons.
  repeat constructor; try apply Z.mod_pos_bound; try lia. exact IH.
Qed.

Lemma map_mod_bytes (l : list Z) :
  Forall (fun b => 0 <= b < 256) l -> map (fun b => b mod 256) l = l.
Proof.
  induction 1 as [|b l Hb _ IH]; [reflexivity|]. cbn [map].
  now rewrite IH, Z.mod_small.
Qed.

Lemma length_zeros len : length (zeros len) = Z.to_nat len.
Proof. apply repeat_length. Qed.

Lemma allocatable_spec len : allocatable len = true <-> 0 <= len <= MAX_LENGTH.
Proof. unfold allocatable. rewrite andb_true_iff, Z.leb_le, Z.leb_le. tauto. Qed.

Lemma suffice_next attempts len :
  suffice (S attempts) len -> allocatable len = true -> suffice attempts (len * 2).
Proof.
  intros [Hpos Hmax] Ha. apply allocatable_spec in Ha. split; [lia|].
  destruct attempts as [|attempts].
  - change (Z.of_nat 1 - 1) with 0 in Hmax. rewrite Z.mul_1_r in Hmax. lia.
  - replace (Z.of_nat (S (S attempts)) - 1) with (Z.succ (Z.of_nat (S attempts) - 1))
      in Hmax by lia.
    rewrite Z.pow_succ_r in Hmax by lia. lia.
Qed.

(** Bytes that fit the buffer are found at its start after the call. *)
Lemma fill_fits len (written rest : list Z) :
  Forall (fun b => 0 <= b < 256) written ->
  Z.of_nat (length written) <= len ->
  exists tail, fill (zeros len) (written ++ rest) = written ++ tail.
Proof.
  intros Hbytes Hlen. unfold fill. rewrite length_zeros, map_app, <- app_assoc.
  rewrite (map_mod_bytes written Hbytes), take_app, (take_ge written) by lia.
  eauto.
Qed.

(** Bytes that overflow the buffer are cut at its length. *)
Lemma fill_overflows len (written rest : list Z) :
  Forall (fun b => 0 <= b < 256) written ->
  len <= Z.of_nat (length written) ->
  fill (zeros len) (written ++ rest) = take (Z.to_nat len) written.
Proof.
  intros Hbytes Hlen. unfold fill. rewrite length_zeros, map_app, <- app_assoc.
  rewrite (map_mod_bytes written Hbytes), take_app.
  replace (Z.to_nat len - length written)%nat with 0%nat by lia.
  now rewrite take_0, app_nil_r.
Qed.

Lemma wideString_units s : wideString s -> Forall (fun u => 0 <= u < 65536) s.
Proof. intros H. eapply Forall_impl; [exact H|]. simpl. intros. lia. Qed.

Lemma untilZeros_take_ucs2 s :
  wideString s -> forall n, untilZeros (take n (ucs2 s)) = None.
Proof.
  induction 1 as [|u s Hu _ IH]; intros n; [now destruct n|].
  rewrite ucs2_cons. destruct n as [|[|n]]; [reflexivity .. |].
  cbn [take untilZeros]. rewrite IH.
  destruct ((u mod 256 =? 0) && ((u / 256) mod 256 =? 0)) eqn:E; [|reflexivity].
  exfalso. apply andb_true_iff in E as [E1 E2]. apply Z.eqb_eq in E1, E2.
  rewrite (Z.mod_small (u / 256)) in E2
    by (split; [apply Z.div_pos | apply Z.div_lt_upper_bound]; lia).
  pose proof (Z.div_mod u 256 ltac:(lia)). lia.
Qed.

(** X2: [strArg] round trip.  The buffer [strArg] builds for a string of
    non-null units reads back, as a null-terminated wide string, to that
    string. *)
Theorem strArg_reads_back s :
  wideString s ->
  toString <$> reinterpretUntilZeros (strArg s) 0 = Some s.
Proof.
  intros Hs. unfold strArg, reinterpretUntilZeros. rewrite ucs2_app, drop_0.
  change (ucs2 [0]) with [0; 0].
  rewrite (untilZeros_ucs2 s []) by exact Hs. cbn [fmap option_fmap option_map].
  now rewrite toString_ucs2 by now apply wideString_units.
Qed.

Lemma strArg_reads_back_witness :
  wideString (lit "C:") /\ toString <$> reinterpretUntilZeros (strArg (lit "C:")) 0
                           = Some (lit "C:").
Proof.
  assert (H : wideString (lit "C:")) by (repeat constructor; cbn; lia).
  split; [exact H | exact (strArg_reads_back (lit "C:") H)].
Defined.

Lemma decode_single_fits s rest len :
  wideString s ->
  2 * (Z.of_nat (length s) + 1) <= len ->
  decode false (fill (zeros len) (ucs2 (s ++ [0]) ++ rest)) = Val s.
Proof.
  intros Hs Hlen.
  destruct (fill_fits len (ucs2 (s ++ [0])) rest (ucs2_bytes _)) as [tail Hfill].
  { rewrite length_ucs2, length_app. cbn [length]. lia. }
  rewrite Hfill, ucs2_app, <- app_assoc. change (ucs2 [0]) with [0; 0].
  unfold decode, reinterpretUntilZeros. rewrite drop_0. cbn [app].
  rewrite untilZeros_ucs2 by exact Hs.
  now rewrite toString_ucs2 by now apply wideString_units.
Qed.

Lemma decode_single_overflows s rest len :
  wideString s ->
  len <= 2 * Z.of_nat (length s) ->
  decode false (fill (zeros len) (ucs2 s ++ rest)) = Exn boundsError.
Proof.
  intros Hs Hlen.
  rewrite fill_overflows by (try apply ucs2_bytes; rewrite length_ucs2; lia).
  unfold decode, reinterpretUntilZeros. rewrite drop_0.
  now rewrite untilZeros_take_ucs2.
Qed.

(** A turn whose call returns and whose buffer decodes ends the loop. *)
Lemma getW_loop_filled c reply splitZeros attempts len h written v :
  allocatable len = true ->
  reply h len = Fulfilled written ->
  decode splitZeros (fill (zeros len) written) = Val v ->
  getW_loop (S attempts) (filling c reply) splitZeros len h = (Val v, h ++ [c len]).
Proof.
  intros Ha Hreply Hv.
  now rewrite getW_loop_turn, attempt_filling, Hreply, Hv by exact Ha.
Qed.

(** A turn whose call returns a buffer without terminator is followed by a
    turn at twice the length. *)
Lemma getW_loop_refilled c reply splitZeros attempts len h written :
  allocatable len = true ->
  reply h len = Fulfilled written ->
  decode splitZeros (fill (zeros len) written) = Exn boundsError ->
  getW_loop (S attempts) (filling c reply) splitZeros len h
  = getW_loop attempts (filling c reply) splitZeros (len * 2) (h ++ [c len]).
Proof.
  intros Ha Hreply He.
  now rewrite getW_loop_turn, attempt_filling, Hreply, He by exact Ha.
Qed.

(** X3: single-string read.  When the native call writes a string of
    non-null units and its terminator, and both fit the current buffer,
    [getW] returns exactly that string after that one call, whatever the
    call wrote after the terminator; at a length that [Buffer.alloc]
    refuses there is no buffer and no call, and [getW] throws the error of
    [Buffer.alloc]. *)
Theorem getW_single_string_fits c reply s rest attempts len h :
  wideString s ->
  2 * (Z.of_nat (length s) + 1) <= len ->
  reply h len = Fulfilled (ucs2 (s ++ [0]) ++ rest) ->
  getW_loop (S attempts) (filling c reply) false len h
  = if len <=? MAX_LENGTH then (Val s, h ++ [c len]) else (Exn sizeOutOfRange, h).
Proof.
  intros Hs Hlen Hreply. destruct (Z.leb_spec len MAX_LENGTH) as [Hmax|Hmax].
  - apply (getW_loop_filled c reply false attempts len h _ s
             (proj2 (allocatable_spec len) ltac:(lia)) Hreply).
    now apply decode_single_fits.
  - rewrite getW_loop_turn, attempt_refused; [reflexivity|].
    destruct (allocatable len) eqn:Ha; [|reflexivity].
    apply allocatable_spec in Ha. lia.
Qed.

Lemma getW_single_string_fits_witness :
  wideString Desktop.appRaw
  /\ getW_loop 1 (filling (GetProcessImageFileNameW 107)
                          (fun _ _ => Fulfilled (ucs2 (Desktop.appRaw ++ [0]) ++ [])))
               false 1024 []
     = (Val Desktop.appRaw, [] ++ [GetProcessImageFileNameW 107 1024]).
Proof.
  assert (H : wideString Desktop.appRaw).
  { unfold Desktop.appRaw, Desktop.below, wideString. rewrite !Forall_app.
    repeat split; try (apply Forall_forall; intros x Hx; apply repeat_spec in Hx; lia);
      repeat constructor; cbn; lia. }
  split; [exact H|].
  exact (getW_single_string_fits (GetProcessImageFileNameW 107)
           (fun _ _ => Fulfilled (ucs2 (Desktop.appRaw ++ [0]) ++ []))
           Desktop.appRaw [] 0 1024 [] H ltac:(vm_compute; discriminate) eq_refl).
Defined.

(** X4: a buffer that was filled up.  When the native call writes more
    non-null units than the buffer holds, [getW] does not return the part
    that fits: the read finds no terminator in the buffer, and the loop goes
    on to a call at twice the length. *)
Theorem getW_single_string_overflows c reply s rest attempts len h :
  wideString s ->
  0 <= len <= MAX_LENGTH ->
  len < 2 * Z.of_nat (length s) ->
  reply h len = Fulfilled (ucs2 s ++ rest) ->
  getW_loop (S attempts) (filling c reply) false len h
  = getW_loop attempts (filling c reply) false (len * 2) (h ++ [c len]).
Proof.
  intros Hs Hmax Hlen Hreply.
  apply (getW_loop_refilled c reply false attempts len h _
           (proj2 (allocatable_spec len) Hmax) Hreply).
  apply decode_single_overflows; [exact Hs | lia].
Qed.

Lemma wideString_repeat u n : 0 < u < 65536 -> wideString (repeat u n).
Proof. intros Hu. induction n; cbn [repeat]; now constructor. Qed.

Lemma getW_single_string_overflows_witness :
  wideString (repeat 120 200)
  /\ getW_loop 2 (filling (GetWindowTextW 10)
                          (fun _ _ => Fulfilled (ucs2 (repeat 120 200) ++ [0; 0])))
               false 256 []
     = (Val (repeat 120 200), [GetWindowTextW 10 256; GetWindowTextW 10 512]).
Proof.
  assert (H : wideString (repeat 120 200)) by (apply wideString_repeat; lia).
  split; [exact H|].
  rewrite (getW_single_string_overflows (GetWindowTextW 10)
             (fun _ _ => Fulfilled (ucs2 (repeat 120 200) ++ [0; 0]))
             (repeat 120 200) [0; 0] 1 256 [] H);
    [vm_compute; reflexivity
    | unfold MAX_LENGTH; lia
    | rewrite repeat_length; lia
    | reflexivity].
Defined.

(** X5: titles that fit.  With a title of non-null units, [getTitleByHwnd]
    of [index.mjs] returns it after one call at length 256 when title and
    terminator fit 256 bytes (127 units), and that of [index.cjs] after one
    call at length 25565 when they fit 25565 bytes (12781 units). *)
Theorem getTitleByHwnd_fits os attempts hwnd s h :
  wideString s ->
  (forall len, getWindowTextW os h hwnd len = Fulfilled (ucs2 (s ++ [0]))) ->
  (2 * (Z.of_nat (length s) + 1) <= 256 ->
   Mjs.getTitleByHwnd os (S attempts) hwnd h
   = (Val s, h ++ [GetWindowTextW hwnd 256]))
  /\ (2 * (Z.of_nat (length s) + 1) <= 25565 ->
      Cjs.getTitleByHwnd os (S attempts) hwnd h
      = (Val s, h ++ [GetWindowTextW hwnd 25565])).
Proof.
  intros Hs Hreply.
  unfold Mjs.getTitleByHwnd, Mjs.getW, Cjs.getTitleByHwnd, Cjs.getW.
  change (default 256 (Some 25565)) with 25565.
  split; intros Hlen.
  - apply (getW_loop_filled (GetWindowTextW hwnd) (fun h => getWindowTextW os h hwnd)
             false attempts 256 h _ s eq_refl (Hreply _)).
    rewrite <- (app_nil_r (ucs2 (s ++ [0]))). now apply decode_single_fits.
  - apply (getW_loop_filled (GetWindowTextW hwnd) (fun h => getWindowTextW os h hwnd)
             false attempts 25565 h _ s eq_refl (Hreply _)).
    rewrite <- (app_nil_r (ucs2 (s ++ [0]))). now apply decode_single_fits.
Qed.

Lemma getTitleByHwnd_fits_witness :
  wideString (lit "Editor")
  /\ Mjs.getTitleByHwnd Desktop.os 1 10 [GetForegroundWindow]
     = (Val (lit "Editor"), [GetForegroundWindow] ++ [GetWindowTextW 10 256])
  /\ Cjs.getTitleByHwnd Desktop.os 1 10 [GetForegroundWindow]
     = (Val (lit "Editor"), [GetForegroundWindow] ++ [GetWindowTextW 10 25565]).
Proof.
  assert (H : wideString (lit "Editor")) by (repeat constructor; cbn; lia).
  destruct (getTitleByHwnd_fits Desktop.os 0 10 (lit "Editor")
              [GetForegroundWindow] H (fun _ => eq_refl)) as (Hm & Hc).
  split; [exact H | split].
  - apply Hm. cbn. lia.
  - apply Hc. cbn. lia.
Defined.

Lemma splitLoop_nonEmpty turns buf :
  forall offset results l,
    splitLoop turns buf offset results = Val l ->
    Forall (fun s => s <> []) results ->
    Forall (fun s => s <> []) (removelast l).
Proof.
  induction turns as [|turns IH]; intros offset results l H Hres; cbn [splitLoop] in H;
    [discriminate|].
  destruct (reinterpretUntilZeros buf offset) as [run|]; [|discriminate].
  destruct (nonEmpty (toString run)) eqn:Hne.
  - apply IH in H; [exact H|]. apply Forall_app. split; [exact Hres|].
    constructor; [|constructor]. intros E. rewrite E in Hne. discriminate.
  - inversion H; subst. now rewrite removelast_last.
Qed.

(** What [getW] returns was decoded from a buffer. *)
Lemma getW_loop_decoded func splitZeros attempts :
  forall len h v h',
    getW_loop attempts func splitZeros len h = (Val v, h') ->
    exists buf, decode splitZeros buf = Val v.
Proof.
  induction attempts as [|attempts IH]; intros len h v h' H; [discriminate|].
  rewrite getW_loop_turn in H.
  destruct (allocatable len) eqn:Ha.
  - rewrite attempt_allocated in H by exact Ha.
    destruct (func (zeros len) len h) as [[buf|e|r] h1].
    + destruct (decode splitZeros buf) as [v0|e|r] eqn:Hd.
      * inversion H; subst. eauto.
      * destruct (String.eqb (message e) outsideBounds); [eauto | discriminate].
      * discriminate.
    + destruct (String.eqb (message e) outsideBounds); [eauto | discriminate].
    + discriminate.
  - rewrite attempt_refused in H by exact Ha. discriminate.
Qed.

Lemma multi_strings_nonEmpty func attempts len h strings h' :
  getW_loop attempts func true len h = (Val strings, h') ->
  Forall (fun s => s <> []) strings.
Proof.
  intros H. apply getW_loop_decoded in H as [buf Hbuf]. unfold decode in Hbuf.
  destruct (splitLoop (S (length buf)) buf 0 []) as [l| |] eqn:Hl; try discriminate.
  inversion Hbuf; subst. eapply splitLoop_nonEmpty; [exact Hl | constructor].
Qed.

(** X6: no empty string in a multi-string.  Whatever the native call wrote,
    the array [getW] returns in multi-string mode holds no empty string. *)
Theorem getW_multi_string_no_empty func attempts len h strings h' :
  getW_loop attempts func true len h = (Val strings, h') ->
  Forall (fun s => s <> []) strings.
Proof.
  exact (multi_strings_nonEmpty func attempts len h strings h').
Qed.

Lemma getW_multi_string_no_empty_witness :
  getW_loop 1 (filling GetLogicalDriveStringsW (getLogicalDriveStringsW Desktop.os))
            true 256 []
  = (Val [lit "C:\"], [GetLogicalDriveStringsW 256])
  /\ Forall (fun s : jsstring => s <> []) [lit "C:\"].
Proof.
  assert (H : getW_loop 1 (filling GetLogicalDriveStringsW
                                   (getLogicalDriveStringsW Desktop.os)) true 256 []
              = (Val [lit "C:\"], [GetLogicalDriveStringsW 256]))
    by (vm_compute; reflexivity).
  split; [exact H | exact (getW_multi_string_no_empty _ _ _ _ _ _ H)].
Defined.

Lemma doublings_S c len n :
  doublings c len (S n) = c len :: doublings c (len * 2) n.
Proof.
  unfold doublings. cbn [seq map]. rewrite Z.mul_1_r. f_equal.
  rewrite <- seq_shift, map_map. apply map_ext. intros i.
  rewrite Nat2Z.inj_succ, Z.pow_succ_r by lia. f_equal. lia.
Qed.

(** X7: the retries end.  On a filling call and with turns enough, [getW]
    ends with a value or a throw, whatever the system answers: the calls it
    has issued by then are those at [len], [2 len], [4 len], ..., each at a
    length that [Buffer.alloc] accepts, so there are at most as many as
    there are such lengths. *)
Theorem getW_retries_end c reply splitZeros attempts :
  forall len h,
    suffice attempts len ->
    exists r n,
      getW_loop attempts (filling c reply) splitZeros len h
      = (r, h ++ doublings c len n)
      /\ (forall a, r <> Stop a)
      /\ (n <= attempts)%nat
      /\ forall i, (i < n)%nat -> len * 2 ^ Z.of_nat i <= MAX_LENGTH.
Proof.
  induction attempts as [|attempts IH]; intros len h Hfuel.
  - exfalso. destruct Hfuel as [_ Hmax]. change (Z.of_nat 0 - 1) with (-1) in Hmax.
    rewrite Z.pow_neg_r, Z.mul_0_r in Hmax by lia. unfold MAX_LENGTH in Hmax. lia.
  - rewrite getW_loop_turn.
    destruct (allocatable len) eqn:Ha.
    + rewrite attempt_filling by exact Ha.
      assert (Hone : forall r : Res (result_of splitZeros),
                 (forall a, r <> Stop a) ->
                 exists r' n,
                   (r, h ++ [c len]) = (r', h ++ doublings c len n)
                   /\ (forall a, r' <> Stop a)
                   /\ (n <= S attempts)%nat
                   /\ forall i, (i < n)%nat -> len * 2 ^ Z.of_nat i <= MAX_LENGTH).
      { intros r Hr. exists r, 1%nat.
        split; [now rewrite doublings_S | split; [exact Hr | split; [lia|]]].
        intros i Hi. replace i with 0%nat by lia. apply allocatable_spec in Ha.
        rewrite Z.mul_1_r. lia. }
      assert (Hmore : forall e,
                 String.eqb (message e) outsideBounds = true ->
                 exists r n,
                   getW_loop attempts (filling c reply) splitZeros (len * 2) (h ++ [c len])
                   = (r, h ++ doublings c len n)
                   /\ (forall a, r <> Stop a)
                   /\ (n <= S attempts)%nat
                   /\ forall i, (i < n)%nat -> len * 2 ^ Z.of_nat i <= MAX_LENGTH).
      { intros e _.
        destruct (IH (len * 2) (h ++ [c len]) (suffice_next _ _ Hfuel Ha))
          as (r & n & Hrun & Hr & Hn & Hlens).
        exists r, (S n). rewrite Hrun, doublings_S, <- app_assoc.
        split; [reflexivity | split; [exact Hr | split; [lia|]]].
        intros [|i] Hi.
        - apply allocatable_spec in Ha. rewrite Z.mul_1_r. lia.
        - rewrite Nat2Z.inj_succ, Z.pow_succ_r, Z.mul_assoc by lia. apply Hlens. lia. }
      destruct (reply h len) as [written|e].
      * pose proof (decode_ends splitZeros (fill (zeros len) written)) as Hd.
        destruct (decode splitZeros (fill (zeros len) written)) as [v|e|r0].
        -- apply Hone. discriminate.
        -- destruct (String.eqb (message e) outsideBounds) eqn:Hmsg;
             [now apply (Hmore e) | apply Hone; discriminate].
        -- now destruct (Hd r0).
      * destruct (String.eqb (message e) outsideBounds) eqn:Hmsg;
          [now apply (Hmore e) | apply Hone; discriminate].
    + rewrite attempt_refused by exact Ha.
      change (String.eqb (message sizeOutOfRange) outsideBounds) with false.
      exists (Exn sizeOutOfRange), 0%nat. unfold doublings. cbn [seq map].
      rewrite app_nil_r. split; [reflexivity | split; [discriminate | split; [lia|]]].
      intros i Hi. lia.
Qed.

Lemma getW_retries_end_witness :
  suffice 26 256
  /\ getW_loop 26 (filling (GetWindowTextW 10) (fun h => getWindowTextW Desktop.longTitle h 10))
               false 256 []
     = (Val (repeat 120 200), [] ++ doublings (GetWindowTextW 10) 256 2)
  /\ exists r n,
      getW_loop 26 (filling (GetWindowTextW 10) (fun h => getWindowTextW Desktop.longTitle h 10))
                false 256 []
      = (r, [] ++ doublings (GetWindowTextW 10) 256 n)
      /\ (forall a, r <> Stop a)
      /\ (n <= 26)%nat
      /\ forall i, (i < n)%nat -> 256 * 2 ^ Z.of_nat i <= MAX_LENGTH.
Proof.
  assert (Hfuel : suffice 26 256) by (split; vm_compute; reflexivity).
  split; [exact Hfuel | split; [vm_compute; reflexivity |]].
  exact (getW_retries_end (GetWindowTextW 10) (fun h => getWindowTextW Desktop.longTitle h 10)
           false 26 256 [] Hfuel).
Defined.

(** * Further properties of the simple queries *)

Lemma le32_value d :
  0 <= d < 2 ^ 32 ->
  d mod 256 + 2 ^ 8 * ((d / 256) mod 256) + 2 ^ 16 * ((d / 65536) mod 256)
  + 2 ^ 24 * ((d / 16777216) mod 256) = d.
Proof.
  intros Hd.
  change 65536 with (256 * 256). change 16777216 with (256 * 256 * 256).
  rewrite <- !Z.div_div by lia.
  pose proof (Z.div_mod d 256 ltac:(lia)).
  pose proof (Z.div_mod (d / 256) 256 ltac:(lia)).
  pose proof (Z.div_mod (d / 256 / 256) 256 ltac:(lia)).
  assert (0 <= d / 256 / 256 / 256 < 256).
  { split; [repeat apply Z.div_pos; lia|].
    repeat (apply Z.div_lt_upper_bound; [lia|]). lia. }
  rewrite (Z.mod_small (d / 256 / 256 / 256)) by lia.
  change (2 ^ 8) with 256. change (2 ^ 16) with (256 * 256).
  change (2 ^ 24) with (256 * 256 * 256). lia.
Qed.

(** X8: the process id is read as a signed 32-bit integer.  When the system
    writes the DWORD [d] for the owner of the window, [getPidByHwnd]
    returns [d] below 2^31 and [d - 2^32], a negative number, from 2^31
    on. *)
Theorem getPidByHwnd_signed os hwnd h d :
  0 <= d < 2 ^ 32 ->
  getWindowThreadProcessId os h hwnd = Fulfilled (le32 d) ->
  getPidByHwnd os hwnd h
  = (Val (if d <? 2 ^ 31 then d else d - 2 ^ 32),
     h ++ [GetWindowThreadProcessId hwnd]).
Proof.
  intros Hd Hreply. unfold getPidByHwnd, bind, native, ret. rewrite Hreply.
  f_equal. f_equal. unfold le32, fill, readInt32LE.
  change (zeros 8) with (repeat 0 8). cbn [repeat length map app drop take nth].
  rewrite !Z.mod_mod by lia. now rewrite le32_value.
Qed.

Lemma getPidByHwnd_signed_witness :
  0 <= 4294967295 < 2 ^ 32
  /\ getPidByHwnd highPid 10 [] = (Val (-1), [] ++ [GetWindowThreadProcessId 10]).
Proof.
  split; [lia|].
  exact (getPidByHwnd_signed highPid 10 [] 4294967295 ltac:(lia) eq_refl).
Defined.

(* ===================================================================== *)
(** * Further properties of the drive map and the path lookup *)
(* ===================================================================== *)

(** A replacement text without a dollar sign stands for itself. *)
Lemma getSubstitution_plain matched before after replacement :
  ~ In 36 replacement ->
  getSubstitution matched before after replacement = replacement.
Proof.
  induction replacement as [|c replacement IH]; intros Hno; [reflexivity|].
  cbn [getSubstitution]. destruct (Z.eqb_spec c 36) as [->|_].
  - destruct Hno. now left.
  - f_equal. apply IH. intros Hin. apply Hno. now right.
Qed.

(** X9: the rewriting of a raw path.  When [getPathByPid]'s loop over the
    drive map gives a path, the raw path starts with the device name of
    some entry, no earlier entry's device name is a prefix of it, and the
    path is what [replace] makes of the drive letter and a colon as a
    replacement text, followed by what follows the device name in the raw
    path: the drive letter, a colon and that remainder whenever the drive
    letter holds no dollar sign.  When the loop gives no path, no device
    name in the map is a prefix of the raw path. *)
Theorem rewritePath_replaces_first_prefix rawPath driveMap :
  match rewritePath rawPath driveMap with
  | Some p =>
      exists earlier driveLetter deviceName later rest,
        driveMap = earlier ++ (driveLetter, deviceName) :: later
        /\ Forall (fun entry => startsWith (snd entry) rawPath = false) earlier
        /\ rawPath = deviceName ++ rest
        /\ p = getSubstitution deviceName [] rest (driveLetter ++ lit ":") ++ rest
        /\ (~ In 36 driveLetter -> p = driveLetter ++ lit ":" ++ rest)
  | None => Forall (fun entry => forall rest, rawPath <> snd entry ++ rest) driveMap
  end.
Proof.
  induction driveMap as [|[driveLetter deviceName] driveMap IH]; cbn [rewritePath].
  - constructor.
  - destruct (startsWith deviceName rawPath) eqn:Hstarts.
    + exists [], driveLetter, deviceName, driveMap, (drop (length deviceName) rawPath).
      split; [reflexivity | split; [constructor | split; [now apply startsWith_drop|]]].
      split; [reflexivity|]. intros Hno. cbv zeta.
      rewrite getSubstitution_plain, <- app_assoc; [reflexivity|].
      intros Hin. apply in_app_or in Hin as [Hin|Hin]; [now apply Hno|].
      cbn in Hin. destruct Hin as [Hin|[]]. discriminate.
    + destruct (rewritePath rawPath driveMap) as [p|].
      * destruct IH as (earlier & dl & dn & later & rest & -> & Hearlier & Hraw & Hp).
        exists ((driveLetter, deviceName) :: earlier), dl, dn, later, rest.
        split; [reflexivity | split; [now constructor | now split]].
      * constructor; [|exact IH]. cbn [snd]. intros rest Hraw.
        assert (startsWith deviceName rawPath = true)
          by (apply startsWith_spec; now exists rest).
        congruence.
Qed.

Lemma setProperty_keys k v o k' :
  In k' (map fst (setProperty k v o)) <-> k' = k \/ In k' (map fst o).
Proof.
  induction o as [|[k0 v0] o IH]; cbn [setProperty map fst In]; [intuition|].
  destruct (bool_decide (k0 = k)) eqn:Hk.
  - apply bool_decide_eq_true in Hk. subst. cbn [map fst In]. intuition.
  - destruct (isIndexKey k && _); cbn [map fst In]; [intuition|].
    rewrite IH. intuition.
Qed.

Lemma Object_fromEntries_keys entries k :
  In k (map fst (Object_fromEntries entries)) <-> In k (map fst entries).
Proof.
  unfold Object_fromEntries.
  assert (H : forall o, In k (map fst (fold_left (fun o kv => setProperty (fst kv) (snd kv) o)
                                        entries o))
                        <-> In k (map fst entries) \/ In k (map fst o)).
  { induction entries as [|[k0 v0] entries IH]; intros o; cbn [fold_left map fst In].
    - intuition.
    - rewrite IH, setProperty_keys. cbn [fst snd]. intuition. }
  rewrite H. cbn. intuition.
Qed.

Lemma mapM_start_keys os attempts letters :
  forall h promises h' result,
    mapM (fun dl => start (queryDevice os attempts dl)) letters h = (Val promises, h') ->
    Promise_all promises = Fulfilled result ->
    map fst result = letters.
Proof.
  induction letters as [|dl letters IH]; intros h promises h' result H Hall;
    cbn [mapM] in H.
  - apply ret_Val in H as [<- _]. cbn in Hall. now inversion Hall.
  - apply bind_Val in H as (p & h1 & Hp & H).
    apply bind_Val in H as (ps & h2 & Hps & H).
    apply ret_Val in H as [<- _].
    apply Promise_all_cons in Hall as (a & l & -> & Hl & ->).
    cbn [map]. f_equal; [|exact (IH _ _ _ _ Hps Hl)].
    apply start_Val in Hp. unfold queryDevice in Hp.
    apply bind_Val in Hp as (device & h3 & _ & Hret).
    apply ret_Val in Hret as [<- _]. reflexivity.
Qed.

(** X10: the keys of the drive map.  When [getDriveMap] returns a map, the
    read of the drive strings returned a list, and the keys of the map are
    the first units of those strings, no more and no fewer; each key is one
    unit long. *)
Theorem getDriveMap_keys os attempts h driveMap h' :
  getDriveMap os attempts h = (Val driveMap, h') ->
  exists driveLetters h1,
    readDriveStrings os attempts h = (Val driveLetters, h1)
    /\ (forall k, In k (map fst driveMap) <-> In k (map (take 1) driveLetters))
    /\ Forall (fun entry => length (fst entry) = 1%nat) driveMap.
Proof.
  intros H. unfold getDriveMap in H.
  apply bind_Val in H as (driveLetters & h1 & Hread & H).
  apply bind_Val in H as (promises & h2 & Hmap & H).
  apply bind_Val in H as (result & h3 & Hall & H).
  apply await_Val in Hall as [Hall ->]. apply ret_Val in H as [<- _].
  pose proof (mapM_start_keys os attempts _ _ _ _ _ Hmap Hall) as Hkeys.
  exists driveLetters, h1. split; [exact Hread|].
  assert (Hiff : forall k, In k (map fst (Object_fromEntries result))
                           <-> In k (map (take 1) driveLetters))
    by (intros k; now rewrite Object_fromEntries_keys, Hkeys).
  split; [exact Hiff|].
  apply List.Forall_forall. intros [k v] Hin. cbn [fst].
  assert (Hk : In k (map (take 1) driveLetters))
    by (apply Hiff, in_map_iff; now exists (k, v)).
  apply in_map_iff in Hk as (dl & <- & Hdl).
  pose proof (multi_strings_nonEmpty _ _ _ _ _ _ Hread) as Hne.
  rewrite List.Forall_forall in Hne. specialize (Hne dl Hdl).
  destruct dl; [congruence | reflexivity].
Qed.

Lemma getDriveMap_keys_witness :
  getDriveMap Desktop.os 1 []
  = (Val [(lit "C", Desktop.volume1)],
     [GetLogicalDriveStringsW 256; QueryDosDeviceW (strArg (lit "C:")) 256])
  /\ exists driveLetters h1,
      readDriveStrings Desktop.os 1 [] = (Val driveLetters, h1)
      /\ (forall k, In k (map fst [(lit "C", Desktop.volume1)])
                    <-> In k (map (take 1) driveLetters))
      /\ Forall (fun entry : jsstring * jsstring => length (fst entry) = 1%nat)
                [(lit "C", Desktop.volume1)].
Proof.
  assert (H : getDriveMap Desktop.os 1 []
              = (Val [(lit "C", Desktop.volume1)],
                 [GetLogicalDriveStringsW 256; QueryDosDeviceW (strArg (lit "C:")) 256]))
    by (vm_compute; reflexivity).
  split; [exact H | exact (getDriveMap_keys _ _ _ _ _ H)].
Defined.

(** X11: a lookup is remembered.  After a call of [getPathByPid] with a
    process map, the map holds the promise the call returned under that
    pid, and any further call with that pid and that map, with whatever
    drive map and at whatever time, returns the same promise and issues no
    native call, be the promise fulfilled or rejected. *)
Theorem getPathByPid_remembers os attempts pid driveMap processMap h promise processMap' h' :
  getPathByPid os attempts pid driveMap (Some processMap) h
  = (Val (promise, processMap'), h') ->
  processMap' !! pid = Some promise
  /\ forall driveMap' h2,
      getPathByPid os attempts pid driveMap' (Some processMap') h2
      = (Val (promise, processMap'), h2).
Proof.
  intros H. unfold getPathByPid in H.
  change (default ∅ (Some processMap)) with processMap in H.
  assert (Hentry : processMap' !! pid = Some promise).
  { destruct (processMap !! pid) as [p|] eqn:Hp.
    - apply ret_Val in H as [E _]. now inversion E; subst.
    - apply bind_Val in H as (p & h1 & _ & H). apply ret_Val in H as [E _].
      inversion E; subst. apply lookup_insert_eq. }
  split; [exact Hentry|]. intros driveMap' h2. unfold getPathByPid.
  change (default ∅ (Some processMap')) with processMap'. now rewrite Hentry.
Qed.

Lemma getPathByPid_remembers_witness :
  getPathByPid Desktop.remote 1 7 (Some driveC) (Some ∅) []
  = (Val (Fulfilled None, <[7 := Fulfilled None]> ∅),
     [OpenProcess 0x1000 false 7; GetProcessImageFileNameW 107 256; CloseHandle 107])
  /\ getPathByPid Desktop.remote 1 7 None (Some (<[7 := Fulfilled None]> ∅))
                  [EnumWindows]
     = (Val (Fulfilled None, <[7 := Fulfilled None]> ∅), [EnumWindows]).
Proof.
  assert (H : getPathByPid Desktop.remote 1 7 (Some driveC) (Some ∅) []
              = (Val (Fulfilled None, <[7 := Fulfilled None]> ∅),
                 [OpenProcess 0x1000 false 7; GetProcessImageFileNameW 107 256;
                  CloseHandle 107])) by (vm_compute; reflexivity).
  split; [exact H|].
  exact (proj2 (getPathByPid_remembers _ _ _ _ _ _ _ _ _ H) None [EnumWindows]).
Defined.

(** X12: processes are opened for query only.  Every [OpenProcess] call that
    [getPathByPid] issues, in whatever state of the process map and with or
    without a drive map, asks for access 0x1000 on the pid it was given,
    without handle inheritance. *)
Theorem getPathByPid_opens_for_query_only os attempts pid driveMap processMap :
  emits (queryOnly pid) (getPathByPid os attempts pid driveMap processMap).
Proof.
  assert (Hother : forall c, isOpenProcess c = false -> queryOnly pid c)
    by (intros c Hc a i p ->; discriminate).
  unfold getPathByPid. destruct (default ∅ processMap !! pid); [apply emits_ret|].
  apply emits_bind; [|intros; apply emits_ret].
  apply emits_start. unfold lookupPath. apply emits_bind.
  - destruct driveMap; [apply emits_ret|].
    eapply emits_weaken; [|apply emits_getDriveMap].
    intros c Hc. apply Hother. now destruct c.
  - intros dm. apply emits_bind.
    + apply emits_native. intros a i p E. now inversion E.
    + intros process. apply emits_try_finally.
      * apply emits_bind; [|intros; apply emits_ret].
        apply (emits_getW_loop _ false). intros. apply emits_filling.
        intros l. now apply Hother.
      * apply emits_bind; [|intros; apply emits_ret].
        apply emits_native. now apply Hother.
Qed.

(* ===================================================================== *)
(** * Further properties of the field resolver *)
(* ===================================================================== *)

Section FieldFurther.

Variable os : Native.
Variable attempts : nat.
Variable getTitleByHwnd : Z -> M jsstring.

Hypothesis title_calls :
  forall hwnd, emits (fun c => computes Title c = true) (getTitleByHwnd hwnd).

Lemma startAll_cons window fields driveMap m rest values processMap :
  startAll os attempts getTitleByHwnd window fields driveMap (m :: rest) values processMap
  = if negb (includes fields m) || truthy window m
    then startAll os attempts getTitleByHwnd window fields driveMap rest values processMap
    else bind (startMember os attempts getTitleByHwnd window driveMap m values processMap)
              (fun r => startAll os attempts getTitleByHwnd window fields driveMap rest
                                 (fst r) (snd r)).
Proof. reflexivity. Qed.

Lemma not_wanted_not_started window fields driveMap processMap h values processMap' h' m :
  wanted window fields m = false ->
  (m = Pid -> wanted window fields Path = false) ->
  startAll os attempts getTitleByHwnd window fields driveMap windowMembers
           noValues processMap h = (Val (values, processMap'), h') ->
  has values m = false.
Proof.
  intros Hw Hp H. apply startAll_has in H as (Hhas & _ & _). rewrite Hhas.
  destruct m; cbn [windowMembers existsb member_eqb has noValues v_hwnd v_title
                     v_pid v_path v_visible];
    rewrite ?Hw, ?(Hp eq_refl);
    repeat match goal with
           | |- context [wanted ?a ?b ?c] => destruct (wanted a b c)
           end; reflexivity.
Qed.

(** A member that is not computed is neither read from the system nor
    written. *)
Lemma fillWindowFields_not_wanted window fields driveMap processMap m :
  wanted window (default windowMembers fields) m = false ->
  (m = Pid -> wanted window (default windowMembers fields) Path = false) ->
  emits (fun c => computes m c = false)
        (fillWindowFields os attempts getTitleByHwnd window fields driveMap processMap)
  /\ forall h r window' processMap' h',
      fillWindowFields os attempts getTitleByHwnd window fields driveMap processMap h
      = (Val (r, window', processMap'), h') ->
      get window' m = get window m.
Proof.
  intros Hw Hp. split.
  - apply (emits_fillWindowFields os attempts getTitleByHwnd title_calls).
    intros m0 Hm0 c Hc. apply (memberCalls_other m0 m c Hc).
    + intros ->. congruence.
    + intros -> ->. rewrite (Hp eq_refl) in Hm0. discriminate.
  - intros h r window' processMap' h' H. unfold fillWindowFields in H.
    apply bind_Val in H as ([values pm] & h1 & Hrun & H).
    apply ret_Val in H as [E _]. cbn [fst snd] in E. inversion E; subst.
    pose proof (startAll_hwndKept _ _ _ _ _ _ _ _ _ _ _ Hrun) as [Hk _].
    apply (not_wanted_not_started _ _ _ _ _ _ _ _ m Hw Hp) in Hrun.
    exact (assignAll_get values windowMembers m Hrun window Hk).
Qed.

Lemma startMember_title_kept window driveMap m values processMap h values' processMap' h' :
  m <> Title -> m <> Hwnd ->
  startMember os attempts getTitleByHwnd window driveMap m values processMap h
  = (Val (values', processMap'), h') ->
  v_title values' = v_title values /\ v_hwnd values' = v_hwnd values.
Proof.
  intros Ht Hh H. destruct m; try congruence; cbn [startMember] in H; invert_M;
    now split.
Qed.

Lemma startAll_title_kept window fields driveMap members :
  ~ In Title members -> ~ In Hwnd members ->
  forall values processMap h values' processMap' h',
  startAll os attempts getTitleByHwnd window fields driveMap members values processMap h
  = (Val (values', processMap'), h') ->
  v_title values' = v_title values /\ v_hwnd values' = v_hwnd values.
Proof.
  induction members as [|m members IH];
    intros Ht Hh values processMap h values' processMap' h' H.
  - apply ret_Val in H as [E _]. inversion E; subst. now split.
  - rewrite startAll_cons in H.
    assert (Hm : ~ In Title members /\ ~ In Hwnd members /\ m <> Title /\ m <> Hwnd)
      by (cbn [In] in Ht, Hh; intuition congruence).
    destruct Hm as (Ht' & Hh' & Hm1 & Hm2).
    destruct (negb (includes fields m) || truthy window m).
    + exact (IH Ht' Hh' _ _ _ _ _ _ H).
    + apply bind_Val in H as ([values1 pm1] & h1 & Hm & H). cbn [fst snd] in H.
      apply (startMember_title_kept _ _ _ _ _ _ _ _ _ Hm1 Hm2) in Hm as [E1 E2].
      destruct (IH Ht' Hh' _ _ _ _ _ _ H) as [E3 E4]. split; congruence.
Qed.

Lemma startAll_title_rejected window fields driveMap processMap h e h1 values processMap' h' :
  wanted window fields Title = true ->
  getTitleByHwnd (hwnd window) h = (Exn e, h1) ->
  startAll os attempts getTitleByHwnd window fields driveMap windowMembers
           noValues processMap h = (Val (values, processMap'), h') ->
  v_title values = Some (Rejected e).
Proof.
  intros Hw Htitle H.
  assert (Hskip : negb (includes fields Title) || truthy window Title = false)
    by (unfold wanted in Hw; destruct (includes fields Title), (truthy window Title);
        simpl in *; congruence).
  assert (Hfrom : forall values0,
             startAll os attempts getTitleByHwnd window fields driveMap
                      [Title; Pid; Path; Visible] values0 processMap h
             = (Val (values, processMap'), h') ->
             v_title values = Some (Rejected e)).
  { intros values0 H0. rewrite startAll_cons, Hskip in H0.
    apply bind_Val in H0 as ([values1 pm1] & h2 & Hm & H0). cbn [startMember] in Hm.
    apply bind_Val in Hm as (p & h3 & Hp & Hm). apply start_Val in Hp.
    rewrite Htitle in Hp.
    apply ret_Val in Hm as [E _]. inversion E; subst. cbn [fst snd] in H0.
    apply startAll_title_kept in H0 as [E1 _];
      [| cbn [In]; intuition discriminate ..].
    rewrite E1. cbn [v_title]. destruct p as [a|e']; inversion Hp; reflexivity. }
  unfold windowMembers in H. rewrite startAll_cons in H.
  destruct (negb (includes fields Hwnd) || truthy window Hwnd).
  - exact (Hfrom _ H).
  - apply bind_Val in H as ([values0 pm0] & h0 & Hm & H). cbn [startMember] in Hm.
    apply ret_Val in Hm as [E <-]. inversion E; subst. cbn [fst snd] in H.
    exact (Hfrom _ H).
Qed.

Lemma assignAll_title_rejected values window e :
  v_title values = Some (Rejected e) -> hwndKept window values ->
  assignAll values windowMembers window = (Rejected e, window).
Proof.
  intros Ht Hk. destruct window as [wh wt wp wpa wv], values as [vh vt vp vpa vv].
  cbn in Ht. subst vt. unfold hwndKept in Hk. cbn in Hk.
  destruct vh as [x|]; cbn; [rewrite (Hk x eq_refl)|]; reflexivity.
Qed.

(** When reading the title throws, the call is rejected with that error and
    the record is as it was. *)
Lemma fillWindowFields_title_fails window fields driveMap processMap h e h1 r window'
      processMap' h' :
  wanted window (default windowMembers fields) Title = true ->
  getTitleByHwnd (hwnd window) h = (Exn e, h1) ->
  fillWindowFields os attempts getTitleByHwnd window fields driveMap processMap h
  = (Val (r, window', processMap'), h') ->
  r = Rejected e /\ window' = window.
Proof.
  intros Hw Ht H. unfold fillWindowFields in H.
  apply bind_Val in H as ([values pm1] & h2 & Hrun & H).
  apply ret_Val in H as [E _]. cbn [fst snd] in E.
  pose proof (startAll_hwndKept _ _ _ _ _ _ _ _ _ _ _ Hrun) as [Hk _].
  rewrite (assignAll_title_rejected values window e
             (startAll_title_rejected _ _ _ _ _ _ _ _ _ _ Hw Ht Hrun) Hk) in E.
  cbn [fst snd] in E. inversion E. now split.
Qed.

(** The record [getWindowByHwnd] is fulfilled with. *)
Lemma getWindowByHwnd_fulfilled x fields driveMap processMap h window processMap' h' :
  getWindowByHwnd os attempts getTitleByHwnd x fields driveMap processMap h
  = (Val (Fulfilled window, processMap'), h') ->
  hwnd window = x
  /\ (forall m, m <> Hwnd -> asked fields m = false -> get window m = Undefined)
  /\ (forall m, includes (default windowMembers fields) m = true -> m <> Path ->
                get window m <> Undefined).
Proof.
  intros H. unfold getWindowByHwnd in H.
  apply bind_Val in H as ([[r w] pm] & h1 & Hfill & H).
  apply ret_Val in H as [E _]. cbn [fst snd] in E.
  destruct r as [[]|e]; inversion E; subst. clear E.
  split; [|split].
  - now destruct (fillWindowFields_keptFrom os attempts getTitleByHwnd title_calls
                    _ _ _ _ _ _ _ _ _ Hfill).
  - intros m Hm Hasked. unfold asked in Hasked.
    apply orb_false_iff in Hasked as [Hin Hpid].
    destruct (fillWindowFields_not_wanted (Window_new x) fields driveMap processMap m)
      as [_ Hget].
    + unfold wanted. now rewrite Hin.
    + intros ->. cbn [member_eqb andb] in Hpid. unfold wanted. now rewrite Hpid.
    + rewrite (Hget _ _ _ _ _ Hfill). now destruct m.
  - intros m Hin Hm. unfold fillWindowFields in Hfill.
    apply bind_Val in Hfill as ([values pm0] & h2 & Hrun & Hfill).
    apply ret_Val in Hfill as [E _]. cbn [fst snd] in E.
    destruct (assignAll values windowMembers (Window_new x)) as [r w1] eqn:Hassign.
    cbn [fst snd] in E. inversion E; subst. clear E.
    destruct (member_eqb m Hwnd) eqn:Eh; [destruct m; try discriminate; discriminate|].
    apply startAll_has in Hrun as (Hhas & _ & _).
    apply (assignAll_assigned _ _ _ _ Hassign); [|exact Hm].
    rewrite Hhas. apply orb_true_iff. right. apply existsb_exists. exists m.
    split; [apply In_windowMembers|]. unfold wanted. rewrite Hin.
    replace (truthy (Window_new x) m) with false by (destruct m; try reflexivity; discriminate).
    now destruct m.
Qed.

(** [getWindowByHwnd] only adds to the history. *)
Lemma emits_getWindowByHwnd_any x fields driveMap processMap h :
  exists t,
    snd (getWindowByHwnd os attempts getTitleByHwnd x fields driveMap processMap h)
    = h ++ t.
Proof.
  assert (H : emits (fun _ => True)
                    (getWindowByHwnd os attempts getTitleByHwnd x fields driveMap processMap)).
  { apply emits_bind; [|intros; apply emits_ret].
    apply (emits_fillWindowFields os attempts getTitleByHwnd title_calls).
    intros; exact I. }
  destruct (H h) as (t & Ht & _). now exists t.
Qed.

End FieldFurther.

(** X13: members that are not requested.  A member that is not in the
    fields passed to [fillWindowFields] is left on the record as it was,
    truthy or not, and none of the native calls that compute it is issued;
    for [pid] this holds when [path] is not computed in the same call. *)
Theorem fillWindowFields_leaves_the_rest os attempts window fields driveMap processMap m :
  includes (default windowMembers fields) m = false ->
  (m = Pid -> wanted window (default windowMembers fields) Path = false) ->
  emits (fun c => computes m c = false)
        (Mjs.fillWindowFields os attempts window fields driveMap processMap)
  /\ forall h r window' processMap' h',
      Mjs.fillWindowFields os attempts window fields driveMap processMap h
      = (Val (r, window', processMap'), h') ->
      get window' m = get window m.
Proof.
  intros Hin. apply (fillWindowFields_not_wanted os attempts _ (Mjs_title_calls os attempts)).
  unfold wanted. now rewrite Hin.
Qed.

Lemma fillWindowFields_leaves_the_rest_witness :
  includes [Title] Visible = false
  /\ Mjs.fillWindowFields Desktop.os 1 (mkWindow 10 None None None (Some false))
                          (Some [Title]) None None []
     = (Val (Fulfilled tt, mkWindow 10 (Some (lit "Editor")) None None (Some false), None),
        [GetWindowTextW 10 256])
  /\ get (mkWindow 10 (Some (lit "Editor")) None None (Some false)) Visible
     = Boolean false.
Proof.
  split; [reflexivity|].
  assert (H : Mjs.fillWindowFields Desktop.os 1 (mkWindow 10 None None None (Some false))
                                   (Some [Title]) None None []
              = (Val (Fulfilled tt,
                      mkWindow 10 (Some (lit "Editor")) None None (Some false), None),
                 [GetWindowTextW 10 256])) by (vm_compute; reflexivity).
  split; [exact H|].
  exact (proj2 (fillWindowFields_leaves_the_rest Desktop.os 1
                  (mkWindow 10 None None None (Some false)) (Some [Title]) None None
                  Visible eq_refl ltac:(discriminate))
               _ _ _ _ _ H).
Defined.

(** X14: a failed title read.  When the title is to be computed and
    [getTitleByHwnd] throws, [fillWindowFields] is rejected with that error
    and the record is left exactly as it was, whatever the other requested
    members' calls returned. *)
Theorem fillWindowFields_title_failure os attempts window fields driveMap processMap
        h e h1 r window' processMap' h' :
  wanted window (default windowMembers fields) Title = true ->
  Mjs.getTitleByHwnd os attempts (hwnd window) h = (Exn e, h1) ->
  Mjs.fillWindowFields os attempts window fields driveMap processMap h
  = (Val (r, window', processMap'), h') ->
  r = Rejected e /\ window' = window.
Proof.
  exact (fillWindowFields_title_fails os attempts _ window fields driveMap processMap
           h e h1 r window' processMap' h').
Qed.

Lemma fillWindowFields_title_failure_witness :
  Mjs.fillWindowFields noTitles 1 (Window_new 10) (Some [Title; Pid; Visible]) None None []
  = (Val (Rejected Desktop.denied, Window_new 10, None),
     [GetWindowTextW 10 256; GetWindowThreadProcessId 10; IsWindowVisible 10])
  /\ @Rejected unit Desktop.denied = Rejected Desktop.denied
  /\ Window_new 10 = Window_new 10.
Proof.
  assert (H : Mjs.fillWindowFields noTitles 1 (Window_new 10)
                                   (Some [Title; Pid; Visible]) None None []
              = (Val (Rejected Desktop.denied, Window_new 10, None),
                 [GetWindowTextW 10 256; GetWindowThreadProcessId 10; IsWindowVisible 10]))
    by (vm_compute; reflexivity).
  split; [exact H|].
  exact (fillWindowFields_title_failure noTitles 1 (Window_new 10)
           (Some [Title; Pid; Visible]) None None [] Desktop.denied
           [GetWindowTextW 10 256] _ _ _ _ eq_refl ltac:(vm_compute; reflexivity) H).
Defined.

(** X15: the record of [getWindowByHwnd].  A record that [getWindowByHwnd]
    is fulfilled with carries the handle it was given; every requested
    member other than [path] is set on it; and every member that was not
    asked for is undefined, [pid] counting as asked for when [path] is. *)
Theorem getWindowByHwnd_record os attempts x fields driveMap processMap h window
        processMap' h' :
  Mjs.getWindowByHwnd os attempts x fields driveMap processMap h
  = (Val (Fulfilled window, processMap'), h') ->
  hwnd window = x
  /\ (forall m, m <> Hwnd -> asked fields m = false -> get window m = Undefined)
  /\ (forall m, includes (default windowMembers fields) m = true -> m <> Path ->
                get window m <> Undefined).
Proof.
  exact (getWindowByHwnd_fulfilled os attempts _ (Mjs_title_calls os attempts)
           x fields driveMap processMap h window processMap' h').
Qed.

Lemma getWindowByHwnd_record_witness :
  Mjs.getWindowByHwnd Desktop.os 3 10 (Some [Path]) None None []
  = (Val (Fulfilled (mkWindow 10 None (Some 7) (Some Desktop.appPath) None), None),
     [GetWindowThreadProcessId 10; GetLogicalDriveStringsW 256;
      QueryDosDeviceW (strArg (lit "C:")) 256; OpenProcess 0x1000 false 7;
      GetProcessImageFileNameW 107 256; GetProcessImageFileNameW 107 512; CloseHandle 107])
  /\ get (mkWindow 10 None (Some 7) (Some Desktop.appPath) None) Title = Undefined.
Proof.
  assert (H : Mjs.getWindowByHwnd Desktop.os 3 10 (Some [Path]) None None []
              = (Val (Fulfilled (mkWindow 10 None (Some 7) (Some Desktop.appPath) None),
                      None),
                 [GetWindowThreadProcessId 10; GetLogicalDriveStringsW 256;
                  QueryDosDeviceW (strArg (lit "C:")) 256; OpenProcess 0x1000 false 7;
                  GetProcessImageFileNameW 107 256; GetProcessImageFileNameW 107 512; CloseHandle 107]))
    by (vm_compute; reflexivity).
  split; [exact H|].
  exact (proj1 (proj2 (getWindowByHwnd_record _ _ _ _ _ _ _ _ _ _ H))
               Title ltac:(discriminate) eq_refl).
Defined.

(* ===================================================================== *)
(** * Further properties of the window queries *)
(* ===================================================================== *)

(** X16: one record per window.  When [getAllWindows(true, fields)] returns,
    [getDriveMap] returned a drive map, [EnumWindows] right after it listed
    the handles, and the result has one record per listed handle, in the
    order of the list, hidden and untitled windows included; every requested
    member other than [path] is set on every record. *)
Theorem getAllWindows_all_lists_every_handle os attempts fields h windows h' :
  Mjs.getAllWindows os attempts true fields h = (Val windows, h') ->
  exists driveMap hd hwnds,
    getDriveMap os attempts h = (Val driveMap, hd)
    /\ enumWindows os hd = Fulfilled hwnds
    /\ map hwnd windows = hwnds
    /\ Forall (resolved fields) windows.
Proof.
  intros H.
  apply (getAllWindows_inv os attempts _ (Mjs_title_calls os attempts)) in H
    as (dm & hd & hwnds & first & rest & Hdm & Henum & <- & Hkept & Hres & _).
  exists dm, hd, (map hwnd first).
  split; [exact Hdm | split; [exact Henum | split; [|exact Hres]]].
  exact (keptFrom_handles _ _ Hkept).
Qed.

Lemma getAllWindows_all_lists_every_handle_witness :
  Mjs.getAllWindows Desktop.os 1 true (Some [Title]) []
  = (Val [mkWindow 10 (Some (lit "Editor")) None None None;
          mkWindow 11 (Some []) None None None;
          mkWindow 12 (Some (lit "Tray")) None None None],
     [GetLogicalDriveStringsW 256; QueryDosDeviceW (strArg (lit "C:")) 256; EnumWindows;
      GetWindowTextW 10 256; GetWindowTextW 11 256; GetWindowTextW 12 256;
      GetWindowTextW 11 256])
  /\ exists driveMap hd hwnds,
      getDriveMap Desktop.os 1 [] = (Val driveMap, hd)
      /\ enumWindows Desktop.os hd = Fulfilled hwnds
      /\ map hwnd [mkWindow 10 (Some (lit "Editor")) None None None;
                   mkWindow 11 (Some []) None None None;
                   mkWindow 12 (Some (lit "Tray")) None None None] = hwnds
      /\ Forall (resolved (Some [Title]))
                [mkWindow 10 (Some (lit "Editor")) None None None;
                 mkWindow 11 (Some []) None None None;
                 mkWindow 12 (Some (lit "Tray")) None None None].
Proof.
  assert (H : Mjs.getAllWindows Desktop.os 1 true (Some [Title]) []
              = (Val [mkWindow 10 (Some (lit "Editor")) None None None;
                      mkWindow 11 (Some []) None None None;
                      mkWindow 12 (Some (lit "Tray")) None None None],
                 [GetLogicalDriveStringsW 256; QueryDosDeviceW (strArg (lit "C:")) 256;
                  EnumWindows;
                  GetWindowTextW 10 256; GetWindowTextW 11 256; GetWindowTextW 12 256;
                  GetWindowTextW 11 256])) by (vm_compute; reflexivity).
  split; [exact H | exact (getAllWindows_all_lists_every_handle _ _ _ _ _ _ H)].
Defined.

(** X17: the active window.  [getActiveWindow] asks for the foreground
    window first.  When that call fails, the promise is rejected with its
    error and no other call is issued; a record it is fulfilled with carries
    the handle that [GetForegroundWindow] returned. *)
Theorem getActiveWindow_is_the_foreground_window os attempts fields driveMap processMap h :
  firstCall (Mjs.getActiveWindow os attempts fields driveMap processMap) h
  = Some GetForegroundWindow
  /\ (forall e,
         getForegroundWindow os h = Rejected e ->
         Mjs.getActiveWindow os attempts fields driveMap processMap h
         = (Val (Rejected e, processMap), h ++ [GetForegroundWindow]))
  /\ (forall window processMap' h',
         Mjs.getActiveWindow os attempts fields driveMap processMap h
         = (Val (Fulfilled window, processMap'), h') ->
         getForegroundWindow os h = Fulfilled (hwnd window)).
Proof.
  unfold Mjs.getActiveWindow, getActiveWindow, getActiveWindowHwnd.
  unfold firstCall, bind at 1, bind at 1, bind at 1, start, native.
  destruct (getForegroundWindow os h) as [x|e] eqn:Hfg.
  - split; [|split; [discriminate|]].
    + destruct (emits_getWindowByHwnd_any os attempts _ (Mjs_title_calls os attempts)
                  x fields driveMap processMap (h ++ [GetForegroundWindow]))
        as (t & Ht).
      rewrite Ht, <- app_assoc. cbn [app].
      now rewrite nth_error_app2, Nat.sub_diag by lia.
    + intros window processMap' h' H. f_equal. symmetry.
      now destruct (getWindowByHwnd_fulfilled os attempts _ (Mjs_title_calls os attempts)
                      _ _ _ _ _ _ _ _ H).
  - split; [|split].
    + cbn [snd ret]. now rewrite nth_error_app2, Nat.sub_diag by lia.
    + intros e' E. inversion E; subst. reflexivity.
    + intros window processMap' h' H. unfold ret in H. inversion H.
Qed.

(* ===================================================================== *)
(** * Further properties of the process map under overlapping requests *)
(* ===================================================================== *)

Lemma step_other s ev s' pid :
  step s ev = Some s' -> eventPid ev <> pid ->
  processMap s' !! pid = processMap s !! pid /\ callsOf pid s' = callsOf pid s.
Proof.
  intros H Hne. unfold step in H.
  assert (Hother : forall ph calls,
             processMap (enter s (eventPid ev) ph calls) !! pid = processMap s !! pid
             /\ callsOf pid (enter s (eventPid ev) ph calls) = callsOf pid s).
  { intros ph calls. rewrite lookup_enter, callsOf_enter.
    destruct (decide (eventPid ev = pid)); [congruence|].
    destruct (Z.eqb_spec (eventPid ev) pid); [congruence|]. now rewrite app_nil_r. }
  destruct ev as [pid0 dm|pid0 x|pid0 x|pid0 x|pid0 x]; cbn [eventPid] in *;
    destruct (processMap s !! pid0) as [ph|]; try discriminate.
  - inversion H; subst. now split.
  - destruct dm; inversion H; subst; apply Hother.
  - destruct ph; try discriminate. destruct x; inversion H; subst; apply Hother.
  - destruct ph; try discriminate. destruct x; inversion H; subst; apply Hother.
  - destruct ph; try discriminate. destruct (afterRead _ x) as [rawPath|e].
    + inversion H; subst. apply Hother.
    + destruct (negb _); [inversion H; subst; apply Hother|].
      destruct (allocatable _); inversion H; subst; apply Hother.
  - destruct ph; try discriminate. destruct x; inversion H; subst; apply Hother.
Qed.

(** X18: lookups do not touch each other.  Turns of the event loop that are
    requests for, or settlements of, other processes leave the entry of
    [pid] in the process map and the calls issued for [pid] as they were. *)
Theorem other_lookups_leave_a_lookup_alone evs pid :
  forall s s',
    run evs s = Some s' ->
    Forall (fun ev => eventPid ev <> pid) evs ->
    processMap s' !! pid = processMap s !! pid /\ callsOf pid s' = callsOf pid s.
Proof.
  induction evs as [|ev evs IH]; intros s s' H Hevs; cbn [run] in H.
  - inversion H; subst. now split.
  - destruct (step s ev) as [s1|] eqn:Hstep; [|discriminate].
    inversion Hevs as [|? ? Hev Hrest]; subst.
    destruct (step_other _ _ _ _ Hstep Hev) as [E1 E2].
    destruct (IH _ _ H Hrest) as [E3 E4]. split; congruence.
Qed.

Lemma other_lookups_leave_a_lookup_alone_witness :
  run [Request 8 None; DriveMapSettled 8 (Fulfilled driveC)] requested7
  = Some (open (enter requested7 8 AwaitDriveMap []) 8 driveC)
  /\ processMap (open (enter requested7 8 AwaitDriveMap []) 8 driveC) !! 7
     = processMap requested7 !! 7
  /\ callsOf 7 (open (enter requested7 8 AwaitDriveMap []) 8 driveC)
     = callsOf 7 requested7.
Proof.
  assert (H : run [Request 8 None; DriveMapSettled 8 (Fulfilled driveC)] requested7
              = Some (open (enter requested7 8 AwaitDriveMap []) 8 driveC))
    by (vm_compute; reflexivity).
  split; [exact H|].
  apply (other_lookups_leave_a_lookup_alone _ 7 _ _ H).
  repeat constructor; discriminate.
Defined.

Lemma eventLoop_follows_lookupPath_witness :
  suffice 26 256
  /\ lookupPath Desktop.os 26 7 (Some driveC) []
     = (Val (Some Desktop.appPath),
        [OpenProcess 0x1000 false 7; GetProcessImageFileNameW 107 256;
         GetProcessImageFileNameW 107 512; CloseHandle 107])
  /\ exists res h' s' t result,
      lookupPath Desktop.os 26 7 (Some driveC) [] = (res, h')
      /\ run (Request 7 (Some driveC) :: settlements Desktop.os 26 7 []) initial = Some s'
      /\ h' = [] ++ t
      /\ callsOf 7 s' = callsOf 7 initial ++ t
      /\ settled res = Some result
      /\ processMap s' !! 7 = Some (Settled result).
Proof.
  assert (Hfuel : suffice 26 256) by (split; vm_compute; reflexivity).
  split; [exact Hfuel | split; [vm_compute; reflexivity |]].
  exact (eventLoop_follows_lookupPath Desktop.os 26 7 driveC [] initial
           Hfuel (lookup_empty 7)).
Defined.
